(** * The LLM client core of morphic: provider fallback, retry, conversation
      memory and provider registry

    A shallow embedding of
      - lib/redis.ts            ([setWithExpiry], [getAndParse], [deleteKey])
      - lib/env.ts              ([getAvailableProviders])
      - lib/llm/config.ts       ([generateSystemPrompt], [withRetry])
      - lib/llm/memory.ts       ([MemoryManager])
      - lib/search/searxng.ts   ([searchSearXNG], [summarizeSearchResults])
      - lib/llm/providers/*.ts  ([CohereProvider], [OpenRouterProvider],
                                 [GLHFProvider])
      - lib/llm/factory.ts      ([LLMFactory])
      - lib/llm/client.ts       ([LLMClient])
    followed by the properties the specification states about them, and
    by further properties of the code.

    Promises are run to completion: an [async] function is a computation
    over the state of the world that either resolves ([Ok]) or rejects
    ([Throw]); [await] is sequencing, [try]/[catch] is [try_catch]. *)

From Stdlib Require Import ZArith NArith List String Ascii Bool Lia.
From Stdlib Require Import DecimalN DecimalFacts.
From stdpp Require Import base option list gmap strings.

Local Open Scope string_scope.
Local Open Scope Z_scope.
Local Open Scope list_scope.

(** ** JSON text

    [JSON.stringify] and [JSON.parse] are JavaScript's; the store keeps
    text, so both are written out here on the characters.  Numbers are
    integers: the only numbers this program serialises are [Date.now()]
    readings.  A literal with a fraction or an exponent is outside the
    grammar below, and so is a [\u] escape above 255 (a character here
    is a code point below 256). *)
Module JSON.

Local Open Scope char_scope.

#[warnings="-register-all"]
Inductive json : Type :=
| JNull
| JBool (b : bool)
| JNum (n : Z)
| JStr (s : string)
| JArr (elems : list json)
| JObj (members : list (string * json)).

Definition dquote : ascii := ascii_of_nat 34.
Definition backslash : ascii := ascii_of_nat 92.

Abbreviation chars := list_ascii_of_string (only parsing).

(** *** Numbers *)

Fixpoint digits_of_uint (u : Decimal.uint) : list ascii :=
  match u with
  | Decimal.Nil => []
  | Decimal.D0 u => "0" :: digits_of_uint u
  | Decimal.D1 u => "1" :: digits_of_uint u
  | Decimal.D2 u => "2" :: digits_of_uint u
  | Decimal.D3 u => "3" :: digits_of_uint u
  | Decimal.D4 u => "4" :: digits_of_uint u
  | Decimal.D5 u => "5" :: digits_of_uint u
  | Decimal.D6 u => "6" :: digits_of_uint u
  | Decimal.D7 u => "7" :: digits_of_uint u
  | Decimal.D8 u => "8" :: digits_of_uint u
  | Decimal.D9 u => "9" :: digits_of_uint u
  end.

Definition digit_of_ascii (c : ascii) : option (Decimal.uint → Decimal.uint) :=
  if Ascii.eqb c "0" then Some Decimal.D0
  else if Ascii.eqb c "1" then Some Decimal.D1
  else if Ascii.eqb c "2" then Some Decimal.D2
  else if Ascii.eqb c "3" then Some Decimal.D3
  else if Ascii.eqb c "4" then Some Decimal.D4
  else if Ascii.eqb c "5" then Some Decimal.D5
  else if Ascii.eqb c "6" then Some Decimal.D6
  else if Ascii.eqb c "7" then Some Decimal.D7
  else if Ascii.eqb c "8" then Some Decimal.D8
  else if Ascii.eqb c "9" then Some Decimal.D9
  else None.

Fixpoint read_digits (l : list ascii) : Decimal.uint * list ascii :=
  match l with
  | [] => (Decimal.Nil, [])
  | c :: l' =>
      match digit_of_ascii c with
      | Some d => let '(u, r) := read_digits l' in (d u, r)
      | None => (Decimal.Nil, l)
      end
  end.

(** What may follow an integer literal: anything but one more digit, a
    fraction or an exponent. *)
Definition ends_number (l : list ascii) : bool :=
  match l with
  | [] => true
  | c :: _ =>
      match digit_of_ascii c with
      | Some _ => false
      | None => negb (Ascii.eqb c "." || Ascii.eqb c "e" || Ascii.eqb c "E")
      end
  end.

Definition print_N (n : N) : list ascii := digits_of_uint (N.to_uint n).

Definition print_Z (n : Z) : list ascii :=
  if (n <? 0)%Z then "-" :: print_N (Z.to_N (- n)) else print_N (Z.to_N n).

(** An unsigned literal: at least one digit, no leading zero. *)
Definition read_N (l : list ascii) : option (N * list ascii) :=
  let '(u, r) := read_digits l in
  if ends_number r then
    match u with
    | Decimal.Nil => None
    | Decimal.D0 Decimal.Nil => Some (0%N, r)
    | Decimal.D0 _ => None
    | _ => Some (N.of_uint u, r)
    end
  else None.

Definition read_Z (l : list ascii) : option (Z * list ascii) :=
  match l with
  | c :: l' =>
      if Ascii.eqb c "-"
      then '(n, r) ← read_N l'; Some ((- Z.of_N n)%Z, r)
      else '(n, r) ← read_N l; Some (Z.of_N n, r)
  | [] => None
  end.

(** *** Strings *)

Definition hex_digit (n : N) : ascii :=
  if (n <? 10)%N then ascii_of_N (48 + n) else ascii_of_N (87 + n).

Definition hex_val (c : ascii) : option N :=
  let n := N_of_ascii c in
  if ((48 <=? n) && (n <=? 57))%N then Some (n - 48)%N
  else if ((97 <=? n) && (n <=? 102))%N then Some (n - 87)%N
  else if ((65 <=? n) && (n <=? 70))%N then Some (n - 55)%N
  else None.

Definition escape_char (c : ascii) : list ascii :=
  if Ascii.eqb c dquote then [backslash; dquote]
  else if Ascii.eqb c backslash then [backslash; backslash]
  else
    let n := N_of_ascii c in
    if (n =? 8)%N then [backslash; "b"]
    else if (n =? 9)%N then [backslash; "t"]
    else if (n =? 10)%N then [backslash; "n"]
    else if (n =? 12)%N then [backslash; "f"]
    else if (n =? 13)%N then [backslash; "r"]
    else if (n <? 32)%N
         then [backslash; "u"; "0"; "0"; hex_digit (n / 16); hex_digit (n mod 16)]
         else [c].

Fixpoint escape (s : list ascii) : list ascii :=
  match s with
  | [] => []
  | c :: s' => escape_char c ++ escape s'
  end.

Definition print_string (s : string) : list ascii :=
  dquote :: escape (list_ascii_of_string s) ++ [dquote].

Definition unescape (e : ascii) : option ascii :=
  if Ascii.eqb e dquote then Some dquote
  else if Ascii.eqb e backslash then Some backslash
  else if Ascii.eqb e "/" then Some "/"
  else if Ascii.eqb e "b" then Some (ascii_of_nat 8)
  else if Ascii.eqb e "t" then Some (ascii_of_nat 9)
  else if Ascii.eqb e "n" then Some (ascii_of_nat 10)
  else if Ascii.eqb e "f" then Some (ascii_of_nat 12)
  else if Ascii.eqb e "r" then Some (ascii_of_nat 13)
  else None.

Definition hex4 (h1 h2 h3 h4 : ascii) : option N :=
  a ← hex_val h1; b ← hex_val h2; c ← hex_val h3; d ← hex_val h4;
  Some (((a * 16 + b) * 16 + c) * 16 + d)%N.

(** The characters of a string literal after its opening quote, up to and
    including the closing one. *)
Fixpoint read_string (l : list ascii) : option (list ascii * list ascii) :=
  match l with
  | [] => None
  | c :: l1 =>
      if Ascii.eqb c dquote then Some ([], l1)
      else if Ascii.eqb c backslash then
        match l1 with
        | [] => None
        | e :: l2 =>
            if Ascii.eqb e "u" then
              match l2 with
              | h1 :: h2 :: h3 :: h4 :: l6 =>
                  n ← hex4 h1 h2 h3 h4;
                  if (n <? 256)%N
                  then '(s, r) ← read_string l6; Some (ascii_of_N n :: s, r)
                  else None
              | _ => None
              end
            else
              c' ← unescape e;
              '(s, r) ← read_string l2; Some (c' :: s, r)
        end
      else if (N_of_ascii c <? 32)%N then None
      else '(s, r) ← read_string l1; Some (c :: s, r)
  end.

(** *** Values *)

Definition is_ws (c : ascii) : bool :=
  Ascii.eqb c " " || Ascii.eqb c (ascii_of_nat 9)
  || Ascii.eqb c (ascii_of_nat 10) || Ascii.eqb c (ascii_of_nat 13).

Fixpoint skip_ws (l : list ascii) : list ascii :=
  match l with
  | c :: l' => if is_ws c then skip_ws l' else l
  | [] => []
  end.

Fixpoint strip_prefix (p l : list ascii) : option (list ascii) :=
  match p, l with
  | [], _ => Some l
  | a :: p', b :: l' => if Ascii.eqb a b then strip_prefix p' l' else None
  | _ :: _, [] => None
  end.

(** [JSON.stringify] without an indent argument: no white space. *)
Fixpoint print (j : json) : list ascii :=
  match j with
  | JNull => chars "null"
  | JBool true => chars "true"
  | JBool false => chars "false"
  | JNum n => print_Z n
  | JStr s => print_string s
  | JArr [] => chars "[]"
  | JArr (x :: xs) =>
      "[" :: print x ++
      (fix print_elems (l : list json) : list ascii :=
         match l with
         | [] => ["]"]
         | y :: ys => "," :: print y ++ print_elems ys
         end) xs
  | JObj [] => chars "{}"
  | JObj ((k, v) :: ms) =>
      "{" :: print_string k ++ ":" :: print v ++
      (fix print_members (l : list (string * json)) : list ascii :=
         match l with
         | [] => ["}"]
         | (k', v') :: ms' =>
             "," :: print_string k' ++ ":" :: print v' ++ print_members ms'
         end) ms
  end.

Fixpoint print_elems (l : list json) : list ascii :=
  match l with
  | [] => ["]"]
  | y :: ys => "," :: print y ++ print_elems ys
  end.

Fixpoint print_members (l : list (string * json)) : list ascii :=
  match l with
  | [] => ["}"]
  | (k, v) :: ms => "," :: print_string k ++ ":" :: print v ++ print_members ms
  end.

(** One member key and its colon. *)
Definition read_key (l : list ascii) : option (string * list ascii) :=
  match skip_ws l with
  | c :: r =>
      if Ascii.eqb c dquote then
        '(s, r1) ← read_string r;
        match skip_ws r1 with
        | c1 :: r2 =>
            if Ascii.eqb c1 ":" then Some (string_of_list_ascii s, r2) else None
        | [] => None
        end
      else None
  | [] => None
  end.

Fixpoint parse_value (fuel : nat) (l : list ascii) {struct fuel}
  : option (json * list ascii) :=
  match fuel with
  | O => None
  | S f =>
      match skip_ws l with
      | [] => None
      | c :: r =>
          if Ascii.eqb c "[" then
            match skip_ws r with
            | [] => None
            | c2 :: r2 =>
                if Ascii.eqb c2 "]" then Some (JArr [], r2)
                else
                  '(x, r3) ← parse_value f (c2 :: r2);
                  '(xs, r4) ← parse_elems f r3;
                  Some (JArr (x :: xs), r4)
            end
          else if Ascii.eqb c "{" then
            match skip_ws r with
            | [] => None
            | c2 :: r2 =>
                if Ascii.eqb c2 "}" then Some (JObj [], r2)
                else
                  '(k, r3) ← read_key (c2 :: r2);
                  '(v, r4) ← parse_value f r3;
                  '(ms, r5) ← parse_members f r4;
                  Some (JObj ((k, v) :: ms), r5)
            end
          else if Ascii.eqb c dquote then
            '(s, r1) ← read_string r; Some (JStr (string_of_list_ascii s), r1)
          else if Ascii.eqb c "n" then
            r1 ← strip_prefix (chars "ull") r; Some (JNull, r1)
          else if Ascii.eqb c "t" then
            r1 ← strip_prefix (chars "rue") r; Some (JBool true, r1)
          else if Ascii.eqb c "f" then
            r1 ← strip_prefix (chars "alse") r; Some (JBool false, r1)
          else
            '(n, r1) ← read_Z (c :: r); Some (JNum n, r1)
      end
  end
with parse_elems (fuel : nat) (l : list ascii) {struct fuel}
  : option (list json * list ascii) :=
  match fuel with
  | O => None
  | S f =>
      match skip_ws l with
      | [] => None
      | c :: r =>
          if Ascii.eqb c "]" then Some ([], r)
          else if Ascii.eqb c "," then
            '(x, r1) ← parse_value f r;
            '(xs, r2) ← parse_elems f r1;
            Some (x :: xs, r2)
          else None
      end
  end
with parse_members (fuel : nat) (l : list ascii) {struct fuel}
  : option (list (string * json) * list ascii) :=
  match fuel with
  | O => None
  | S f =>
      match skip_ws l with
      | [] => None
      | c :: r =>
          if Ascii.eqb c "}" then Some ([], r)
          else if Ascii.eqb c "," then
            '(k, r1) ← read_key r;
            '(v, r2) ← parse_value f r1;
            '(ms, r3) ← parse_members f r2;
            Some ((k, v) :: ms, r3)
          else None
      end
  end.

(** Fuel that parses what [print] wrote: one unit per value and per
    separator. *)
Fixpoint need (j : json) : nat :=
  match j with
  | JArr (x :: xs) =>
      S (need x +
         (fix need_elems (l : list json) : nat :=
            match l with
            | [] => 1
            | y :: ys => S (need y + need_elems ys)
            end) xs)
  | JObj ((_, v) :: ms) =>
      S (need v +
         (fix need_members (l : list (string * json)) : nat :=
            match l with
            | [] => 1
            | (_, v') :: ms' => S (need v' + need_members ms')
            end) ms)
  | _ => 1
  end%nat.

Fixpoint need_elems (l : list json) : nat :=
  match l with
  | [] => 1
  | y :: ys => S (need y + need_elems ys)
  end%nat.

Fixpoint need_members (l : list (string * json)) : nat :=
  match l with
  | [] => 1
  | (_, v) :: ms => S (need v + need_members ms)
  end%nat.

(** The characters a printed value can start with. *)
Definition starts_value (c : ascii) : bool :=
  existsb (Ascii.eqb c) (dquote :: chars "ntf-0123456789[{").

Definition is_digit (c : ascii) : Prop := In c (chars "0123456789").

(** With enough fuel, what [print] wrote is parsed back, whatever follows
    it that cannot continue a number. *)
Definition parse_ok (j : json) : Prop :=
  ∀ fuel r, (need j ≤ fuel)%nat → ends_number r = true →
            parse_value fuel (print j ++ r) = Some (j, r).

Definition need_le (j : json) : Prop := (need j ≤ length (print j))%nat.

Definition stringify (j : json) : string := string_of_list_ascii (print j).

(** [JSON.parse]: one value, white space around it, nothing else.  [None]
    is a [SyntaxError]. *)
Definition parse (s : string) : option json :=
  let l := list_ascii_of_string s in
  '(j, r) ← parse_value (S (length l)) l;
  match skip_ws r with
  | [] => Some j
  | _ :: _ => None
  end.

End JSON.

Import JSON.

Arguments JSON.parse : simpl never.
Arguments JSON.stringify : simpl never.


(** ** JavaScript values and strings *)

(** A string is falsy exactly when it is empty. *)
Definition truthy_string (s : string) : bool :=
  match s with EmptyString => false | String _ _ => true end.

Definition truthy_opt_string (o : option string) : bool :=
  match o with Some s => truthy_string s | None => false end.

(** White space as [String.prototype.trim] and the regular expression
    class [\s] see it.  A character here is a code point below 256; of
    JavaScript's white space and line terminators these are the tab, the
    line feed, the vertical tab, the form feed, the carriage return, the
    space and the no-break space (160). *)
Definition is_space (c : ascii) : bool :=
  let n := N_of_ascii c in
  ((9 <=? n) && (n <=? 13) || (n =? 32) || (n =? 160))%N.

Fixpoint trim_start (l : list ascii) : list ascii :=
  match l with
  | c :: l' => if is_space c then trim_start l' else l
  | [] => []
  end.

Definition trim (s : string) : string :=
  string_of_list_ascii
    (rev (trim_start (rev (trim_start (list_ascii_of_string s))))).

(** [s.split(sep)] for a separator that is one character out of a class:
    there is always at least one piece. *)
Fixpoint split_chars (sep : ascii → bool) (l : list ascii) : list (list ascii) :=
  match l with
  | [] => [[]]
  | c :: l' =>
      if sep c then [] :: split_chars sep l'
      else match split_chars sep l' with
           | piece :: pieces => (c :: piece) :: pieces
           | [] => [[c]]
           end
  end.

Definition split (sep : ascii → bool) (s : string) : list string :=
  string_of_list_ascii <$> split_chars sep (list_ascii_of_string s).

(** [pieces.join(sep)]. *)
Fixpoint join (sep : string) (pieces : list string) : string :=
  match pieces with
  | [] => EmptyString
  | [x] => x
  | x :: rest => x +:+ sep +:+ join sep rest
  end.

(** [array.slice(start)]: a negative start counts from the end, and [-0]
    is [0]. *)
Definition slice_from {A} (start : Z) (l : list A) : list A :=
  let len := Z.of_nat (length l) in
  let from := if start <? 0 then Z.max (len + start) 0 else Z.min start len in
  drop (Z.to_nat from) l.

Definition len {A} (l : list A) : Z := Z.of_nat (length l).

(** ** The world a call runs in

    Everything outside the program is an input of the model, given as the
    list of what it will answer next: whether the store's next command is
    refused, what the clock reads, what the vendor's endpoint and the
    search backend reply.  What the program does to its surroundings is
    logged: the delays it slept, the calls made to instrumented mocks, the
    chunks handed to [onChunk]. *)

Record Error := mkError { message : string }.

Inductive Result (A : Type) : Type :=
| Ok (a : A)
| Throw (e : Error).
Arguments Ok {A} a.
Arguments Throw {A} e.

(** A [Date] with what its locale formatting prints. *)
Record DateObj := mkDate {
  epoch_ms : Z;
  localeDate : string;   (* toLocaleDateString('en-US', ...) *)
  localeTime : string    (* toLocaleTimeString('en-US', ...) *)
}.

Record SearchResult := mkSearchResult {
  sr_title : string;
  sr_link : string;
  sr_snippet : string;
  sr_date : string
}.

(** The body of an HTTP response: a parsed JSON document ([None] is
    [undefined]), or a stream of frames that ends or breaks. *)
Inductive ResponseData : Type :=
| DataJson (v : option json)
| DataStream (frames : list string) (broken : option Error).

Inductive NetReply : Type :=
| NetFail (e : Error)
| NetOk (data : ResponseData).

Record World := mkWorld {
  kv_data : gmap string (string * Z);  (* key ↦ (text, ttl in seconds) *)
  kv_faults : list bool;               (* true: the next command is refused *)
  clock : list DateObj;
  net : list NetReply;
  search_net : list (option (list SearchResult));
  slept : list Z;                      (* setTimeout delays, oldest first *)
  calls : list nat;                    (* mock.calls, by mock, oldest first *)
  chunks : list (string * bool)        (* arguments of onChunk, oldest first *)
}.

Definition set_kv_data (f : gmap string (string * Z) → gmap string (string * Z))
    (w : World) : World :=
  mkWorld (f (kv_data w)) (kv_faults w) (clock w) (net w) (search_net w)
          (slept w) (calls w) (chunks w).
Definition set_kv_faults (fs : list bool) (w : World) : World :=
  mkWorld (kv_data w) fs (clock w) (net w) (search_net w)
          (slept w) (calls w) (chunks w).
Definition set_clock (ds : list DateObj) (w : World) : World :=
  mkWorld (kv_data w) (kv_faults w) ds (net w) (search_net w)
          (slept w) (calls w) (chunks w).
Definition set_net (rs : list NetReply) (w : World) : World :=
  mkWorld (kv_data w) (kv_faults w) (clock w) rs (search_net w)
          (slept w) (calls w) (chunks w).
Definition set_search_net (rs : list (option (list SearchResult))) (w : World)
    : World :=
  mkWorld (kv_data w) (kv_faults w) (clock w) (net w) rs
          (slept w) (calls w) (chunks w).
Definition set_slept (ds : list Z) (w : World) : World :=
  mkWorld (kv_data w) (kv_faults w) (clock w) (net w) (search_net w)
          ds (calls w) (chunks w).
Definition set_calls (cs : list nat) (w : World) : World :=
  mkWorld (kv_data w) (kv_faults w) (clock w) (net w) (search_net w)
          (slept w) cs (chunks w).
Definition set_chunks (cs : list (string * bool)) (w : World) : World :=
  mkWorld (kv_data w) (kv_faults w) (clock w) (net w) (search_net w)
          (slept w) (calls w) cs.

(** A promise run to completion. *)
Definition M (A : Type) : Type := World → Result A * World.

Definition ret {A} (a : A) : M A := λ w, (Ok a, w).
Definition throw {A} (e : Error) : M A := λ w, (Throw e, w).
Definition bind {A B} (m : M A) (k : A → M B) : M B :=
  λ w, match m w with
       | (Ok a, w') => k a w'
       | (Throw e, w') => (Throw e, w')
       end.
Definition try_catch {A} (body : M A) (handler : Error → M A) : M A :=
  λ w, match body w with
       | (Ok a, w') => (Ok a, w')
       | (Throw e, w') => handler e w'
       end.

Declare Scope prog_scope.
Delimit Scope prog_scope with prog.
Notation "'let*' x := m 'in' k" := (bind m (λ x, k))
  (at level 10, x name, m at level 100, k at level 200) : prog_scope.
Notation "m ;; k" := (bind m (λ _, k))
  (at level 100, k at level 200, right associativity) : prog_scope.
Local Open Scope prog_scope.

(** [new Date()], and [Date.now()]. *)
Definition new_Date : M DateObj :=
  λ w, match clock w with
       | d :: ds => (Ok d, set_clock ds w)
       | [] => (Ok (mkDate 0 EmptyString EmptyString), w)
       end.
Definition Date_now : M Z := let* d := new_Date in ret (epoch_ms d).

(** [await new Promise(resolve => setTimeout(resolve, delay))]. *)
Definition sleep (delay : Z) : M unit :=
  λ w, (Ok tt, set_slept (slept w ++ [delay]) w).

(** ** The keyed store (@vercel/kv)

    The collaborator of the specification's section 6: [get] gives the
    text or nothing, [set] stores text with a time to live, [del] removes.
    Any command may be refused.  Expiry is the store's own business, on its
    own clock: an entry is read here before its time to live runs out. *)
Definition kv_command : M unit :=
  λ w, match kv_faults w with
       | true :: fs => (Throw (mkError "kv: command failed"), set_kv_faults fs w)
       | false :: fs => (Ok tt, set_kv_faults fs w)
       | [] => (Ok tt, w)
       end.
Definition kv_get (key : string) : M (option string) :=
  kv_command ;; λ w, (Ok (fst <$> kv_data w !! key), w).
Definition kv_set (key value : string) (ex : Z) : M unit :=
  kv_command ;; λ w, (Ok tt, set_kv_data (insert key (value, ex)) w).
Definition kv_del (key : string) : M unit :=
  kv_command ;; λ w, (Ok tt, set_kv_data (delete key) w).

(** ** lib/redis.ts *)

Definition setWithExpiry (key : string) (value : json) (expiryInSeconds : Z)
    : M bool :=
  try_catch
    (kv_set key (JSON.stringify value) expiryInSeconds ;; ret true)
    (λ _, ret false).

Definition getAndParse (key : string) : M (option json) :=
  try_catch
    (let* result := kv_get key in
     match result with
     | Some text =>
         if truthy_string text then
           match JSON.parse text with
           | Some v => ret (Some v)
           | None => throw (mkError "SyntaxError")
           end
         else ret None
     | None => ret None
     end)
    (λ _, ret None).

Definition deleteKey (key : string) : M bool :=
  try_catch (kv_del key ;; ret true) (λ _, ret false).

(** ** lib/llm/config.ts: messages *)

Inductive Role := system | user | assistant.

#[global] Instance Role_eq_dec : EqDecision Role.
Proof. solve_decision. Defined.

Record LLMMessage := mkMessage {
  role : Role;
  content : string;
  name : option string
}.

#[global] Instance LLMMessage_eq_dec : EqDecision LLMMessage.
Proof. solve_decision. Defined.

(** [temperature] and [maxTokens] are only handed on to the vendor; what
    matters of [streamCallback] is whether it is there. *)
Record LLMRequestOptions := mkRequest {
  req_systemPrompt : option string;
  req_messages : list LLMMessage;
  req_temperature : option Z;
  req_maxTokens : option Z;
  req_streamCallback : bool;
  req_useSearch : bool
}.

Record LLMResponseChunk := mkChunk {
  chunk_content : string;
  chunk_done : bool
}.

(** ** lib/llm/memory.ts *)

Record ConversationState := mkState {
  messages : list LLMMessage;
  summary : option string;
  createdAt : Z;
  updatedAt : Z
}.

(** The object as [JSON.stringify] writes it: a property that is
    [undefined] is left out.  Properties are written in the order
    [addMessage] creates them. *)
Definition role_to_string (r : Role) : string :=
  match r with system => "system" | user => "user" | assistant => "assistant" end.

Definition role_of_string (s : string) : option Role :=
  if String.eqb s "system" then Some system
  else if String.eqb s "user" then Some user
  else if String.eqb s "assistant" then Some assistant
  else None.

Definition message_to_json (m : LLMMessage) : json :=
  JObj ([("role", JStr (role_to_string (role m)));
         ("content", JStr (content m))]
        ++ match name m with Some n => [("name", JStr n)] | None => [] end).

Definition state_to_json (c : ConversationState) : json :=
  JObj ([("messages", JArr (message_to_json <$> messages c));
         ("createdAt", JNum (createdAt c));
         ("updatedAt", JNum (updatedAt c))]
        ++ match summary c with Some s => [("summary", JStr s)] | None => [] end).

(** [obj[key]]: of a key written twice, the later one counts. *)
Fixpoint get_field (key : string) (members : list (string * json)) : option json :=
  match members with
  | [] => None
  | (k, v) :: rest =>
      match get_field key rest with
      | Some v' => Some v'
      | None => if String.eqb k key then Some v else None
      end
  end.

(** The cast [as ConversationState] read field by field.  A document of
    another shape has no counterpart in the typed record; [None] stands
    for it here, whereas the code goes on with the document as it is.
    What is proved of a conversation that is read from the store is
    therefore stated for stores that hold a document of the type, or
    nothing, under its key ([typed_store] below). *)
Definition message_of_json (j : json) : option LLMMessage :=
  match j with
  | JObj ms =>
      match get_field "role" ms, get_field "content" ms with
      | Some (JStr r), Some (JStr c) =>
          r' ← role_of_string r;
          match get_field "name" ms with
          | None => Some (mkMessage r' c None)
          | Some (JStr n) => Some (mkMessage r' c (Some n))
          | Some _ => None
          end
      | _, _ => None
      end
  | _ => None
  end.

Fixpoint messages_of_json (l : list json) : option (list LLMMessage) :=
  match l with
  | [] => Some []
  | j :: l' =>
      m ← message_of_json j; ms ← messages_of_json l'; Some (m :: ms)
  end.

Definition state_of_json (j : json) : option ConversationState :=
  match j with
  | JObj ms =>
      match get_field "messages" ms, get_field "createdAt" ms,
            get_field "updatedAt" ms with
      | Some (JArr l), Some (JNum c), Some (JNum u) =>
          msgs ← messages_of_json l;
          match get_field "summary" ms with
          | None => Some (mkState msgs None c u)
          | Some (JStr s) => Some (mkState msgs (Some s) c u)
          | Some _ => None
          end
      | _, _, _ => None
      end
  | _ => None
  end.

Record MemoryManager := mkMemoryManager {
  MEMORY_EXPIRY_SECONDS : Z;
  SUMMARY_MESSAGE_THRESHOLD : Z;
  MAX_MESSAGES_TO_KEEP : Z
}.

Definition getRedisKey (conversationId : string) : string :=
  "conv:" +:+ conversationId.

Definition loadConversation (this : MemoryManager) (conversationId : string)
    : M (option ConversationState) :=
  try_catch
    (let redisKey := getRedisKey conversationId in
     let* loaded := getAndParse redisKey in
     ret (loaded ≫= state_of_json))
    (λ _, ret None).

(** [state.updatedAt = Date.now()] writes into the caller's object: the
    object as the call leaves it is returned next to the status. *)
Definition saveConversation (this : MemoryManager) (conversationId : string)
    (state : ConversationState) : M (bool * ConversationState) :=
  try_catch
    (let redisKey := getRedisKey conversationId in
     let* now := Date_now in
     let state := mkState (messages state) (summary state) (createdAt state) now in
     let* ok := setWithExpiry redisKey (state_to_json state)
                              (MEMORY_EXPIRY_SECONDS this) in
     ret (ok, state))
    (λ _, ret (false, state)).

Definition is_sentence_end (c : ascii) : bool :=
  (N_of_ascii c =? 46)%N || (N_of_ascii c =? 33)%N || (N_of_ascii c =? 63)%N.

Definition first_sentence (content : string) : string :=
  match filter (λ s, truthy_string (trim s) = true) (split is_sentence_end content) with
  | firstSentence :: _ =>
      if truthy_string firstSentence then trim firstSentence +:+ "." else EmptyString
  | [] => EmptyString
  end.

Definition generateConversationSummary (msgs : list LLMMessage) : string :=
  let userMessages := content <$> filter (λ m, role m = user) msgs in
  match userMessages with
  | [] => "No conversation history."
  | _ =>
      let sentences :=
        filter (λ s, truthy_string s = true) (first_sentence <$> userMessages) in
      let topicSentences := slice_from (-5) sentences in
      "The conversation covers these topics: " +:+ join " " topicSentences
  end.

(** Lines 94-101: prune the conversation if it exceeds the maximum. *)
Definition prune (this : MemoryManager) (pushed : list LLMMessage)
    : list LLMMessage :=
  if MAX_MESSAGES_TO_KEEP this <? len pushed then
    let systemMessage :=
      match pushed with
      | m0 :: _ => if decide (role m0 = system) then [m0] else []
      | [] => []
      end in
    let recentMessages :=
      slice_from (- MAX_MESSAGES_TO_KEEP this + len systemMessage) pushed in
    systemMessage ++ recentMessages
  else pushed.

(** Lines 103-106: generate the summary if needed. *)
Definition summarize (this : MemoryManager) (msgs : list LLMMessage)
    (current : option string) : option string :=
  if (SUMMARY_MESSAGE_THRESHOLD this <=? len msgs)
     && negb (truthy_opt_string current)
  then Some (generateConversationSummary msgs)
  else current.

Definition addMessage (this : MemoryManager) (conversationId : string)
    (message : LLMMessage) : M (option ConversationState) :=
  try_catch
    (let* loaded := loadConversation this conversationId in
     let* conversation :=
       match loaded with
       | Some c => ret c
       | None =>
           let* created := Date_now in
           let* updated := Date_now in
           ret (mkState [] None created updated)
       end in
     (* conversation.messages.push(message) *)
     let pushed := messages conversation ++ [message] in
     let msgs := prune this pushed in
     let summ := summarize this msgs (summary conversation) in
     let conversation :=
       mkState msgs summ (createdAt conversation) (updatedAt conversation) in
     let* saved := saveConversation this conversationId conversation in
     ret (if saved.1 then Some saved.2 else None))
    (λ _, ret None).

Definition deleteConversation (this : MemoryManager) (conversationId : string)
    : M bool :=
  try_catch
    (let redisKey := getRedisKey conversationId in
     kv_del redisKey ;; ret true)
    (λ _, ret false).

(** [export const memoryManager = new MemoryManager()]. *)
Definition memoryManager : MemoryManager :=
  mkMemoryManager (24 * 60 * 60) 10 50.

(** What a conversation key holds, as [loadConversation] reads it from a
    store that answers. *)
Definition stored (w : World) (conversationId : string)
    : option ConversationState :=
  match kv_data w !! getRedisKey conversationId with
  | Some (text, _) =>
      if truthy_string text then JSON.parse text ≫= state_of_json else None
  | None => None
  end.

(** The last [k] elements. *)
Definition lastn {A} (k : nat) (l : list A) : list A := drop (length l - k) l.

(** [n] appends, one after the other. *)
Fixpoint addMessages (this : MemoryManager) (conversationId : string)
    (msgs : list LLMMessage) : M unit :=
  match msgs with
  | [] => ret tt
  | m :: rest =>
      addMessage this conversationId m ;; addMessages this conversationId rest
  end.

(** ** lib/llm/config.ts: system prompt and retry *)

Definition newline : string := String (ascii_of_nat 10) EmptyString.

Definition generateSystemPrompt (memory : option string) : M string :=
  let* now := new_Date in
  let formattedDate := localeDate now in
  let formattedTime := localeTime now in
  let systemPrompt :=
    "You are a helpful AI assistant. The current time is " +:+ formattedTime
    +:+ " on " +:+ formattedDate +:+ "." in
  let systemPrompt :=
    systemPrompt
    +:+ " You have access to the internet and can search for current information when needed." in
  let systemPrompt :=
    match memory with
    | Some m =>
        if truthy_string m && truthy_string (trim m) then
          systemPrompt +:+ newline +:+ newline
          +:+ "Here's a summary of our previous conversation that may be relevant to this interaction:"
          +:+ newline +:+ m
        else systemPrompt
    | None => systemPrompt
    end in
  ret systemPrompt.

(** The [for] loop of [withRetry] with [n] iterations left. *)
Fixpoint withRetry_loop {T} (fn : M T) (baseDelay : Z) (n : nat) (attempt : Z)
    (lastError : option Error) : M T :=
  match n with
  | O =>
      throw (match lastError with
             | Some e => e
             | None => mkError "All retry attempts failed"
             end)
  | S n' =>
      try_catch fn
        (λ error,
           let delay := baseDelay * 2 ^ attempt in
           sleep delay ;;
           withRetry_loop fn baseDelay n' (attempt + 1) (Some error))
  end.

Definition withRetry {T} (fn : M T) (maxRetries : Z) (baseDelay : Z) : M T :=
  withRetry_loop fn baseDelay (Z.to_nat maxRetries) 0 None.

Definition withRetry_default {T} (fn : M T) : M T := withRetry fn 3 1000.

(** ** Mock functions (jest.fn) of tests/integration/llm-integration.test.ts

    A mock records each call and answers its [i]-th call with [impl i]. *)
Definition jest_fn {A} (mock : nat) (impl : nat → Result A) : M A :=
  λ w, let i := length (filter (λ k, k = mock) (calls w)) in
       (impl i, set_calls (calls w ++ [mock]) w).

Definition mockResolvedValue {A} (mock : nat) (v : A) : M A :=
  jest_fn mock (λ _, Ok v).
Definition mockRejectedValue {A} (mock : nat) (e : Error) : M A :=
  jest_fn mock (λ _, Throw e).

(** How often mock [mock] was called. *)
Definition times_called (mock : nat) (w : World) : nat :=
  length (filter (λ k, k = mock) (calls w)).

(** ** Dynamic values of a vendor's reply *)

Definition truthy (v : option json) : bool :=
  match v with
  | None | Some JNull => false
  | Some (JBool b) => b
  | Some (JNum n) => negb (n =? 0)
  | Some (JStr s) => truthy_string s
  | Some (JArr _) | Some (JObj _) => true
  end.

(** [v.key] for a key that is neither [length] nor an index; [v] is
    neither [null] nor [undefined]. *)
Definition js_get (v : json) (key : string) : option json :=
  match v with
  | JObj ms => get_field key ms
  | _ => None
  end.

(** [v.key], which throws a TypeError on [null] and [undefined]. *)
Definition member (v : option json) (key : string) : Result (option json) :=
  match v with
  | None | Some JNull => Throw (mkError "TypeError: cannot read properties")
  | Some j => Ok (js_get j key)
  end.

(** [v.length] and [v[0]] of a value that is neither [null] nor
    [undefined]. *)
Definition js_length (v : json) : option json :=
  match v with
  | JArr l => Some (JNum (len l))
  | JStr s => Some (JNum (Z.of_nat (String.length s)))
  | JObj ms => get_field "length" ms
  | _ => None
  end.

(** [v === 0]. *)
Definition is_zero (v : option json) : bool :=
  match v with
  | Some (JNum n) => n =? 0
  | _ => false
  end.

Definition js_index0 (v : json) : option json :=
  match v with
  | JArr (x :: _) => Some x
  | JStr (String c _) => Some (JStr (String c EmptyString))
  | JObj ms => get_field "0" ms
  | _ => None
  end.

(** A value where TypeScript expects a string: a string is itself, and
    anything else (the vendor broke the typing) reads as JavaScript's
    string conversion writes it. *)
Fixpoint js_to_string (j : json) : string :=
  match j with
  | JNull => "null"
  | JBool true => "true"
  | JBool false => "false"
  | JNum n => string_of_list_ascii (JSON.print_Z n)
  | JStr s => s
  | JArr l =>
      join "," ((fix elems (l : list json) : list string :=
                   match l with
                   | [] => []
                   | JNull :: l' => EmptyString :: elems l'
                   | x :: l' => js_to_string x :: elems l'
                   end) l)
  | JObj _ => "[object Object]"
  end.

Definition as_string (v : option json) : string :=
  match v with
  | None => "undefined"
  | Some j => js_to_string j
  end.

(** ** lib/search/searxng.ts, as far as a provider's calls reach it

    What [searchSearXNG] gets back is an input of the model, already in
    the shape [SearchResult]; [None] is a failed request. *)
Definition searchSearXNG (query : string) (maxResults : Z) : M (list SearchResult) :=
  try_catch
    (new_Date ;;
     let* reply :=
       (λ w, match search_net w with
             | Some rs :: rest => (Ok rs, set_search_net rest w)
             | None :: rest =>
                 (Throw (mkError "search request failed"), set_search_net rest w)
             | [] => (Throw (mkError "search request failed"), w)
             end) in
     ret (take (Z.to_nat maxResults) reply))
    (λ _, ret []).

Definition quoted (s : string) : string :=
  String JSON.dquote s +:+ String JSON.dquote EmptyString.

Definition decimal (n : Z) : string := string_of_list_ascii (JSON.print_Z n).

Fixpoint search_entries (index : Z) (results : list SearchResult) : list string :=
  match results with
  | [] => []
  | result :: rest =>
      let entry :=
        "[" +:+ decimal (index + 1) +:+ "] " +:+ quoted (sr_title result)
        +:+ ": " +:+ sr_snippet result in
      let entry :=
        if truthy_string (sr_date result)
        then entry +:+ " (Published: " +:+ sr_date result +:+ ")"
        else entry in
      let entry := entry +:+ " Source: " +:+ sr_link result in
      entry :: search_entries (index + 1) rest
  end.

Definition summarizeSearchResults (results : list SearchResult) : string :=
  match results with
  | [] => "No search results found."
  | _ => join (newline +:+ newline) (search_entries 0 results)
  end.

(** ** Providers (lib/llm/providers/*.ts) *)

Definition Stream : Type := list LLMResponseChunk * option Error.

(** An async generator run to its end: the chunks it yielded, and the
    error it threw if it did not complete.  The effects of the generator
    all come before those of its consumer. *)
Definition AsyncGenerator : Type := World → Stream * World.

Record LLMProvider := mkProvider {
  generateResponse : LLMRequestOptions → M string;
  generateStreamingResponse : LLMRequestOptions → AsyncGenerator;
  searchInternet : string → M string
}.

(** The body of an [async function*]: what it has yielded so far goes
    with its result. *)
Definition G (A : Type) : Type := World → (list LLMResponseChunk * Result A) * World.

Definition g_ret {A} (a : A) : G A := λ w, (([], Ok a), w).
Definition g_throw {A} (e : Error) : G A := λ w, (([], Throw e), w).
Definition g_yield (c : LLMResponseChunk) : G unit := λ w, (([c], Ok tt), w).
Definition g_lift {A} (m : M A) : G A :=
  λ w, let '(r, w') := m w in (([], r), w').
Definition g_result {A} (r : Result A) : G A := λ w, (([], r), w).
Definition g_bind {A B} (g : G A) (k : A → G B) : G B :=
  λ w, match g w with
       | ((cs, Ok a), w') =>
           let '((cs', r), w'') := k a w' in ((cs ++ cs', r), w'')
       | ((cs, Throw e), w') => ((cs, Throw e), w')
       end.
Definition g_try_catch {A} (body : G A) (handler : Error → G A) : G A :=
  λ w, match body w with
       | ((cs, Ok a), w') => ((cs, Ok a), w')
       | ((cs, Throw e), w') =>
           let '((cs', r), w'') := handler e w' in ((cs ++ cs', r), w'')
       end.

Declare Scope gen_scope.
Delimit Scope gen_scope with gen.
Notation "'let*' x := m 'in' k" := (g_bind m (λ x, k))
  (at level 10, x name, m at level 100, k at level 200) : gen_scope.
Notation "m ;; k" := (g_bind m (λ _, k))
  (at level 100, k at level 200, right associativity) : gen_scope.

Definition run_generator (g : G unit) : AsyncGenerator :=
  λ w, let '((cs, r), w') := g w in
       ((cs, match r with Ok _ => None | Throw e => Some e end), w').

(** Whether the loop over the frames goes on, or the generator returned. *)
Inductive Flow := Continue | Return.

Fixpoint frames_loop (frame : string → G Flow) (frames : list string) : G Flow :=
  match frames with
  | [] => g_ret Continue
  | f :: rest =>
      (let* flow := frame f in
       match flow with
       | Return => g_ret Return
       | Continue => frames_loop frame rest
       end)%gen
  end.

(** [for await (const chunk of response.data)].  A stream gives its frames
    and then ends or breaks.  Of a JSON body, an array or a string can be
    iterated, but [TextDecoder.decode] refuses each element inside the
    loop's [try]; nothing else can be iterated at all. *)
Definition for_await_frames (data : ResponseData) (frame : string → G Flow)
    : G Flow :=
  match data with
  | DataStream frames broken =>
      (let* flow := frames_loop frame frames in
       match flow, broken with
       | Return, _ => g_ret Return
       | Continue, Some e => g_throw e
       | Continue, None => g_ret Continue
       end)%gen
  | DataJson (Some (JArr _)) | DataJson (Some (JStr _)) => g_ret Continue
  | DataJson _ => g_throw (mkError "TypeError: response.data is not async iterable")
  end.

Definition axios_post (url : string) (stream : bool) : M ResponseData :=
  λ w, match net w with
       | NetOk data :: rest => (Ok data, set_net rest w)
       | NetFail e :: rest => (Throw e, set_net rest w)
       | [] => (Throw (mkError "network error"), w)
       end.

Definition STREAM_APOLOGY : string :=
  "Sorry, I encountered an error while processing your streaming request. Please try again later.".
Definition APOLOGY : string :=
  "Sorry, I encountered an error while processing your request. Please try again later.".

Definition done_marker : LLMResponseChunk := mkChunk EmptyString true.
Definition error_chunk : LLMResponseChunk := mkChunk STREAM_APOLOGY true.

Definition streaming (options : LLMRequestOptions) : LLMRequestOptions :=
  mkRequest (req_systemPrompt options) (req_messages options)
            (req_temperature options) (req_maxTokens options) true
            (req_useSearch options).

(** What all three [searchInternet] methods do. *)
Definition provider_searchInternet (query : string) : M string :=
  try_catch
    (let* results := searchSearXNG query 5 in
     ret (summarizeSearchResults results))
    (λ _, ret "Unable to search the internet at the moment.").

(** [makeRequest], by its effects.  The payload it builds (the vendor's
    rendering of system prompt, messages and search results) does not
    decide what the endpoint answers here: the reply is an input of the
    model.  What is kept is what can fail and what reads the world: the
    system prompt made when the options bring none (it reads the clock),
    the search (with the clock [optimizeSearchQuery] reads for the year),
    which is caught, and the post, which is not. *)
Definition search_step (options : LLMRequestOptions) : M unit :=
  match last (req_messages options) with
  | Some lastMessage =>
      if req_useSearch options && bool_decide (role lastMessage = user) then
        new_Date ;;
        try_catch
          (provider_searchInternet (content lastMessage) ;; ret tt)
          (λ _, ret tt)
      else ret tt
  | None => ret tt
  end.

(** [systemPrompt || generateSystemPrompt()]. *)
Definition enhanced_prompt (options : LLMRequestOptions) : M string :=
  if truthy_opt_string (req_systemPrompt options)
  then ret (default EmptyString (req_systemPrompt options))
  else generateSystemPrompt None.

Definition makeRequest (url : string) (options : LLMRequestOptions)
    : M ResponseData :=
  enhanced_prompt options ;;
  search_step options ;; axios_post url (req_streamCallback options).

(** The first [n] requests from now on are all refused. *)
Fixpoint all_fail (n : nat) (replies : list NetReply) : bool :=
  match n, replies with
  | O, _ => true
  | S _, [] => true
  | S _, NetOk _ :: _ => false
  | S n', NetFail _ :: rest => all_fail n' rest
  end.

(** The [async *generateStreamingResponse] that the three providers
    share word for word, but for the endpoint and the way one frame is
    read. *)
Definition stream_response (url : string) (frame : string → G Flow)
    (options : LLMRequestOptions) : AsyncGenerator :=
  run_generator
    (g_try_catch
       (let* response :=
          g_lift (withRetry_default (makeRequest url (streaming options))) in
        let* flow := for_await_frames response frame in
        match flow with
        | Return => g_ret tt
        | Continue => g_yield done_marker
        end)
       (λ error, g_yield error_chunk))%gen.

Definition not_done (c : LLMResponseChunk) : Prop := chunk_done c = false.

Module CohereProvider.

Definition baseUrl : string := "https://api.cohere.ai/v1".

Definition generateResponse (options : LLMRequestOptions) : M string :=
  try_catch
    (let* response :=
       withRetry_default (makeRequest (baseUrl +:+ "/chat") options) in
     match response with
     | DataJson data =>
         match member data "text" with
         | Ok text =>
             if negb (truthy data) || negb (truthy text)
             then throw (mkError "Invalid response format from Cohere API")
             else ret (as_string text)
         | Throw _ => throw (mkError "Invalid response format from Cohere API")
         end
     | DataStream _ _ => throw (mkError "Invalid response format from Cohere API")
     end)
    (λ _, ret APOLOGY).

(** The regular expression of the fallback: a quoted key text, a colon
    with optional white space on both sides, then a quoted run of one or
    more characters that are not quotes.  [match_text] is its group 1 at
    the leftmost place where it matches. *)
Fixpoint take_unquoted (l : list ascii) : list ascii * list ascii :=
  match l with
  | c :: l' =>
      if Ascii.eqb c JSON.dquote then ([], l)
      else let '(a, r) := take_unquoted l' in (c :: a, r)
  | [] => ([], [])
  end.

Definition match_here (l : list ascii) : option string :=
  r ← JSON.strip_prefix (JSON.dquote :: list_ascii_of_string "text" ++ [JSON.dquote]) l;
  r ← JSON.strip_prefix [":"%char] (trim_start r);
  r ← JSON.strip_prefix [JSON.dquote] (trim_start r);
  let '(group, r) := take_unquoted r in
  match group, r with
  | _ :: _, _ :: _ => Some (string_of_list_ascii group)
  | _, _ => None
  end.

Fixpoint match_text (l : list ascii) : option string :=
  match match_here l with
  | Some g => Some g
  | None => match l with _ :: l' => match_text l' | [] => None end
  end.

Definition frame (chunk : string) : G Flow :=
  g_try_catch
    (let text := trim chunk in
     if negb (truthy_string text) then g_ret Continue
     else
       g_try_catch
         (let* json :=
            match JSON.parse text with
            | Some j => g_ret j
            | None => g_throw (mkError "SyntaxError")
            end in
          let* event_type := g_result (member (Some json) "event_type") in
          match event_type with
          | Some (JStr e) =>
              if String.eqb e "text-generation" then
                let text := js_get json "text" in
                g_yield (mkChunk (if truthy text then as_string text else EmptyString) false) ;;
                g_ret Continue
              else if String.eqb e "stream-end" then
                g_yield done_marker ;; g_ret Return
              else g_ret Continue
          | _ => g_ret Continue
          end)
         (λ parseError,
            match match_text (list_ascii_of_string text) with
            | Some group => g_yield (mkChunk group false) ;; g_ret Continue
            | None => g_ret Continue
            end))%gen
    (λ err, g_ret Continue).

Definition generateStreamingResponse : LLMRequestOptions → AsyncGenerator :=
  stream_response (baseUrl +:+ "/chat") frame.

Definition new : LLMProvider :=
  mkProvider generateResponse generateStreamingResponse provider_searchInternet.

(** The conversation as [makeRequest] hands it to the endpoint (lines
    61-73 and 80-85 of cohere.ts): the loop that sorts the messages into
    the preamble and the chat history, and the [message] and
    [chat_history] properties of the body. *)
Fixpoint convert_messages (messages : list LLMMessage) (preamble : string)
    (chatHistory : list (Role * string)) : string * list (Role * string) :=
  match messages with
  | [] => (preamble, chatHistory)
  | msg :: rest =>
      if decide (role msg = system)
      then convert_messages rest (preamble +:+ newline +:+ content msg) chatHistory
      else convert_messages rest preamble (chatHistory ++ [(role msg, content msg)])
  end.

Definition body_message (messages : list LLMMessage) : string :=
  match last messages with
  | Some lastMessage =>
      if decide (role lastMessage = user) then content lastMessage else EmptyString
  | None => EmptyString
  end.

(** [chatHistory.length > 1 ? chatHistory.slice(0, -1) : []]. *)
Definition body_chat_history (chatHistory : list (Role * string))
    : list (Role * string) :=
  if 1 <? len chatHistory
  then take (length chatHistory - 1) chatHistory
  else [].

End CohereProvider.

(** [OpenRouterProvider] and [GLHFProvider] are the same code up to the
    endpoint, the headers and the vendor's name in their messages. *)
Module OpenAIStyle.

Definition starts_with (p s : string) : bool :=
  match JSON.strip_prefix (list_ascii_of_string p) (list_ascii_of_string s) with
  | Some _ => true
  | None => false
  end.

Definition is_newline (c : ascii) : bool := (N_of_ascii c =? 10)%N.

Definition generateResponse (url vendor : string) (options : LLMRequestOptions)
    : M string :=
  let invalid :=
    mkError ("Invalid response format from " +:+ vendor +:+ " API") in
  try_catch
    (let* response := withRetry_default (makeRequest url options) in
     match response with
     | DataJson data =>
         if negb (truthy data) then throw invalid
         else
           match member data "choices" with
           | Ok (Some choices) =>
               if negb (truthy (Some choices))
                  || is_zero (js_length choices)
               then throw invalid
               else
                 match member (js_index0 choices) "message" with
                 | Ok message =>
                     match member message "content" with
                     | Ok text => ret (as_string text)
                     | Throw e => throw e
                     end
                 | Throw e => throw e
                 end
           | Ok None => throw invalid
           | Throw e => throw e
           end
     | DataStream _ _ => throw invalid
     end)
    (λ _, ret APOLOGY).

(** One line of a frame, once parsed: the delta it carries, if any. *)
Definition yield_delta (json : json) : G unit :=
  (let* choices := g_result (member (Some json) "choices") in
   if truthy choices then
     let* delta := g_result (member (choices ≫= js_index0) "delta") in
     if truthy delta then
       let* text := g_result (member delta "content") in
       if truthy text then g_yield (mkChunk (as_string text) false)
       else g_ret tt
     else g_ret tt
   else g_ret tt)%gen.

Fixpoint lines_loop (lines : list string) : G Flow :=
  match lines with
  | [] => g_ret Continue
  | line :: rest =>
      let jsonStr := string_of_list_ascii (drop 6 (list_ascii_of_string line)) in
      if String.eqb jsonStr "[DONE]" then (g_yield done_marker ;; g_ret Return)%gen
      else
        (let* json :=
           match JSON.parse jsonStr with
           | Some j => g_ret j
           | None => g_throw (mkError "SyntaxError")
           end in
         yield_delta json ;;
         lines_loop rest)%gen
  end.

Definition frame (chunk : string) : G Flow :=
  g_try_catch
    (let text := trim chunk in
     if negb (truthy_string text) || String.eqb text "data: [DONE]"
     then g_ret Continue
     else
       let lines :=
         filter (λ line, truthy_string (trim line) = true
                         ∧ starts_with "data: " line = true)
                (split is_newline text) in
       lines_loop lines)
    (λ err, g_ret Continue).

Definition generateStreamingResponse (url : string)
    : LLMRequestOptions → AsyncGenerator :=
  stream_response url frame.

End OpenAIStyle.

Module OpenRouterProvider.
Definition url : string := "https://openrouter.ai/api/v1/chat/completions".
Definition generateResponse := OpenAIStyle.generateResponse url "OpenRouter".
Definition generateStreamingResponse := OpenAIStyle.generateStreamingResponse url.
Definition new : LLMProvider :=
  mkProvider generateResponse generateStreamingResponse provider_searchInternet.
End OpenRouterProvider.

Module GLHFProvider.
Definition url : string := "https://api.glhf.ai/v1/chat/completions".
Definition generateResponse := OpenAIStyle.generateResponse url "GLHF".
Definition generateStreamingResponse := OpenAIStyle.generateStreamingResponse url.
Definition new : LLMProvider :=
  mkProvider generateResponse generateStreamingResponse provider_searchInternet.
End GLHFProvider.

(** ** lib/env.ts *)
Module env.

(** The provider keys of [env]: each is the variable's text, or the empty
    string when the variable is not set. *)
Record t := mkEnv {
  GROQ_API_KEY : string;
  GLHF_API_KEY : string;
  OPENROUTER_API_KEY : string;
  COHERE_API_KEY : string
}.

Definition getAvailableProviders (this : t) : list string :=
  let providers := [] in
  let providers :=
    if truthy_string (GROQ_API_KEY this) then providers ++ ["groq"] else providers in
  let providers :=
    if truthy_string (GLHF_API_KEY this) then providers ++ ["glhf"] else providers in
  let providers :=
    if truthy_string (OPENROUTER_API_KEY this) then providers ++ ["openrouter"]
    else providers in
  let providers :=
    if truthy_string (COHERE_API_KEY this) then providers ++ ["cohere"] else providers in
  providers.

End env.

(** ** lib/llm/factory.ts *)
Module LLMFactory.

Inductive ProviderClass :=
| GroqProvider | GLHFProvider | OpenRouterProvider | CohereProvider.

(** An object made by [new XProvider(model)]: which class, the argument
    it was constructed with, and which object it is. *)
Record Instance := mkInstance {
  object_id : nat;
  class : ProviderClass;
  model_arg : option string
}.

(** [private static providers: Map<string, LLMProvider>], and the number
    of provider objects made so far. *)
Record State := mkFactory {
  providers : gmap string Instance;
  allocated : nat
}.

Definition initial : State := mkFactory ∅ 0.

Definition lower_char (c : ascii) : ascii :=
  let n := N_of_ascii c in
  if ((65 <=? n) && (n <=? 90))%N then ascii_of_N (n + 32) else c.

(** [String.prototype.toLowerCase], within ASCII. *)
Fixpoint toLowerCase (s : string) : string :=
  match s with
  | EmptyString => EmptyString
  | String c s' => String (lower_char c) (toLowerCase s')
  end.

(** The [switch] of [getProvider]. *)
Definition class_of (lowered : string) : option ProviderClass :=
  if String.eqb lowered "groq" then Some GroqProvider
  else if String.eqb lowered "glhf" then Some GLHFProvider
  else if String.eqb lowered "openrouter" then Some OpenRouterProvider
  else if String.eqb lowered "cohere" then Some CohereProvider
  else None.

Definition providerKey (provider : string) (model : option string) : string :=
  provider +:+ (if truthy_opt_string model then "-" +:+ default EmptyString model else EmptyString).

Definition getProvider (provider : string) (model : option string) (s : State)
    : Result Instance * State :=
  let providerKey := providerKey provider model in
  match providers s !! providerKey with
  | Some cached => (Ok cached, s)
  | None =>
      match class_of (toLowerCase provider) with
      | Some c =>
          let providerInstance := mkInstance (allocated s) c model in
          (Ok providerInstance,
           mkFactory (<[providerKey := providerInstance]> (providers s))
                     (S (allocated s)))
      | None => (Throw (mkError ("Unknown provider: " +:+ provider)), s)
      end
  end.

(** [getProvider] is only ever the writer of the cache: each entry is an
    object of its own, made before the next one. *)
Definition well_formed (s : State) : Prop :=
  (∀ k i, providers s !! k = Some i → (object_id i < allocated s)%nat)
  ∧ (∀ k1 k2 i1 i2, providers s !! k1 = Some i1 → providers s !! k2 = Some i2 →
                    object_id i1 = object_id i2 → k1 = k2).

Definition getAvailableProviders (e : env.t) : list string :=
  env.getAvailableProviders e.

Definition getDefaultProvider (e : env.t) (s : State)
    : Result (option Instance) * State :=
  let availableProviders := getAvailableProviders e in
  match availableProviders with
  | [] => (Ok None, s)
  | first :: _ =>
      match getProvider first None s with
      | (Ok providerInstance, s1) => (Ok (Some providerInstance), s1)
      | (Throw error, s1) => (Throw error, s1)
      end
  end.

(** [providers.map(name => this.getProvider(name))]: the calls are made
    in order, and a call that throws ends the map. *)
Fixpoint map_getProvider (names : list string) (s : State)
    : Result (list Instance) * State :=
  match names with
  | [] => (Ok [], s)
  | name :: rest =>
      match getProvider name None s with
      | (Ok providerInstance, s1) =>
          match map_getProvider rest s1 with
          | (Ok instances, s2) => (Ok (providerInstance :: instances), s2)
          | (Throw error, s2) => (Throw error, s2)
          end
      | (Throw error, s1) => (Throw error, s1)
      end
  end.

Definition createFallbackChain (providerNames : option (list string))
    (e : env.t) (s : State) : Result (list Instance) * State :=
  let providers :=
    match providerNames with
    | Some names => names
    | None => getAvailableProviders e
    end in
  map_getProvider providers s.

End LLMFactory.

(** ** lib/llm/client.ts *)
Module LLMClient.

Record t := mkClient {
  provider : LLMProvider;
  conversationId : string;
  fallbackProviders : list LLMProvider
}.

Record Options := mkOptions {
  systemPrompt : option string;
  temperature : option Z;
  maxTokens : option Z;
  useMemory : option bool;   (* = true *)
  useSearch : option bool    (* = false *)
}.

Definition no_options : Options := mkOptions None None None None None.

Definition remember (use : bool) (conversationId : string) (m : LLMMessage)
    : M unit :=
  if use then addMessage memoryManager conversationId m ;; ret tt else ret tt.

(** Lines 80-103 and 184-206: history, the user's turn, the system
    prompt. *)
Definition prepare (this : t) (prompt : string) (options : Options)
    : M LLMRequestOptions :=
  let use := default true (useMemory options) in
  let* loaded :=
    if use then loadConversation memoryManager (conversationId this)
    else ret None in
  let messages := match loaded with Some c => messages c | None => [] end in
  let memoryContext := loaded ≫= summary in
  let userMessage := mkMessage user prompt None in
  let messages := messages ++ [userMessage] in
  remember use (conversationId this) userMessage ;;
  let* enhancedSystemPrompt :=
    if truthy_opt_string (systemPrompt options)
    then ret (default EmptyString (systemPrompt options))
    else generateSystemPrompt memoryContext in
  ret (mkRequest (Some enhancedSystemPrompt) messages (temperature options)
                 (maxTokens options) false (default false (useSearch options))).

(** [for (const fallbackProvider of this.fallbackProviders)]: the first
    one that answers, or nothing. *)
Fixpoint try_fallbacks (use : bool) (conversationId : string)
    (request : LLMRequestOptions) (ps : list LLMProvider) : M (option string) :=
  match ps with
  | [] => ret None
  | fallbackProvider :: rest =>
      let* answered :=
        try_catch
          (let* response := generateResponse fallbackProvider request in
           remember use conversationId (mkMessage assistant response None) ;;
           ret (Some response))
          (λ fallbackError, ret None) in
      match answered with
      | Some response => ret (Some response)
      | None => try_fallbacks use conversationId request rest
      end
  end.

Definition generateResponse (this : t) (prompt : string) (options : Options)
    : M string :=
  let use := default true (useMemory options) in
  try_catch
    (let* request := prepare this prompt options in
     try_catch
       (let* response := generateResponse (provider this) request in
        remember use (conversationId this) (mkMessage assistant response None) ;;
        ret response)
       (λ error,
          let* answered :=
            try_fallbacks use (conversationId this) request
                          (fallbackProviders this) in
          match answered with
          | Some response => ret response
          | None => throw error
          end))
    (λ error, ret APOLOGY).

(** The body of the [for await] loops: add to the buffer, tell the
    caller. *)
Fixpoint consume (onChunk : string → bool → M unit)
    (cs : list LLMResponseChunk) (fullResponse : string) : M string :=
  match cs with
  | [] => ret fullResponse
  | chunk :: rest =>
      let fullResponse := fullResponse +:+ chunk_content chunk in
      onChunk (chunk_content chunk) (chunk_done chunk) ;;
      consume onChunk rest fullResponse
  end.

Definition for_await (g : AsyncGenerator) (onChunk : string → bool → M unit)
    : M string :=
  λ w, let '((cs, thrown), w1) := g w in
       (let* fullResponse := consume onChunk cs EmptyString in
        match thrown with
        | Some e => throw e
        | None => ret fullResponse
        end) w1.

Fixpoint try_streaming_fallbacks (use : bool) (conversationId : string)
    (request : LLMRequestOptions) (onChunk : string → bool → M unit)
    (ps : list LLMProvider) : M (option string) :=
  match ps with
  | [] => ret None
  | fallbackProvider :: rest =>
      let* answered :=
        try_catch
          (let* fallbackResponse :=
             for_await (generateStreamingResponse fallbackProvider request)
                       onChunk in
           remember use conversationId
                    (mkMessage assistant fallbackResponse None) ;;
           ret (Some fallbackResponse))
          (λ fallbackError, ret None) in
      match answered with
      | Some response => ret (Some response)
      | None => try_streaming_fallbacks use conversationId request onChunk rest
      end
  end.

Definition generateStreamingResponse (this : t) (prompt : string)
    (options : Options) (onChunk : string → bool → M unit) : M string :=
  let use := default true (useMemory options) in
  try_catch
    (let* request := prepare this prompt options in
     try_catch
       (let* fullResponse :=
          for_await (generateStreamingResponse (provider this) request)
                    onChunk in
        remember use (conversationId this)
                 (mkMessage assistant fullResponse None) ;;
        ret fullResponse)
       (λ error,
          let* answered :=
            try_streaming_fallbacks use (conversationId this) request onChunk
                                    (fallbackProviders this) in
          match answered with
          | Some response => ret response
          | None => throw error
          end))
    (λ error,
       let errorMessage := STREAM_APOLOGY in
       onChunk errorMessage true ;; ret errorMessage).

Definition clearConversation (this : t) : M bool :=
  deleteConversation memoryManager (conversationId this).

(** The constructor, with the provider objects by identity.  [randomId]
    is what [generateRandomId] gives when it is called. *)
Record Config := mkConfig {
  cfg_provider : option string;
  cfg_model : option string;
  cfg_conversationId : option string;
  cfg_useFallbacks : option bool   (* = true *)
}.

Record Fields := mkFields {
  this_provider : LLMFactory.Instance;
  this_conversationId : string;
  this_fallbackProviders : list LLMFactory.Instance
}.

Definition constructor (options : Config) (e : env.t) (randomId : string)
    (s : LLMFactory.State) : Result Fields * LLMFactory.State :=
  let useFallbacks := default true (cfg_useFallbacks options) in
  let initialised :=
    if truthy_opt_string (cfg_provider options) then
      LLMFactory.getProvider (default EmptyString (cfg_provider options))
                             (cfg_model options) s
    else
      match LLMFactory.getDefaultProvider e s with
      | (Ok (Some defaultProvider), s1) => (Ok defaultProvider, s1)
      | (Ok None, s1) =>
          (Throw (mkError "No LLM providers available. Check API keys configuration."),
           s1)
      | (Throw error, s1) => (Throw error, s1)
      end in
  match initialised with
  | (Throw error, s1) => (Throw error, s1)
  | (Ok provider, s1) =>
      let conversationId :=
        if truthy_opt_string (cfg_conversationId options)
        then default EmptyString (cfg_conversationId options)
        else randomId in
      if useFallbacks then
        match LLMFactory.createFallbackChain None e s1 with
        | (Ok chain, s2) =>
            (Ok (mkFields provider conversationId
                   (filter (λ p, LLMFactory.object_id p
                                 ≠ LLMFactory.object_id provider) chain)),
             s2)
        | (Throw error, s2) => (Throw error, s2)
        end
      else (Ok (mkFields provider conversationId []), s1)
  end.

End LLMClient.

(** The [onChunk] of the streaming test: it keeps what it is given. *)
Definition record_chunk (chunk : string) (done : bool) : M unit :=
  λ w, (Ok tt, set_chunks (chunks w ++ [(chunk, done)]) w).

(** A mock [generateStreamingResponse] that yields the given chunks. *)
Definition mockStreamGenerator (mock : nat) (cs : list LLMResponseChunk)
    : AsyncGenerator :=
  λ w, ((cs, None), set_calls (calls w ++ [mock]) w).

(** The mock providers of the tests.  A method that a test does not
    script is a bare [jest.fn()], which returns [undefined]: iterating
    that throws.  [searchInternet] plays no part in these tests. *)
Definition unscripted_stream (mock : nat) : AsyncGenerator :=
  λ w, (([], Some (mkError "TypeError: undefined is not async iterable")),
        set_calls (calls w ++ [mock]) w).

Definition mock_provider (generate : LLMRequestOptions → M string)
    (stream : LLMRequestOptions → AsyncGenerator) : LLMProvider :=
  mkProvider generate stream (λ _, ret EmptyString).

(** ** Vocabulary of the properties *)

(** [m] never rejects. *)
Definition resolves {A} (m : M A) : Prop := ∀ w, ∃ a w', m w = (Ok a, w').

(** A provider whose [generateResponse] rejects, whatever it is asked and
    whenever. *)
Definition always_rejects (p : LLMProvider) : Prop :=
  ∀ request w, ∃ e w', generateResponse p request w = (Throw e, w').

Definition down (mock : nat) : LLMProvider :=
  mock_provider (λ _, mockRejectedValue mock (mkError "down"))
                (λ _, unscripted_stream mock).

(** A part of the world that the store and the clock do not touch. *)
Class Untouched {X} (f : World → X) := {
  untouched_kv_data : ∀ g w, f (set_kv_data g w) = f w;
  untouched_kv_faults : ∀ fs w, f (set_kv_faults fs w) = f w;
  untouched_clock : ∀ ds w, f (set_clock ds w) = f w;
  untouched_search_net : ∀ rs w, f (set_search_net rs w) = f w
}.

(** [m] leaves the part [f] of the world as it was. *)
Definition keeps {A X} (f : World → X) (m : M A) : Prop := ∀ w, f (m w).2 = f w.

(** The provider classes whose source is at hand. *)
Definition implementations : list LLMProvider :=
  [CohereProvider.new; OpenRouterProvider.new; GLHFProvider.new].

(** What the reading of frames yields: no chunk is flagged done, except
    that a generator which returns has just yielded the done marker. *)
Definition flagged (may_throw : bool) (g : G Flow) : Prop :=
  ∀ w, match (g w).1 with
       | (cs, Ok Return) => ∃ init, cs = init ++ [done_marker] ∧ Forall not_done init
       | (cs, Ok Continue) => Forall not_done cs
       | (cs, Throw _) => Forall not_done cs ∧ may_throw = true
       end.

(** What [Date.now()] reads next, and the world once it has read. *)
Definition now_of (w : World) : Z :=
  match clock w with d :: _ => epoch_ms d | [] => 0 end.
Definition tick (w : World) : World :=
  match clock w with _ :: ds => set_clock ds w | [] => w end.

(** The record as [saveConversation] leaves it in the caller's hands. *)
Definition stamped (c : ConversationState) (now : Z) : ConversationState :=
  mkState (messages c) (summary c) (createdAt c) now.

Definition saved_world (this : MemoryManager) (id : string)
    (c : ConversationState) (w : World) : World :=
  set_kv_data
    (insert (getRedisKey id)
            (JSON.stringify (state_to_json (stamped c (now_of w))),
             MEMORY_EXPIRY_SECONDS this))
    (tick w).

(** The conversation an append starts from: what is stored, or a new
    one. *)
Definition prior_messages (o : option ConversationState) : list LLMMessage :=
  match o with Some c => messages c | None => [] end.

(** The conversation's key holds nothing, or a document of the type
    [ConversationState], as [saveConversation] writes them.  These are
    the stores on which the cast in [loadConversation] is sound, and the
    typed reading above is what the code has in hand. *)
Definition typed_store (w : World) (conversationId : string) : Prop :=
  kv_data w !! getRedisKey conversationId = None
  ∨ is_Some (stored w conversationId).

(** What is kept of a history [all] that grew message by message under a
    maximum of [cap].  When the history is longer than the maximum by
    [k] messages and one of its [k] oldest messages is a system message,
    the first of these is kept, followed by the [cap - 1] most recent
    messages; otherwise the [cap] most recent messages are kept. *)
Definition kept (cap : nat) (all : list LLMMessage) : list LLMMessage :=
  match head (filter (λ m, role m = system) (take (length all - cap) all)) with
  | Some p => p :: lastn (cap - 1) all
  | None => lastn cap all
  end.

(** Messages whose contents are the numbers from 1 to [n]. *)
Definition numbered (r : Role) (n : nat) : list LLMMessage :=
  (λ i, mkMessage r (decimal (Z.of_nat i)) None) <$> seq 1 n.

(** Where the record of a new conversation stands after the messages
    [done]. *)
Definition summary_state (threshold : nat) (done : list LLMMessage)
    (c : ConversationState) : Prop :=
  ((length done < threshold)%nat ∧ messages c = done ∧ summary c = None)
  ∨ ((threshold ≤ length done)%nat
     ∧ summary c = Some (generateConversationSummary (take threshold done))).

(** ** More vocabulary: the store, the registry, the providers *)

(** Whether the store refuses its next command. *)
Definition refusing (w : World) : bool :=
  match kv_faults w with true :: _ => true | _ => false end.

(** A user message that gives the summary a sentence. *)
Definition has_topic (m : LLMMessage) : Prop :=
  role m = user ∧ truthy_string (first_sentence (content m)) = true.

#[global] Instance has_topic_dec m : Decision (has_topic m).
Proof. unfold has_topic. apply _. Defined.

(** The registry after a run of [getProvider] calls, whatever they
    returned. *)
Fixpoint after_calls (requests : list (string * option string))
    (s : LLMFactory.State) : LLMFactory.State :=
  match requests with
  | [] => s
  | (provider, model) :: rest =>
      after_calls rest (LLMFactory.getProvider provider model s).2
  end.

(** The objects that the registry holds under the given keys. *)
Definition cached_as (s : LLMFactory.State) (keys : list string)
    (objects : list LLMFactory.Instance) : Prop :=
  Forall2 (λ key object, LLMFactory.providers s !! key = Some object) keys objects.

(** A part of the world that a provider's request does not touch: what
    the endpoint, the search backend, the clock and the timer are not. *)
Class Unreached {X} (f : World → X) := {
  unreached_by_net : ∀ rs w, f (set_net rs w) = f w;
  unreached_by_slept : ∀ ds w, f (set_slept ds w) = f w;
  unreached_by_clock : ∀ ds w, f (set_clock ds w) = f w;
  unreached_by_search : ∀ rs w, f (set_search_net rs w) = f w
}.

(** The turns of a conversation: its messages other than system
    messages, as role and text. *)
Definition turns (messages : list LLMMessage) : list (Role * string) :=
  (λ msg, (role msg, content msg)) <$> filter (λ msg, role msg ≠ system) messages.

(** What [onChunk] is given for a chunk. *)
Definition delivered (cs : list LLMResponseChunk) : list (string * bool) :=
  (λ c, (chunk_content c, chunk_done c)) <$> cs.

(** The text of a run of chunks. *)
Definition text_of (cs : list LLMResponseChunk) : string :=
  foldr (λ c text, chunk_content c +:+ text) EmptyString cs.

(** A step of a generator that leaves the world alone. *)
Definition still {A} (g : G A) : Prop := ∀ w, (g w).2 = w.

(** Frames of Cohere's stream, by the event they parse to. *)
Definition text_generation (frame text : string) : Prop :=
  ∃ event, JSON.parse (trim frame) = Some event
           ∧ js_get event "event_type" = Some (JStr "text-generation")
           ∧ js_get event "text" = Some (JStr text).

Definition stream_end (frame : string) : Prop :=
  ∃ event, JSON.parse (trim frame) = Some event
           ∧ js_get event "event_type" = Some (JStr "stream-end").

(* ------------------------------------------------------------------ *)
(** * Properties *)

(** ** JSON text: parsing what was printed *)
Module JSONFacts.
Import JSON.
Local Open Scope char_scope.

Lemma json_ind' (P : json → Prop) :
  P JNull → (∀ b, P (JBool b)) → (∀ n, P (JNum n)) → (∀ s, P (JStr s)) →
  (∀ l, Forall P l → P (JArr l)) →
  (∀ ms, Forall (λ kv, P kv.2) ms → P (JObj ms)) →
  ∀ j, P j.
Proof.
  intros Hnull Hbool Hnum Hstr Harr Hobj.
  fix IH 1. intros [ | b | n | s | l | ms ].
  - exact Hnull.
  - apply Hbool.
  - apply Hnum.
  - apply Hstr.
  - apply Harr. induction l as [ | x l IHl ]; constructor; [ apply IH | exact IHl ].
  - apply Hobj. induction ms as [ | [k v] ms IHms ]; constructor;
      [ apply IH | exact IHms ].
Qed.

Lemma print_arr_cons x xs :
  print (JArr (x :: xs)) = "[" :: print x ++ print_elems xs.
Proof. reflexivity. Qed.

Lemma print_obj_cons k v ms :
  print (JObj ((k, v) :: ms))
  = "{" :: print_string k ++ ":" :: print v ++ print_members ms.
Proof. reflexivity. Qed.

(** *** Numbers *)

Lemma digits_of_uint_shape u :
  u = Decimal.Nil ∨ ∃ c l, digits_of_uint u = c :: l ∧ is_digit c.
Proof.
  destruct u; [ left; reflexivity | .. ]; right; eexists _, _;
    (split; [ reflexivity | unfold is_digit; simpl; tauto ]).
Qed.

Lemma ends_number_read_digits r :
  ends_number r = true → read_digits r = (Decimal.Nil, r).
Proof.
  destruct r as [ | c r ]; [ reflexivity | ]. simpl.
  destruct (digit_of_ascii c); [ discriminate | reflexivity ].
Qed.

Lemma read_digits_of_uint u r :
  ends_number r = true → read_digits (digits_of_uint u ++ r) = (u, r).
Proof.
  intros Hr. induction u; simpl; rewrite ?IHu; auto using ends_number_read_digits.
Qed.

Lemma unorm_D0 u v : Decimal.unorm u = Decimal.D0 v → v = Decimal.Nil.
Proof.
  induction u; cbn; intros H; try discriminate; auto.
  injection H as <-. reflexivity.
Qed.

Lemma to_uint_D0 n v : N.to_uint n = Decimal.D0 v → v = Decimal.Nil ∧ n = 0%N.
Proof.
  intros H.
  assert (Hv : v = Decimal.Nil).
  { pose proof (DecimalN.Unsigned.to_of (N.to_uint n)) as E.
    rewrite DecimalN.Unsigned.of_to, H in E.
    apply (unorm_D0 (Decimal.D0 v)). symmetry. exact E. }
  split; [ exact Hv | ]. subst v.
  rewrite <- (DecimalN.Unsigned.of_to n), H. reflexivity.
Qed.

Lemma to_uint_not_nil n : N.to_uint n ≠ Decimal.Nil.
Proof.
  intros H. pose proof (DecimalN.Unsigned.of_to n) as E. rewrite H in E.
  simpl in E. subst n. discriminate H.
Qed.

Lemma read_N_print_N n r :
  ends_number r = true → read_N (print_N n ++ r) = Some (n, r).
Proof.
  intros Hr. unfold read_N, print_N. rewrite read_digits_of_uint by exact Hr.
  rewrite Hr. pose proof (DecimalN.Unsigned.of_to n) as E.
  destruct (N.to_uint n) as [ | v | | | | | | | | | ] eqn:Hu;
    try (rewrite E; reflexivity).
  - exfalso. eapply to_uint_not_nil, Hu.
  - destruct (to_uint_D0 _ _ Hu) as [-> ->]. reflexivity.
Qed.

Lemma print_N_head n : ∃ c l, print_N n = c :: l ∧ is_digit c.
Proof.
  unfold print_N. destruct (digits_of_uint_shape (N.to_uint n)) as [H | H]; [ | exact H ].
  exfalso. eapply to_uint_not_nil, H.
Qed.

Ltac digit_cases H :=
  unfold is_digit in H; simpl in H;
  repeat (destruct H as [H | H]; [ subst | ]); [ .. | contradiction ].

Lemma read_Z_print_Z n r :
  ends_number r = true → read_Z (print_Z n ++ r) = Some (n, r).
Proof.
  intros Hr. unfold print_Z. destruct (Z.ltb_spec n 0) as [Hn | Hn].
  - simpl. rewrite read_N_print_N by exact Hr. simpl.
    rewrite Z2N.id by lia. f_equal. f_equal. lia.
  - pose proof (read_N_print_N (Z.to_N n) r Hr) as E.
    destruct (print_N_head (Z.to_N n)) as (c & l & Hc & Hd). rewrite Hc in *.
    assert (Hm : Ascii.eqb c "-" = false) by (digit_cases Hd; reflexivity).
    simpl. rewrite Hm. simpl in E. rewrite E. simpl. rewrite Z2N.id by lia. reflexivity.
Qed.

Lemma print_Z_head n :
  ∃ c l, print_Z n = c :: l ∧ In c (chars "-0123456789").
Proof.
  unfold print_Z. destruct (n <? 0)%Z.
  - eexists _, _. split; [ reflexivity | simpl; tauto ].
  - destruct (print_N_head (Z.to_N n)) as (c & l & Hc & Hd).
    exists c, l. split; [ exact Hc | right; exact Hd ].
Qed.

(** *** Strings *)

Lemma read_string_escape s r :
  read_string (escape s ++ dquote :: r) = Some (s, r).
Proof.
  induction s as [ | c s IH ]; [ reflexivity | ].
  cbn [escape]. rewrite <- app_assoc.
  remember (escape s ++ dquote :: r) as t eqn:Ht. clear Ht.
  destruct c as [[] [] [] [] [] [] [] []];
    match goal with
    | |- context [escape_char ?c] =>
        let v := eval vm_compute in (escape_char c) in
        change (escape_char c) with v
    end; cbn; rewrite IH; reflexivity.
Qed.

Lemma read_string_print_string s r :
  ∃ l, print_string s ++ r = dquote :: l
       ∧ read_string l = Some (list_ascii_of_string s, r).
Proof.
  unfold print_string. eexists. split.
  - simpl. rewrite <- app_assoc. reflexivity.
  - apply read_string_escape.
Qed.

(** *** Values *)

Lemma starts_value_spec c :
  starts_value c = true →
  is_ws c = false ∧ Ascii.eqb c "]" = false ∧ Ascii.eqb c "}" = false
  ∧ Ascii.eqb c "," = false.
Proof.
  destruct c as [[] [] [] [] [] [] [] []]; vm_compute; intros H;
    (discriminate H || (repeat split; reflexivity)).
Qed.

Lemma print_start j : ∃ c l, print j = c :: l ∧ starts_value c = true.
Proof.
  destruct j as [ | [] | n | s | [ | x xs] | [ | [k v] ms] ];
    try (eexists _, _; split; [ reflexivity | reflexivity ]).
  destruct (print_Z_head n) as (c & l & Hc & Hd). exists c, l. split; [ exact Hc | ].
  simpl in Hd. repeat (destruct Hd as [Hd | Hd]; [ subst; reflexivity | ]).
  contradiction.
Qed.

Lemma parse_value_arr f c r :
  starts_value c = true →
  parse_value (S f) ("[" :: c :: r)
  = '(x, r3) ← parse_value f (c :: r);
    '(xs, r4) ← parse_elems f r3;
    Some (JArr (x :: xs), r4).
Proof.
  destruct c as [[] [] [] [] [] [] [] []]; intros H;
    (discriminate H || reflexivity).
Qed.

Lemma parse_value_obj f r :
  parse_value (S f) ("{" :: dquote :: r)
  = '(k, r3) ← read_key (dquote :: r);
    '(v, r4) ← parse_value f r3;
    '(ms, r5) ← parse_members f r4;
    Some (JObj ((k, v) :: ms), r5).
Proof. reflexivity. Qed.

Lemma parse_value_str f r :
  parse_value (S f) (dquote :: r)
  = '(s, r1) ← read_string r; Some (JStr (string_of_list_ascii s), r1).
Proof. reflexivity. Qed.

Lemma parse_value_num f c r :
  In c (chars "-0123456789") →
  parse_value (S f) (c :: r) = '(n, r1) ← read_Z (c :: r); Some (JNum n, r1).
Proof.
  intros H. simpl in H.
  repeat (destruct H as [H | H]; [ subst; reflexivity | ]). contradiction.
Qed.

Lemma parse_elems_comma f r :
  parse_elems (S f) ("," :: r)
  = '(x, r1) ← parse_value f r; '(xs, r2) ← parse_elems f r1; Some (x :: xs, r2).
Proof. reflexivity. Qed.

Lemma parse_members_comma f r :
  parse_members (S f) ("," :: r)
  = '(k, r1) ← read_key r;
    '(v, r2) ← parse_value f r1;
    '(ms, r3) ← parse_members f r2;
    Some ((k, v) :: ms, r3).
Proof. reflexivity. Qed.

Lemma read_key_print k r :
  read_key (print_string k ++ ":" :: r) = Some (k, r).
Proof.
  destruct (read_string_print_string k (":" :: r)) as (l & -> & Hl).
  change (read_key (dquote :: l))
    with ('(s, r1) ← read_string l;
          match skip_ws r1 with
          | c1 :: r2 =>
              if Ascii.eqb c1 ":" then Some (string_of_list_ascii s, r2) else None
          | [] => None
          end).
  rewrite Hl. cbn. rewrite string_of_list_ascii_of_string. reflexivity.
Qed.

Lemma ends_number_elems xs r : ends_number (print_elems xs ++ r) = true.
Proof. destruct xs; reflexivity. Qed.

Lemma ends_number_members ms r : ends_number (print_members ms ++ r) = true.
Proof. destruct ms as [ | [] ]; reflexivity. Qed.

Lemma parse_elems_ok xs :
  Forall parse_ok xs →
  ∀ fuel r, (need_elems xs ≤ fuel)%nat →
            parse_elems fuel (print_elems xs ++ r) = Some (xs, r).
Proof.
  induction 1 as [ | y ys Hy _ IH ]; intros [ | f ] r Hf; simpl in Hf; try lia.
  - reflexivity.
  - cbn [print_elems]. rewrite <- app_comm_cons, <- app_assoc, parse_elems_comma.
    rewrite Hy by (lia || apply ends_number_elems). cbn.
    rewrite IH by lia. reflexivity.
Qed.

Lemma parse_members_ok ms :
  Forall (λ kv, parse_ok kv.2) ms →
  ∀ fuel r, (need_members ms ≤ fuel)%nat →
            parse_members fuel (print_members ms ++ r) = Some (ms, r).
Proof.
  induction 1 as [ | [k v] ms Hv _ IH ]; intros [ | f ] r Hf; simpl in Hf; try lia.
  - reflexivity.
  - simpl in Hv. cbn [print_members].
    rewrite <- app_comm_cons, <- app_assoc, parse_members_comma.
    rewrite <- app_comm_cons, <- app_assoc, read_key_print. cbn.
    rewrite Hv by (lia || apply ends_number_members). cbn.
    rewrite IH by lia. reflexivity.
Qed.

Lemma parse_value_print j : parse_ok j.
Proof.
  induction j as [ | b | n | s | l IH | ms IH ] using json_ind';
    intros fuel r Hf Hr.
  - destruct fuel as [ | f ]; [ simpl in Hf; lia | reflexivity ].
  - destruct fuel as [ | f ]; [ simpl in Hf; lia | destruct b; reflexivity ].
  - destruct fuel as [ | f ]; [ simpl in Hf; lia | ].
    pose proof (read_Z_print_Z n r Hr) as E.
    destruct (print_Z_head n) as (c & t & Hc & Hd). cbn [print]. rewrite Hc in *.
    rewrite <- app_comm_cons in *. rewrite parse_value_num by exact Hd.
    rewrite E. reflexivity.
  - destruct fuel as [ | f ]; [ simpl in Hf; lia | ].
    cbn [print].
    destruct (read_string_print_string s r) as (t & -> & Ht).
    rewrite parse_value_str, Ht. cbn.
    rewrite string_of_list_ascii_of_string. reflexivity.
  - destruct l as [ | x xs ].
    { destruct fuel as [ | f ]; [ simpl in Hf; lia | reflexivity ]. }
    inversion IH as [ | ? ? Hx Hxs ]; subst.
    change (need (JArr (x :: xs))) with (S (need x + need_elems xs)) in Hf.
    destruct fuel as [ | f ]; [ lia | ].
    rewrite print_arr_cons, <- app_comm_cons, <- app_assoc.
    destruct (print_start x) as (c & t & Hc & Hs).
    pose proof (Hx f (print_elems xs ++ r)) as Ex. rewrite Hc in *.
    rewrite <- app_comm_cons in *. rewrite parse_value_arr by exact Hs.
    rewrite Ex by (lia || apply ends_number_elems). cbn.
    rewrite (parse_elems_ok xs Hxs) by lia. reflexivity.
  - destruct ms as [ | [k v] ms ].
    { destruct fuel as [ | f ]; [ simpl in Hf; lia | reflexivity ]. }
    inversion IH as [ | ? ? Hv Hms ]; subst. simpl in Hv.
    change (need (JObj ((k, v) :: ms))) with (S (need v + need_members ms)) in Hf.
    destruct fuel as [ | f ]; [ lia | ].
    rewrite print_obj_cons, <- app_comm_cons.
    rewrite <- app_assoc, <- app_comm_cons, <- app_assoc.
    pose proof (read_key_print k (print v ++ print_members ms ++ r)) as Ek.
    unfold print_string in *. rewrite <- app_comm_cons in *.
    rewrite parse_value_obj, Ek. cbn.
    rewrite Hv by (lia || apply ends_number_members). cbn.
    rewrite (parse_members_ok ms Hms) by lia. reflexivity.
Qed.

Lemma need_elems_le xs :
  Forall need_le xs → (need_elems xs ≤ length (print_elems xs))%nat.
Proof.
  induction 1 as [ | y ys Hy _ IH ]; [ reflexivity | ].
  cbn [need_elems print_elems length]. rewrite length_app.
  unfold need_le in Hy. lia.
Qed.

Lemma need_members_le ms :
  Forall (λ kv, need_le kv.2) ms →
  (need_members ms ≤ length (print_members ms))%nat.
Proof.
  induction 1 as [ | [k v] ms Hv _ IH ]; [ reflexivity | ].
  cbn [need_members print_members length]. rewrite !length_app. cbn [length].
  rewrite length_app. unfold need_le in Hv. simpl in Hv. lia.
Qed.

Lemma need_le_print j : need_le j.
Proof.
  unfold need_le.
  induction j as [ | b | n | s | l IH | ms IH ] using json_ind'.
  - simpl. lia.
  - destruct b; simpl; lia.
  - destruct (print_Z_head n) as (c & t & Hc & _). cbn [need print].
    rewrite Hc. simpl. lia.
  - cbn [need print]. unfold print_string. simpl. lia.
  - destruct l as [ | x xs ]; [ simpl; lia | ].
    inversion IH as [ | ? ? Hx Hxs ]; subst.
    rewrite print_arr_cons.
    change (need (JArr (x :: xs))) with (S (need x + need_elems xs)).
    pose proof (need_elems_le xs Hxs).
    cbn [length]. rewrite length_app. lia.
  - destruct ms as [ | [k v] ms ]; [ simpl; lia | ].
    inversion IH as [ | ? ? Hv Hms ]; subst. simpl in Hv.
    rewrite print_obj_cons.
    change (need (JObj ((k, v) :: ms))) with (S (need v + need_members ms)).
    pose proof (need_members_le ms Hms).
    cbn [length]. rewrite !length_app. cbn [length]. rewrite length_app. lia.
Qed.

(** [JSON.parse (JSON.stringify v)] is [v]. *)
Lemma parse_stringify j : JSON.parse (JSON.stringify j) = Some j.
Proof.
  unfold JSON.parse, JSON.stringify.
  rewrite list_ascii_of_string_of_list_ascii.
  pose proof (parse_value_print j (S (length (print j))) []) as E.
  rewrite app_nil_r in E. rewrite E; [ reflexivity | | reflexivity ].
  pose proof (need_le_print j) as H. unfold need_le in H. lia.
Qed.

End JSONFacts.

Example parse_spaced :
  JSON.parse "[1, -20 , true,null, [ ] ]"
  = Some (JArr [JNum 1; JNum (-20); JBool true; JNull; JArr []]).
Proof. vm_compute. reflexivity. Qed.

Example parse_stringify_ex :
  let v := JObj [("a", JArr [JNum 1; JStr "x"]);
                 ("b", JStr (String (ascii_of_nat 10) (String JSON.dquote "y")))] in
  JSON.parse (JSON.stringify v) = Some v.
Proof. vm_compute. reflexivity. Qed.

Example parse_leading_zero : JSON.parse "01" = None.
Proof. vm_compute. reflexivity. Qed.

(** ** Promises that always resolve *)

Section Promises.
Context {A : Type}.

Lemma resolves_ret (a : A) : resolves (ret a).
Proof. intros w. eexists _, _. reflexivity. Qed.

Lemma resolves_try_catch (body : M A) handler :
  (∀ e, resolves (handler e)) → resolves (try_catch body handler).
Proof.
  intros H w. unfold try_catch. destruct (body w) as [[a | e] w'].
  - eexists _, _. reflexivity.
  - apply H.
Qed.

Lemma resolves_bind {B} (m : M B) (k : B → M A) :
  (∀ w, ∃ b w', m w = (Ok b, w')) → (∀ b, resolves (k b)) → resolves (bind m k).
Proof.
  intros Hm Hk w. unfold bind. destruct (Hm w) as (b & w' & ->). apply Hk.
Qed.
End Promises.

Lemma bind_ok {A B} (m : M A) (k : A → M B) w a w' :
  m w = (Ok a, w') → bind m k w = k a w'.
Proof. intros H. unfold bind. rewrite H. reflexivity. Qed.

Lemma bind_throw {A B} (m : M A) (k : A → M B) w e w' :
  m w = (Throw e, w') → bind m k w = (Throw e, w').
Proof. intros H. unfold bind. rewrite H. reflexivity. Qed.

Lemma try_catch_ok {A} (m : M A) h w a w' :
  m w = (Ok a, w') → try_catch m h w = (Ok a, w').
Proof. intros H. unfold try_catch. rewrite H. reflexivity. Qed.

Lemma try_catch_throw {A} (m : M A) h w e w' :
  m w = (Throw e, w') → try_catch m h w = h e w'.
Proof. intros H. unfold try_catch. rewrite H. reflexivity. Qed.

Lemma resolves_getAndParse key : resolves (getAndParse key).
Proof. apply resolves_try_catch. intros _. apply resolves_ret. Qed.

Lemma resolves_setWithExpiry key v ex : resolves (setWithExpiry key v ex).
Proof. apply resolves_try_catch. intros _. apply resolves_ret. Qed.

Lemma resolves_loadConversation this id : resolves (loadConversation this id).
Proof. apply resolves_try_catch. intros _. apply resolves_ret. Qed.

Lemma resolves_saveConversation this id c : resolves (saveConversation this id c).
Proof. apply resolves_try_catch. intros _. apply resolves_ret. Qed.

Lemma resolves_addMessage this id m : resolves (addMessage this id m).
Proof. apply resolves_try_catch. intros _. apply resolves_ret. Qed.

Lemma resolves_new_Date : resolves new_Date.
Proof. intros w. unfold new_Date. destruct (clock w); eexists _, _; reflexivity. Qed.

Lemma resolves_generateSystemPrompt memory : resolves (generateSystemPrompt memory).
Proof.
  apply resolves_bind; [ apply resolves_new_Date | intros d; apply resolves_ret ].
Qed.

Lemma resolves_remember use id m : resolves (LLMClient.remember use id m).
Proof.
  unfold LLMClient.remember. destruct use; [ | apply resolves_ret ].
  apply resolves_bind; [ apply resolves_addMessage | intros; apply resolves_ret ].
Qed.

Lemma resolves_prepare this prompt options :
  resolves (LLMClient.prepare this prompt options).
Proof.
  unfold LLMClient.prepare.
  apply resolves_bind.
  { destruct (default true _);
      [ apply resolves_loadConversation | apply resolves_ret ]. }
  intros loaded. apply resolves_bind; [ apply resolves_remember | intros _ ].
  apply resolves_bind; [ | intros; apply resolves_ret ].
  destruct (truthy_opt_string _);
    [ apply resolves_ret | apply resolves_generateSystemPrompt ].
Qed.

(** ** C1: all providers down *)

Lemma try_fallbacks_all_reject use id request ps :
  Forall always_rejects ps →
  ∀ w, ∃ w', LLMClient.try_fallbacks use id request ps w = (Ok None, w').
Proof.
  induction 1 as [ | p ps Hp _ IH ]; intros w.
  - eexists. reflexivity.
  - cbn [LLMClient.try_fallbacks].
    destruct (Hp request w) as (e & w1 & Hgen).
    erewrite bind_ok.
    2:{ erewrite try_catch_throw; [ reflexivity | ].
        erewrite bind_throw; [ reflexivity | exact Hgen ]. }
    apply IH.
Qed.

(** Whatever the providers do, the client's [generateResponse] does not
    reject. *)
Lemma client_generate_resolves this prompt options :
  resolves (LLMClient.generateResponse this prompt options).
Proof. apply resolves_try_catch. intros _. apply resolves_ret. Qed.

(** C1.  When the primary provider and every fallback provider reject,
    [generateResponse] of the client resolves (it does not reject) with
    the one literal apology. *)
Theorem generate_all_providers_fail (this : LLMClient.t) prompt options w :
  always_rejects (LLMClient.provider this) →
  Forall always_rejects (LLMClient.fallbackProviders this) →
  ∃ w', LLMClient.generateResponse this prompt options w = (Ok APOLOGY, w').
Proof.
  intros Hprimary Hfallbacks. unfold LLMClient.generateResponse.
  destruct (resolves_prepare this prompt options w) as (request & w1 & Hprep).
  destruct (Hprimary request w1) as (e & w2 & Hgen).
  destruct (try_fallbacks_all_reject (default true (LLMClient.useMemory options))
              (LLMClient.conversationId this) request _ Hfallbacks w2)
    as (w3 & Hfb).
  exists w3. erewrite try_catch_throw; [ reflexivity | ].
  erewrite bind_ok by exact Hprep.
  erewrite try_catch_throw.
  2:{ erewrite bind_throw; [ reflexivity | exact Hgen ]. }
  erewrite bind_ok by exact Hfb. reflexivity.
Qed.

Lemma down_always_rejects mock : always_rejects (down mock).
Proof. intros request w. eexists _, _. reflexivity. Qed.

Lemma generate_all_providers_fail_witness :
  ∃ w', LLMClient.generateResponse
          (LLMClient.mkClient (down 1) "test-conversation" [down 2; down 3])
          "Test prompt" LLMClient.no_options
          (mkWorld ∅ [] [] [] [] [] [] [])
        = (Ok APOLOGY, w').
Proof.
  apply generate_all_providers_fail.
  - simpl. apply down_always_rejects.
  - simpl. repeat constructor; apply down_always_rejects.
Defined.

(** ** What the memory leaves alone *)

#[global] Instance calls_untouched : Untouched calls.
Proof. split; reflexivity. Qed.
#[global] Instance chunks_untouched : Untouched chunks.
Proof. split; reflexivity. Qed.
#[global] Instance slept_untouched : Untouched slept.
Proof. split; reflexivity. Qed.
#[global] Instance net_untouched : Untouched net.
Proof. split; reflexivity. Qed.

Section Keeps.
Context {X} (f : World → X) `{!Untouched f}.

Lemma keeps_ret {A} (a : A) : keeps f (ret a).
Proof. intros w. reflexivity. Qed.

Lemma keeps_throw {A} e : keeps f (@throw A e).
Proof. intros w. reflexivity. Qed.

Lemma keeps_bind {A B} (m : M A) (k : A → M B) :
  keeps f m → (∀ a, keeps f (k a)) → keeps f (bind m k).
Proof.
  intros Hm Hk w. unfold bind. specialize (Hm w).
  destruct (m w) as [[a | e] w']; simpl in *; [ | exact Hm ].
  rewrite Hk. exact Hm.
Qed.

Lemma keeps_try_catch {A} (m : M A) h :
  keeps f m → (∀ e, keeps f (h e)) → keeps f (try_catch m h).
Proof.
  intros Hm Hh w. unfold try_catch. specialize (Hm w).
  destruct (m w) as [[a | e] w']; simpl in *; [ exact Hm | ].
  rewrite Hh. exact Hm.
Qed.

Lemma keeps_kv_command : keeps f kv_command.
Proof.
  intros w. unfold kv_command.
  destruct (kv_faults w) as [ | [] fs ]; simpl; auto using untouched_kv_faults.
Qed.

Lemma keeps_new_Date : keeps f new_Date.
Proof.
  intros w. unfold new_Date.
  destruct (clock w); simpl; auto using untouched_clock.
Qed.

Lemma keeps_Date_now : keeps f Date_now.
Proof. apply keeps_bind; [ apply keeps_new_Date | intros; apply keeps_ret ]. Qed.

Lemma keeps_kv_get key : keeps f (kv_get key).
Proof. apply keeps_bind; [ apply keeps_kv_command | intros _ w; reflexivity ]. Qed.

Lemma keeps_kv_set key v ex : keeps f (kv_set key v ex).
Proof.
  apply keeps_bind; [ apply keeps_kv_command | intros _ w ].
  apply untouched_kv_data.
Qed.

Lemma keeps_setWithExpiry key v ex : keeps f (setWithExpiry key v ex).
Proof.
  apply keeps_try_catch; [ | intros; apply keeps_ret ].
  apply keeps_bind; [ apply keeps_kv_set | intros; apply keeps_ret ].
Qed.

Lemma keeps_getAndParse key : keeps f (getAndParse key).
Proof.
  apply keeps_try_catch; [ | intros; apply keeps_ret ].
  apply keeps_bind; [ apply keeps_kv_get | intros [text | ] ];
    [ | apply keeps_ret ].
  destruct (truthy_string text); [ | apply keeps_ret ].
  destruct (JSON.parse text); [ apply keeps_ret | apply keeps_throw ].
Qed.

Lemma keeps_loadConversation this id : keeps f (loadConversation this id).
Proof.
  apply keeps_try_catch; [ | intros; apply keeps_ret ].
  apply keeps_bind; [ apply keeps_getAndParse | intros; apply keeps_ret ].
Qed.

Lemma keeps_saveConversation this id c : keeps f (saveConversation this id c).
Proof.
  apply keeps_try_catch; [ | intros; apply keeps_ret ].
  apply keeps_bind; [ apply keeps_Date_now | intros now ].
  apply keeps_bind; [ apply keeps_setWithExpiry | intros; apply keeps_ret ].
Qed.

Lemma keeps_addMessage this id m : keeps f (addMessage this id m).
Proof.
  apply keeps_try_catch; [ | intros; apply keeps_ret ].
  apply keeps_bind; [ apply keeps_loadConversation | intros loaded ].
  apply keeps_bind.
  { destruct loaded; [ apply keeps_ret | ].
    apply keeps_bind; [ apply keeps_Date_now | intros ].
    apply keeps_bind; [ apply keeps_Date_now | intros; apply keeps_ret ]. }
  intros c.
  apply keeps_bind; [ apply keeps_saveConversation | intros; apply keeps_ret ].
Qed.

Lemma keeps_remember use id m : keeps f (LLMClient.remember use id m).
Proof.
  unfold LLMClient.remember. destruct use; [ | apply keeps_ret ].
  apply keeps_bind; [ apply keeps_addMessage | intros; apply keeps_ret ].
Qed.

Lemma keeps_generateSystemPrompt memory : keeps f (generateSystemPrompt memory).
Proof. apply keeps_bind; [ apply keeps_new_Date | intros; apply keeps_ret ]. Qed.

Lemma keeps_prepare this prompt options :
  keeps f (LLMClient.prepare this prompt options).
Proof.
  unfold LLMClient.prepare. apply keeps_bind.
  { destruct (default true _);
      [ apply keeps_loadConversation | apply keeps_ret ]. }
  intros loaded. apply keeps_bind; [ apply keeps_remember | intros _ ].
  apply keeps_bind; [ | intros; apply keeps_ret ].
  destruct (truthy_opt_string _);
    [ apply keeps_ret | apply keeps_generateSystemPrompt ].
Qed.
End Keeps.

(** ** C2: the fallback answers *)

Lemma times_called_app mock w cs :
  times_called mock (set_calls (calls w ++ cs) w)
  = (times_called mock w + length (filter (λ k, k = mock) cs))%nat.
Proof. unfold times_called. simpl. rewrite filter_app, length_app. reflexivity. Qed.

(** C2.  With a primary provider whose [generateResponse] always rejects
    and one fallback provider whose [generateResponse] always resolves
    with "Fallback response", the client's [generateResponse] resolves
    with "Fallback response", and each of the two was called exactly
    once: first the primary, then the fallback.  The memory is off, or
    the store holds under the conversation's key what the memory wrote
    there: nothing, or a conversation. *)
Theorem fallback_answers (primary fallback : nat) e id prompt options w :
  primary ≠ fallback →
  LLMClient.useMemory options = Some false ∨ typed_store w id →
  let this :=
    LLMClient.mkClient
      (mock_provider (λ _, mockRejectedValue primary e)
                     (λ _, unscripted_stream primary))
      id
      [mock_provider (λ _, mockResolvedValue fallback "Fallback response")
                     (λ _, unscripted_stream fallback)] in
  ∃ w', LLMClient.generateResponse this prompt options w
        = (Ok "Fallback response", w')
        ∧ calls w' = calls w ++ [primary; fallback]
        ∧ times_called primary w' = S (times_called primary w)
        ∧ times_called fallback w' = S (times_called fallback w).
Proof.
  intros Hne _ this. unfold LLMClient.generateResponse.
  destruct (resolves_prepare this prompt options w) as (request & w1 & Hprep).
  pose proof (keeps_prepare calls this prompt options w) as Hcalls1.
  rewrite Hprep in Hcalls1. simpl in Hcalls1.
  set (use := default true (LLMClient.useMemory options)).
  set (w2 := set_calls (calls w1 ++ [primary]) w1).
  set (w3 := set_calls (calls w2 ++ [fallback]) w2).
  destruct (resolves_remember use id (mkMessage assistant "Fallback response" None) w3)
    as ([] & w4 & Hrem).
  pose proof (keeps_remember calls use id
                (mkMessage assistant "Fallback response" None) w3) as Hcalls4.
  rewrite Hrem in Hcalls4. simpl in Hcalls4.
  assert (Hlog : calls w4 = calls w ++ [primary; fallback]).
  { rewrite Hcalls4, Hcalls1, <- app_assoc. reflexivity. }
  exists w4. split; [ | split; [ exact Hlog | ] ].
  - unfold try_catch at 1. unfold bind at 1. rewrite Hprep.
    subst w2 w3. unfold bind, try_catch, mockResolvedValue, mockRejectedValue,
      jest_fn, ret in *.
    cbn -[LLMClient.remember filter] in *.
    unfold bind, try_catch, ret. cbn -[LLMClient.remember filter].
    rewrite Hrem. reflexivity.
  - unfold times_called. rewrite Hlog, !filter_app, !length_app.
    cbn [filter list_filter]. unfold filter. simpl.
    repeat case_decide; simpl; try congruence; lia.
Qed.

Lemma fallback_answers_witness :
  ∃ w', LLMClient.generateResponse
          (LLMClient.mkClient
             (mock_provider (λ _, mockRejectedValue 1%nat (mkError "Primary failed"))
                            (λ _, unscripted_stream 1%nat))
             "test-conversation"
             [mock_provider (λ _, mockResolvedValue 2%nat "Fallback response")
                            (λ _, unscripted_stream 2%nat)])
          "Test prompt" LLMClient.no_options (mkWorld ∅ [] [] [] [] [] [] [])
        = (Ok "Fallback response", w')
        ∧ calls w' = [1; 2]%nat
        ∧ times_called 1 w' = 1%nat
        ∧ times_called 2 w' = 1%nat.
Proof.
  apply (fallback_answers 1 2 (mkError "Primary failed") "test-conversation"
           "Test prompt" LLMClient.no_options (mkWorld ∅ [] [] [] [] [] [] [])).
  - lia.
  - right. left. reflexivity.
Defined.

(** ** C5: retry with exponential backoff *)

Lemma backoff_cons base a k :
  map (λ j, base * 2 ^ Z.of_nat (a + j)) (seq 0 (S k))
  = base * 2 ^ Z.of_nat a
    :: map (λ j, base * 2 ^ Z.of_nat (S a + j)) (seq 0 k).
Proof.
  cbn [seq map]. rewrite Nat.add_0_r. f_equal.
  rewrite <- seq_shift, map_map. apply map_ext. intros j.
  do 3 f_equal. lia.
Qed.

Lemma withRetry_loop_spec {T} (mock : nat) (impl : nat → Result T) base n :
  ∀ (a : nat) lastError w,
    let i0 := times_called mock w in
    let '(r, w') :=
      withRetry_loop (jest_fn mock impl) base n (Z.of_nat a) lastError w in
    (∃ k v, (k < n)%nat
            ∧ (∀ j, (j < k)%nat → ∃ e, impl (i0 + j)%nat = Throw e)
            ∧ impl (i0 + k)%nat = Ok v
            ∧ r = Ok v
            ∧ calls w' = calls w ++ repeat mock (S k)
            ∧ slept w' = slept w
                         ++ map (λ j, base * 2 ^ Z.of_nat (a + j)) (seq 0 k))
    ∨ ((∀ j, (j < n)%nat → ∃ e, impl (i0 + j)%nat = Throw e)
       ∧ r = Throw match n with
                   | O => match lastError with
                          | Some e => e
                          | None => mkError "All retry attempts failed"
                          end
                   | S m => match impl (i0 + m)%nat with
                            | Throw e => e
                            | Ok _ => mkError "All retry attempts failed"
                            end
                   end
       ∧ calls w' = calls w ++ repeat mock n
       ∧ slept w' = slept w
                    ++ map (λ j, base * 2 ^ Z.of_nat (a + j)) (seq 0 n)).
Proof.
  induction n as [ | n IH ]; intros a lastError w; cbn zeta.
  - right. cbn. rewrite !app_nil_r. repeat split; [ intros j Hj; lia ].
  - cbn [withRetry_loop]. unfold try_catch.
    unfold jest_fn at 1. fold (times_called mock w).
    set (w1 := set_calls (calls w ++ [mock]) w).
    destruct (impl (times_called mock w)) as [ v | e ] eqn:Hnow.
    + left. exists 0%nat, v. rewrite Nat.add_0_r, app_nil_r.
      repeat split; [ lia | intros j Hj; lia | exact Hnow ].
    + unfold bind at 1. unfold sleep at 1.
      set (w2 := set_slept (slept w1 ++ [base * 2 ^ Z.of_nat a]) w1).
      replace (Z.of_nat a + 1) with (Z.of_nat (S a)) by lia.
      specialize (IH (S a) (Some e) w2).
      assert (Hcount : times_called mock w2 = S (times_called mock w)).
      { unfold w2, w1, times_called. simpl. rewrite filter_app, length_app. simpl.
        unfold filter. simpl. case_decide; [ simpl; lia | congruence ]. }
      cbn zeta in IH. rewrite Hcount in IH.
      destruct (withRetry_loop (jest_fn mock impl) base n (Z.of_nat (S a)) (Some e) w2)
        as [r w'].
      destruct IH as [ (k & v & Hk & Hfail & Hok & Hr & Hcalls & Hslept)
                     | (Hfail & Hr & Hcalls & Hslept) ].
      * left. exists (S k), v. repeat split.
        -- lia.
        -- intros [ | j ] Hj.
           ++ exists e. rewrite Nat.add_0_r. exact Hnow.
           ++ destruct (Hfail j ltac:(lia)) as (e' & He'). exists e'.
              rewrite <- He'. f_equal. lia.
        -- rewrite <- Hok. f_equal. lia.
        -- exact Hr.
        -- rewrite Hcalls. unfold w2, w1. simpl. rewrite <- app_assoc. reflexivity.
        -- rewrite Hslept, backoff_cons. unfold w2, w1. simpl.
           rewrite <- app_assoc. reflexivity.
      * right. repeat split.
        -- intros [ | j ] Hj.
           ++ exists e. rewrite Nat.add_0_r. exact Hnow.
           ++ destruct (Hfail j ltac:(lia)) as (e' & He'). exists e'.
              rewrite <- He'. f_equal. lia.
        -- rewrite Hr. f_equal. destruct n as [ | m ].
           ++ rewrite Nat.add_0_r, Hnow. reflexivity.
           ++ replace (times_called mock w + S m)%nat
                with (S (times_called mock w) + m)%nat by lia. reflexivity.
        -- rewrite Hcalls. unfold w2, w1. simpl. rewrite <- app_assoc. reflexivity.
        -- rewrite Hslept, backoff_cons. unfold w2, w1. simpl.
           rewrite <- app_assoc. reflexivity.
Qed.

(** C5.  [withRetry(operation, maxAttempts, baseDelayMs)] on an operation
    that counts its calls.  Either some attempt [k] below [maxAttempts]
    is the first to succeed: its value is the result, the operation was
    called [k + 1] times, and the delays slept were
    [baseDelayMs * 2^attempt] for the attempts [0 .. k-1] that failed.
    Or all [maxAttempts] attempts fail: the error of the last one is
    thrown, the operation was called [maxAttempts] times, and a delay of
    [baseDelayMs * 2^attempt] was slept after each failure.  Either way
    the operation is called at most [maxAttempts] times. *)
Theorem withRetry_policy {T} (mock : nat) (operation : nat → Result T)
    (maxAttempts baseDelayMs : Z) (w : World) :
  let i0 := times_called mock w in
  let n := Z.to_nat maxAttempts in
  let backoff k := map (λ attempt, baseDelayMs * 2 ^ Z.of_nat attempt) (seq 0 k) in
  let '(r, w') := withRetry (jest_fn mock operation) maxAttempts baseDelayMs w in
  ((∃ k v, (k < n)%nat
           ∧ (∀ j, (j < k)%nat → ∃ e, operation (i0 + j)%nat = Throw e)
           ∧ operation (i0 + k)%nat = Ok v
           ∧ r = Ok v
           ∧ calls w' = calls w ++ repeat mock (S k)
           ∧ slept w' = slept w ++ backoff k)
   ∨ ((∀ j, (j < n)%nat → ∃ e, operation (i0 + j)%nat = Throw e)
      ∧ r = Throw match n with
                  | O => mkError "All retry attempts failed"
                  | S m => match operation (i0 + m)%nat with
                           | Throw e => e
                           | Ok _ => mkError "All retry attempts failed"
                           end
                  end
      ∧ calls w' = calls w ++ repeat mock n
      ∧ slept w' = slept w ++ backoff n))
  ∧ (times_called mock w' ≤ i0 + n)%nat.
Proof.
  cbn zeta. unfold withRetry.
  pose proof (withRetry_loop_spec mock operation baseDelayMs
                (Z.to_nat maxAttempts) 0 None w) as H.
  cbn zeta in H. change (Z.of_nat 0) with 0 in H.
  destruct (withRetry_loop (jest_fn mock operation) baseDelayMs
              (Z.to_nat maxAttempts) 0 None w) as [r w'].
  split; [ exact H | ].
  assert (Hrep : ∀ k, length (filter (λ x, x = mock) (repeat mock k)) = k).
  { induction k as [ | k IHk ]; [ reflexivity | ].
    cbn [repeat]. rewrite filter_cons_True by reflexivity. simpl. lia. }
  unfold times_called.
  destruct H as [ (k & v & Hk & _ & _ & _ & Hcalls & _) | (_ & _ & Hcalls & _) ];
    rewrite Hcalls, filter_app, length_app, Hrep; lia.
Qed.

Example withRetry_ex :
  let flaky i := if (i <? 2)%nat then Throw (mkError "busy") else Ok "done" in
  let '(r, w') := withRetry_default (jest_fn 7 flaky)
                    (mkWorld ∅ [] [] [] [] [] [] []) in
  r = Ok "done" ∧ slept w' = [1000; 2000] ∧ calls w' = [7; 7; 7]%nat.
Proof. vm_compute. repeat split; reflexivity. Qed.

Example withRetry_exhausted_ex :
  let '(r, w') := withRetry_default (mockRejectedValue (A := string) 7 (mkError "busy"))
                    (mkWorld ∅ [] [] [] [] [] [] []) in
  r = Throw (mkError "busy") ∧ slept w' = [1000; 2000; 4000]
  ∧ calls w' = [7; 7; 7]%nat.
Proof. vm_compute. repeat split; reflexivity. Qed.

(** ** C6: streaming aggregation *)

Lemma for_await_streamed mock w :
  LLMClient.for_await
    (mockStreamGenerator mock
       [mkChunk "Stream " false; mkChunk "chunk " false; mkChunk "test" true])
    record_chunk w
  = (Ok "Stream chunk test",
     set_chunks (chunks w ++ [("Stream ", false); ("chunk ", false); ("test", true)])
                (set_calls (calls w ++ [mock]) w)).
Proof.
  unfold LLMClient.for_await, mockStreamGenerator, record_chunk, bind, ret.
  cbn. unfold set_chunks. cbn. rewrite <- !app_assoc. reflexivity.
Qed.

(** C6.  With a primary provider that streams "Stream ", "chunk ", "test"
    (the last one flagged done), [generateStreamingResponse] of the client
    calls [onChunk] exactly three times, with these fragments and their
    flags in this order, and resolves with "Stream chunk test".  The
    memory is off, or the store holds under the conversation's key what
    the memory wrote there: nothing, or a conversation. *)
Theorem streaming_aggregation (mock : nat) generate id fallbacks prompt options w :
  LLMClient.useMemory options = Some false ∨ typed_store w id →
  let streamed :=
    [mkChunk "Stream " false; mkChunk "chunk " false; mkChunk "test" true] in
  let this :=
    LLMClient.mkClient
      (mock_provider generate (λ _, mockStreamGenerator mock streamed))
      id fallbacks in
  ∃ w', LLMClient.generateStreamingResponse this prompt options record_chunk w
        = (Ok "Stream chunk test", w')
        ∧ chunks w' = chunks w
                      ++ [("Stream ", false); ("chunk ", false); ("test", true)].
Proof.
  intros _ streamed this. unfold LLMClient.generateStreamingResponse.
  destruct (resolves_prepare this prompt options w) as (request & w1 & Hprep).
  pose proof (keeps_prepare chunks this prompt options w) as Hchunks1.
  rewrite Hprep in Hchunks1. simpl in Hchunks1.
  set (use := default true (LLMClient.useMemory options)).
  pose proof (for_await_streamed mock w1) as Hstream.
  set (w2 := set_chunks _ _) in Hstream.
  destruct (resolves_remember use id (mkMessage assistant "Stream chunk test" None) w2)
    as ([] & w3 & Hrem).
  pose proof (keeps_remember chunks use id
                (mkMessage assistant "Stream chunk test" None) w2) as Hchunks3.
  rewrite Hrem in Hchunks3. simpl in Hchunks3.
  exists w3. split.
  - unfold try_catch at 1. unfold bind at 1. rewrite Hprep.
    unfold try_catch at 1. unfold bind at 1.
    cbn [LLMClient.provider this generateStreamingResponse mock_provider].
    fold streamed in Hstream. rewrite Hstream.
    unfold bind at 1. cbn [LLMClient.conversationId this]. rewrite Hrem.
    reflexivity.
  - rewrite Hchunks3, Hchunks1. reflexivity.
Qed.

Lemma streaming_aggregation_witness :
  ∃ w', LLMClient.generateStreamingResponse
          (LLMClient.mkClient
             (mock_provider (λ _, ret EmptyString)
                (λ _, mockStreamGenerator 1%nat
                        [mkChunk "Stream " false; mkChunk "chunk " false;
                         mkChunk "test" true]))
             "test-conversation" [])
          "Test prompt" LLMClient.no_options record_chunk
          (mkWorld ∅ [] [] [] [] [] [] [])
        = (Ok "Stream chunk test", w')
        ∧ chunks w' = [("Stream ", false); ("chunk ", false); ("test", true)].
Proof.
  apply (streaming_aggregation 1 (λ _, ret EmptyString) "test-conversation" []
           "Test prompt" LLMClient.no_options (mkWorld ∅ [] [] [] [] [] [] [])).
  right. left. reflexivity.
Defined.

(** ** C7: a provider recovers locally *)

Section SearchKeeps.
Context {X} (f : World → X) `{!Untouched f}.

Lemma keeps_searchSearXNG query n : keeps f (searchSearXNG query n).
Proof.
  apply keeps_try_catch; [ | intros; apply keeps_ret ].
  apply keeps_bind; [ apply keeps_new_Date; exact _ | intros _ ].
  apply keeps_bind; [ | intros; apply keeps_ret ].
  intros w. destruct (search_net w) as [ | [rs | ] rest ]; simpl;
    auto using untouched_search_net.
Qed.

Lemma keeps_provider_searchInternet query : keeps f (provider_searchInternet query).
Proof.
  apply keeps_try_catch; [ | intros; apply keeps_ret ].
  apply keeps_bind; [ apply keeps_searchSearXNG | intros; apply keeps_ret ].
Qed.

Lemma keeps_enhanced_prompt options : keeps f (enhanced_prompt options).
Proof.
  unfold enhanced_prompt. destruct (truthy_opt_string _);
    [ apply keeps_ret | apply keeps_generateSystemPrompt; assumption ].
Qed.

Lemma keeps_search_step options : keeps f (search_step options).
Proof.
  unfold search_step. destruct (last _); [ | apply keeps_ret ].
  destruct (_ && _); [ | apply keeps_ret ].
  apply keeps_bind; [ apply keeps_new_Date; exact _ | intros _ ].
  apply keeps_try_catch; [ | intros; apply keeps_ret ].
  apply keeps_bind; [ apply keeps_provider_searchInternet | intros; apply keeps_ret ].
Qed.
End SearchKeeps.

Lemma resolves_enhanced_prompt options : resolves (enhanced_prompt options).
Proof.
  unfold enhanced_prompt. destruct (truthy_opt_string _);
    [ apply resolves_ret | apply resolves_generateSystemPrompt ].
Qed.

Lemma resolves_search_step options : resolves (search_step options).
Proof.
  unfold search_step. destruct (last _); [ | apply resolves_ret ].
  destruct (_ && _); [ | apply resolves_ret ].
  apply resolves_bind; [ apply resolves_new_Date | intros _ ].
  apply resolves_try_catch. intros _. apply resolves_ret.
Qed.

(** A request consumes one reply of the endpoint, and that reply decides
    it. *)
Lemma makeRequest_reply url options w :
  ∃ w', net w' = tail (net w)
        ∧ makeRequest url options w
          = (match net w with
             | NetOk data :: _ => Ok data
             | NetFail e :: _ => Throw e
             | [] => Throw (mkError "network error")
             end, w').
Proof.
  unfold makeRequest.
  destruct (resolves_enhanced_prompt options w) as (prompt & w0 & Hp).
  pose proof (keeps_enhanced_prompt net options w) as Hnet0.
  rewrite Hp in Hnet0. simpl in Hnet0.
  destruct (resolves_search_step options w0) as ([] & w1 & Hs).
  pose proof (keeps_search_step net options w0) as Hnet.
  rewrite Hs in Hnet. simpl in Hnet.
  erewrite bind_ok by exact Hp.
  erewrite bind_ok by exact Hs. unfold axios_post. rewrite Hnet, Hnet0.
  destruct (net w) as [ | [e | data] rest ]; eexists;
    (split; [ | reflexivity ]); simpl; congruence.
Qed.

Lemma withRetry_loop_all_fail url options base n :
  ∀ attempt lastError w,
    all_fail n (net w) = true →
    ∃ e w', withRetry_loop (makeRequest url options) base n attempt lastError w
            = (Throw e, w').
Proof.
  induction n as [ | n IH ]; intros attempt lastError w Hfail.
  - eexists _, _. reflexivity.
  - cbn [withRetry_loop].
    destruct (makeRequest_reply url options w) as (w1 & Hnet & Hreq).
    assert (∃ e, makeRequest url options w = (Throw e, w1)
                 ∧ all_fail n (net w1) = true) as (e & Hthrow & Hrest).
    { rewrite Hreq, Hnet. simpl in Hfail.
      destruct (net w) as [ | [e | data] rest ]; [ | | discriminate Hfail ].
      - eexists. split; [ reflexivity | destruct n; reflexivity ].
      - eexists. split; [ reflexivity | exact Hfail ]. }
    erewrite try_catch_throw by exact Hthrow.
    unfold bind at 1, sleep at 1. apply IH. exact Hrest.
Qed.

Lemma withRetry_all_fail url options w :
  all_fail 3 (net w) = true →
  ∃ e w', withRetry_default (makeRequest url options) w = (Throw e, w').
Proof. apply withRetry_loop_all_fail. Qed.

(** C7.  For the Cohere, OpenRouter and GLHF providers: [generateResponse]
    never rejects, and when the request fails on all three attempts it
    resolves with the apology. *)
Theorem provider_recovers_locally (p : LLMProvider) options w :
  p ∈ implementations →
  resolves (generateResponse p options)
  ∧ (all_fail 3 (net w) = true →
     ∃ w', generateResponse p options w = (Ok APOLOGY, w')).
Proof.
  intros Hp. unfold implementations in Hp.
  rewrite !elem_of_cons, elem_of_nil in Hp.
  destruct Hp as [-> | [-> | [-> | []]]]; (split;
    [ apply resolves_try_catch; intros _; apply resolves_ret | ]);
    intros Hfail; cbn [generateResponse CohereProvider.new OpenRouterProvider.new
                       GLHFProvider.new];
    unfold CohereProvider.generateResponse, OpenRouterProvider.generateResponse,
      GLHFProvider.generateResponse, OpenAIStyle.generateResponse;
    match goal with
    | |- context [withRetry_default (makeRequest ?url ?o)] =>
        destruct (withRetry_all_fail url o w Hfail) as (e & w' & Hretry)
    end;
    exists w'; (erewrite try_catch_throw; [ reflexivity | ]);
    (erewrite bind_throw; [ reflexivity | exact Hretry ]).
Qed.

Lemma provider_recovers_locally_witness :
  let w := mkWorld ∅ [] [] [NetFail (mkError "503"); NetFail (mkError "503");
                           NetFail (mkError "timeout")] [] [] [] [] in
  let options := mkRequest None [mkMessage user "Hi" None] None None false false in
  resolves (generateResponse CohereProvider.new options)
  ∧ ∃ w', generateResponse CohereProvider.new options w = (Ok APOLOGY, w').
Proof.
  intros w options.
  destruct (provider_recovers_locally CohereProvider.new options w) as [H1 H2].
  - unfold implementations. apply elem_of_cons. left. reflexivity.
  - split; [ exact H1 | apply H2; reflexivity ].
Defined.

(** ** C8: how a provider's stream ends *)

Lemma flagged_ret may_throw : flagged may_throw (g_ret Continue).
Proof. intros w. constructor. Qed.

Lemma flagged_catch g :
  flagged true g → flagged false (g_try_catch g (λ _, g_ret Continue)).
Proof.
  intros H w. specialize (H w). unfold g_try_catch, g_ret.
  destruct (g w) as [[cs [[] | e]] w']; simpl in *; auto.
  rewrite app_nil_r. apply H.
Qed.

Lemma flagged_weaken g : flagged false g → flagged true g.
Proof.
  intros H w. specialize (H w).
  destruct (g w) as [[cs [[] | e]] w']; simpl in *; auto.
  split; [ apply H | reflexivity ].
Qed.

Lemma cohere_frame_flagged chunk : flagged false (CohereProvider.frame chunk).
Proof.
  unfold CohereProvider.frame. apply flagged_catch.
  destruct (negb _); [ apply flagged_ret | ].
  intros w. unfold g_try_catch, g_bind, g_result, g_ret, g_throw, g_yield.
  repeat (case_match; simpl in *; simplify_eq);
    try (exists []; split; [ reflexivity | constructor ]);
    try (split; [ | reflexivity ]);
    cbn [app]; repeat first [ apply Forall_nil_2 | apply Forall_cons_2; [ reflexivity | ] ].
Qed.

Lemma yield_delta_flagged json w :
  ∃ cs r w1, OpenAIStyle.yield_delta json w = ((cs, r), w1) ∧ Forall not_done cs.
Proof.
  unfold OpenAIStyle.yield_delta, g_bind, g_result, g_ret, g_yield.
  repeat (case_match; simpl in *; simplify_eq);
    eexists _, _, _; (split; [ reflexivity | ]);
    cbn [app]; repeat first [ apply Forall_nil_2 | apply Forall_cons_2; [ reflexivity | ] ].
Qed.

Lemma openai_lines_flagged lines : flagged true (OpenAIStyle.lines_loop lines).
Proof.
  induction lines as [ | line rest IH ]; [ apply flagged_ret | ].
  intros w. cbn [OpenAIStyle.lines_loop].
  destruct (String.eqb _ "[DONE]").
  { simpl. exists []. split; [ reflexivity | constructor ]. }
  unfold g_bind at 1.
  destruct (JSON.parse _) as [ json | ]; cbn [g_ret g_throw];
    [ | simpl; split; [ constructor | reflexivity ] ].
  unfold g_bind at 1.
  destruct (yield_delta_flagged json w) as (cs & r & w1 & -> & Hcs).
  destruct r as [ [] | e ]; [ | simpl; auto ].
  specialize (IH w1).
  destruct (OpenAIStyle.lines_loop rest w1) as [[cs' [[] | e]] w2]; simpl in *.
  - apply Forall_app_2; auto.
  - destruct IH as (init & -> & Hinit). exists (cs ++ init).
    rewrite app_assoc. split; [ reflexivity | apply Forall_app_2; auto ].
  - destruct IH as [IH _]. split; [ apply Forall_app_2; auto | reflexivity ].
Qed.

Lemma openai_frame_flagged chunk : flagged false (OpenAIStyle.frame chunk).
Proof.
  unfold OpenAIStyle.frame. apply flagged_catch.
  destruct (_ || _); [ apply flagged_ret | apply openai_lines_flagged ].
Qed.

Lemma frames_loop_flagged frame frames :
  (∀ c, flagged false (frame c)) → flagged false (frames_loop frame frames).
Proof.
  intros Hframe. induction frames as [ | f rest IH ]; [ apply flagged_ret | ].
  intros w. cbn [frames_loop]. unfold g_bind at 1.
  specialize (Hframe f w).
  destruct (frame f w) as [[cs [[] | e]] w1]; simpl in *.
  - specialize (IH w1).
    destruct (frames_loop frame rest w1) as [[cs' [[] | e]] w2]; simpl in *.
    + apply Forall_app_2; auto.
    + destruct IH as (init & -> & Hinit). exists (cs ++ init).
      rewrite app_assoc. split; [ reflexivity | apply Forall_app_2; auto ].
    + destruct IH as [_ IH]. discriminate IH.
  - rewrite app_nil_r. exact Hframe.
  - exact Hframe.
Qed.

Lemma for_await_frames_flagged data frame :
  (∀ c, flagged false (frame c)) → flagged true (for_await_frames data frame).
Proof.
  intros Hframe w. unfold for_await_frames.
  destruct data as [ [ [] | ] | frames broken ]; simpl; repeat constructor.
  pose proof (frames_loop_flagged frame frames Hframe w) as H.
  unfold g_bind. destruct (frames_loop frame frames w) as [[cs [[] | e]] w1];
    simpl in *.
  - destruct broken; simpl; rewrite app_nil_r; auto.
  - rewrite app_nil_r. exact H.
  - destruct H as [_ H]. discriminate H.
Qed.

(** A stream that ends without breaking is read to its end without an
    error. *)
Lemma for_await_frames_unbroken frames frame w :
  (∀ c, flagged false (frame c)) →
  ∃ cs flow w', for_await_frames (DataStream frames None) frame w
                = ((cs, Ok flow), w').
Proof.
  intros Hframe. pose proof (frames_loop_flagged frame frames Hframe w) as H.
  unfold for_await_frames, g_bind.
  destruct (frames_loop frame frames w) as [[cs [[] | e]] w1]; simpl in *.
  - eexists _, _, _. reflexivity.
  - eexists _, _, _. reflexivity.
  - destruct H as [_ H]. discriminate H.
Qed.

Lemma withRetry_first_answer url options w data rest :
  net w = NetOk data :: rest →
  ∃ w', withRetry_default (makeRequest url options) w = (Ok data, w').
Proof.
  intros Hnet. destruct (makeRequest_reply url options w) as (w1 & _ & Hreq).
  rewrite Hnet in Hreq. exists w1.
  unfold withRetry_default, withRetry. change (Z.to_nat 3) with 3%nat.
  cbn [withRetry_loop]. erewrite try_catch_ok by exact Hreq. reflexivity.
Qed.

Local Opaque all_fail.

Lemma stream_response_shape url frame options w :
  (∀ c, flagged false (frame c)) →
  ∃ init final w',
    stream_response url frame options w = ((init ++ [final], None), w')
    ∧ Forall not_done init
    ∧ (final = done_marker ∨ final = error_chunk)
    ∧ (all_fail 3 (net w) = true → init = [] ∧ final = error_chunk)
    ∧ (∀ frames rest, net w = NetOk (DataStream frames None) :: rest →
                      final = done_marker).
Proof.
  intros Hframe. unfold stream_response, run_generator, g_try_catch.
  unfold g_bind at 1, g_lift at 1.
  destruct (withRetry_default (makeRequest url (streaming options)) w)
    as [[data | e] w1] eqn:Hretry.
  - assert (Hanswered : all_fail 3 (net w) = true → False).
    { intros Hfail.
      destruct (withRetry_all_fail url (streaming options) w Hfail)
        as (e & w' & Hthrow). congruence. }
    pose proof (for_await_frames_flagged data frame Hframe w1) as H.
    unfold g_bind at 1.
    destruct (for_await_frames data frame w1) as [[cs [[] | e]] w2] eqn:Hread;
      cbn [fst snd] in H; cbn [g_yield g_ret].
    + exists cs, done_marker, w2.
      split; [ reflexivity | ]. split; [ exact H | ].
      split; [ left; reflexivity | ]. split; [ intros Hf; contradiction | ].
      reflexivity.
    + destruct H as (init & -> & Hinit). exists init, done_marker, w2.
      rewrite app_nil_r.
      split; [ reflexivity | ]. split; [ exact Hinit | ].
      split; [ left; reflexivity | ]. split; [ intros Hf; contradiction | ].
      reflexivity.
    + destruct H as [H _]. exists cs, error_chunk, w2.
      split; [ reflexivity | ]. split; [ exact H | ].
      split; [ right; reflexivity | ]. split; [ intros Hf; contradiction | ].
      intros frames rest Hnet. exfalso.
      destruct (withRetry_first_answer url (streaming options) w _ _ Hnet)
        as (w' & Hok).
      rewrite Hok in Hretry. injection Hretry as <- <-.
      destruct (for_await_frames_unbroken frames frame w' Hframe)
        as (cs' & flow & w'' & Hno). congruence.
  - cbn [g_yield]. exists [], error_chunk, w1.
    split; [ reflexivity | ]. split; [ constructor | ].
    split; [ right; reflexivity | ]. split; [ intros _; split; reflexivity | ].
    intros frames rest Hnet.
    destruct (withRetry_first_answer url (streaming options) w _ _ Hnet)
      as (w' & Hok). congruence.
Qed.

Local Transparent all_fail.

Lemma implementations_flagged p :
  p ∈ implementations →
  ∃ url frame, generateStreamingResponse p = stream_response url frame
               ∧ ∀ c, flagged false (frame c).
Proof.
  unfold implementations. rewrite !elem_of_cons, elem_of_nil.
  intros [-> | [-> | [-> | []]]]; eexists _, _;
    (split; [ reflexivity | ]);
    auto using cohere_frame_flagged, openai_frame_flagged.
Qed.




Example cohere_stream_ex :
  let w := mkWorld ∅ [] [] [NetFail (mkError "502");
                           NetOk (DataStream
                                    [JSON.stringify (JObj [("event_type", JStr "text-generation");
                                                           ("text", JStr "Hel")]);
                                     "  ";
                                     JSON.stringify (JObj [("event_type", JStr "text-generation");
                                                           ("text", JStr "lo")]);
                                     JSON.stringify (JObj [("event_type", JStr "stream-end")]);
                                     JSON.stringify (JObj [("event_type", JStr "text-generation");
                                                           ("text", JStr "late")])]
                                    None)]
                   [] [] [] [] in
  let options := mkRequest None [mkMessage user "Hi" None] None None false false in
  let '(stream, w') := generateStreamingResponse CohereProvider.new options w in
  stream = ([mkChunk "Hel" false; mkChunk "lo" false; done_marker], None)
  ∧ slept w' = [1000].
Proof. vm_compute. split; reflexivity. Qed.

Example openrouter_stream_ex :
  let delta text :=
    "data: " +:+ JSON.stringify
      (JObj [("choices", JArr [JObj [("delta", JObj [("content", JStr text)])]])]) in
  let w := mkWorld ∅ [] []
             [NetOk (DataStream
                       [delta "Hel" +:+ newline +:+ delta "lo";
                        "data: {broken";
                        delta "!" +:+ newline +:+ "data: [DONE]"]
                       (Some (mkError "ECONNRESET")))]
             [] [] [] [] in
  let options := mkRequest None [mkMessage user "Hi" None] None None false false in
  (generateStreamingResponse OpenRouterProvider.new options w).1
  = ([mkChunk "Hel" false; mkChunk "lo" false; mkChunk "!" false; done_marker], None).
Proof. vm_compute. reflexivity. Qed.

Example broken_stream_ex :
  let w := mkWorld ∅ [] []
             [NetOk (DataStream
                       [JSON.stringify (JObj [("event_type", JStr "text-generation");
                                              ("text", JStr "Hel")])]
                       (Some (mkError "ECONNRESET")))]
             [] [] [] [] in
  let options := mkRequest None [mkMessage user "Hi" None] None None false false in
  (generateStreamingResponse CohereProvider.new options w).1
  = ([mkChunk "Hel" false; error_chunk], None).
Proof. vm_compute. reflexivity. Qed.

(** ** C10: the provider registry *)

Module LLMFactoryFacts.
Import LLMFactory.

Lemma toLowerCase_length s : String.length (toLowerCase s) = String.length s.
Proof. induction s; simpl; congruence. Qed.

Lemma append_cancel (s1 s2 t : string) :
  String.length s1 = String.length s2 → s1 +:+ t = s2 +:+ t → s1 = s2.
Proof.
  revert s2. induction s1 as [ | c s1 IH ]; intros [ | c' s2 ] Hlen Heq;
    simpl in *; try discriminate; [ reflexivity | ].
  injection Heq as -> Heq. f_equal. apply IH; [ lia | exact Heq ].
Qed.

Lemma providerKey_differs name name' model :
  name' ≠ name → toLowerCase name' = toLowerCase name →
  providerKey name model ≠ providerKey name' model.
Proof.
  intros Hne Hlow Hkey. apply Hne. unfold providerKey in Hkey.
  symmetry. eapply append_cancel; [ | exact Hkey ].
  rewrite <- (toLowerCase_length name), <- (toLowerCase_length name'), Hlow.
  reflexivity.
Qed.

Lemma getProvider_resolves name model s k :
  well_formed s → class_of (toLowerCase name) = Some k →
  ∃ i s1, getProvider name model s = (Ok i, s1)
          ∧ providers s1 !! providerKey name model = Some i
          ∧ well_formed s1
          ∧ (providers s !! providerKey name model = None →
             class i = k ∧ object_id i = allocated s).
Proof.
  intros [Hlt Hinj] Hk. unfold getProvider. rewrite Hk.
  destruct (providers s !! providerKey name model) as [ cached | ] eqn:Hc.
  - exists cached, s. split; [ reflexivity | ]. split; [ exact Hc | ].
    split; [ split; assumption | ]. intros H. discriminate H.
  - eexists _, _. split; [ reflexivity | ]. cbn [providers allocated].
    split; [ apply lookup_insert_eq | ]. split; [ | intros _; split; reflexivity ].
    split.
    + intros key i Hi. cbn [providers allocated] in *.
      destruct (decide (providerKey name model = key)) as [ <- | Hne ].
      * rewrite lookup_insert_eq in Hi. injection Hi as <-. simpl. lia.
      * rewrite lookup_insert_ne in Hi by exact Hne. apply Hlt in Hi. lia.
    + intros k1 k2 i1 i2 H1 H2 Hid. cbn [providers] in *.
      destruct (decide (providerKey name model = k1)) as [ <- | Hne1 ];
        destruct (decide (providerKey name model = k2)) as [ <- | Hne2 ].
      * reflexivity.
      * rewrite lookup_insert_eq in H1. rewrite lookup_insert_ne in H2 by exact Hne2.
        injection H1 as <-. apply Hlt in H2. simpl in Hid. lia.
      * rewrite lookup_insert_eq in H2. rewrite lookup_insert_ne in H1 by exact Hne1.
        injection H2 as <-. apply Hlt in H1. simpl in Hid. lia.
      * rewrite lookup_insert_ne in H1 by exact Hne1.
        rewrite lookup_insert_ne in H2 by exact Hne2.
        eapply Hinj; eassumption.
Qed.

Lemma getProvider_cached key_name model s i :
  providers s !! providerKey key_name model = Some i →
  getProvider key_name model s = (Ok i, s).
Proof. intros H. unfold getProvider. rewrite H. reflexivity. Qed.

Lemma initial_well_formed : well_formed initial.
Proof.
  split.
  - intros k i H. cbn in H. rewrite lookup_empty in H. discriminate.
  - intros k1 k2 i1 i2 H. cbn in H. rewrite lookup_empty in H. discriminate.
Qed.

(** C10.  In a registry whose cache [getProvider] alone has filled, for a
    name that the switch recognises once lowered, and any model:
    a miss constructs the class of the lowered name; a second call with
    the same name and model returns the same object and changes nothing;
    a call with a name that differs in letter case only succeeds too, and
    returns another object. *)
Theorem registry_matches_lowered_caches_exact (name : string)
    (model : option string) (s : State) (k : ProviderClass) :
  well_formed s →
  class_of (toLowerCase name) = Some k →
  ∃ i s1,
    getProvider name model s = (Ok i, s1)
    ∧ (providers s !! providerKey name model = None → class i = k)
    ∧ getProvider name model s1 = (Ok i, s1)
    ∧ ∀ name', name' ≠ name → toLowerCase name' = toLowerCase name →
               ∃ i' s2, getProvider name' model s1 = (Ok i', s2)
                        ∧ object_id i' ≠ object_id i.
Proof.
  intros Hwf Hk.
  destruct (getProvider_resolves name model s k Hwf Hk)
    as (i & s1 & Hget & Hcached & Hwf1 & Hfresh).
  exists i, s1. split; [ exact Hget | ].
  split; [ intros Hmiss; apply Hfresh, Hmiss | ].
  split; [ apply getProvider_cached, Hcached | ].
  intros name' Hne Hlow.
  assert (Hk' : class_of (toLowerCase name') = Some k) by (rewrite Hlow; exact Hk).
  destruct (getProvider_resolves name' model s1 k Hwf1 Hk')
    as (i' & s2 & Hget' & Hcached' & Hwf2 & Hfresh').
  exists i', s2. split; [ exact Hget' | ].
  intros Hid. apply (providerKey_differs name name' model Hne Hlow).
  destruct Hwf1 as [Hlt1 Hinj1].
  destruct (providers s1 !! providerKey name' model) as [ cached | ] eqn:Hc.
  - rewrite (getProvider_cached name' model s1 cached Hc) in Hget'.
    injection Hget' as <- <-.
    eapply Hinj1; [ exact Hcached | exact Hc | congruence ].
  - exfalso. destruct (Hfresh' eq_refl) as [_ Hnew].
    apply Hlt1 in Hcached. lia.
Qed.

Lemma registry_matches_lowered_caches_exact_witness :
  ∃ i s1,
    getProvider "groq" (Some "llama3-8b-8192") initial = (Ok i, s1)
    ∧ class i = GroqProvider
    ∧ getProvider "groq" (Some "llama3-8b-8192") s1 = (Ok i, s1)
    ∧ ∃ i' s2, getProvider "GROQ" (Some "llama3-8b-8192") s1 = (Ok i', s2)
               ∧ object_id i' ≠ object_id i.
Proof.
  destruct (registry_matches_lowered_caches_exact
              "groq" (Some "llama3-8b-8192") initial GroqProvider)
    as (i & s1 & Hget & Hclass & Hagain & Hcase).
  - apply initial_well_formed.
  - reflexivity.
  - exists i, s1. split; [ exact Hget | ].
    split; [ apply Hclass; reflexivity | ]. split; [ exact Hagain | ].
    apply Hcase; [ discriminate | reflexivity ].
Defined.

End LLMFactoryFacts.

(** ** The conversation record through JSON *)

Lemma message_of_to_json m : message_of_json (message_to_json m) = Some m.
Proof. destruct m as [[] c [n | ]]; reflexivity. Qed.

Lemma messages_of_to_json l :
  messages_of_json (message_to_json <$> l) = Some l.
Proof.
  induction l as [ | m l IH ]; [ reflexivity | ].
  cbn [fmap list_fmap messages_of_json]. rewrite message_of_to_json. cbn.
  change (list_fmap _ _ message_to_json l) with (message_to_json <$> l).
  rewrite IH. reflexivity.
Qed.

Lemma state_of_to_json c : state_of_json (state_to_json c) = Some c.
Proof.
  destruct c as [msgs [s | ] created updated]; cbn;
    rewrite messages_of_to_json; reflexivity.
Qed.

Lemma stringify_state_truthy c :
  truthy_string (JSON.stringify (state_to_json c)) = true.
Proof. destruct c as [msgs [s | ] created updated]; reflexivity. Qed.

(** ** The memory over a store that answers *)

Lemma Date_now_eq w : Date_now w = (Ok (now_of w), tick w).
Proof. unfold Date_now, bind, new_Date, now_of, tick. destruct (clock w); reflexivity. Qed.

Lemma kv_faults_tick w : kv_faults (tick w) = kv_faults w.
Proof. unfold tick. destruct (clock w); reflexivity. Qed.

Lemma kv_data_tick w : kv_data (tick w) = kv_data w.
Proof. unfold tick. destruct (clock w); reflexivity. Qed.

Lemma stored_tick w id : stored (tick w) id = stored w id.
Proof. unfold stored. rewrite kv_data_tick. reflexivity. Qed.

Lemma kv_command_working w : kv_faults w = [] → kv_command w = (Ok tt, w).
Proof. intros H. unfold kv_command. rewrite H. reflexivity. Qed.

Lemma getAndParse_working key w :
  kv_faults w = [] →
  getAndParse key w
  = (Ok match kv_data w !! key with
        | Some (text, _) => if truthy_string text then JSON.parse text else None
        | None => None
        end, w).
Proof.
  intros H. unfold getAndParse, try_catch, kv_get, bind.
  rewrite kv_command_working by exact H.
  destruct (kv_data w !! key) as [ [text ttl] | ]; cbn; [ | reflexivity ].
  destruct (truthy_string text); [ | reflexivity ].
  destruct (JSON.parse text); reflexivity.
Qed.

Lemma loadConversation_working this id w :
  kv_faults w = [] → loadConversation this id w = (Ok (stored w id), w).
Proof.
  intros H. unfold loadConversation, try_catch, bind.
  rewrite getAndParse_working by exact H. unfold stored.
  destruct (kv_data w !! getRedisKey id) as [ [text ttl] | ]; cbn; [ | reflexivity ].
  destruct (truthy_string text); reflexivity.
Qed.

Lemma setWithExpiry_working key v ex w :
  kv_faults w = [] →
  setWithExpiry key v ex w
  = (Ok true, set_kv_data (insert key (JSON.stringify v, ex)) w).
Proof.
  intros H. unfold setWithExpiry, try_catch, kv_set, bind.
  rewrite kv_command_working by exact H. reflexivity.
Qed.

Lemma saveConversation_working this id c w :
  kv_faults w = [] →
  saveConversation this id c w
  = (Ok (true, stamped c (now_of w)), saved_world this id c w).
Proof.
  intros H. unfold saveConversation, try_catch. unfold bind at 1.
  rewrite Date_now_eq. unfold bind.
  rewrite setWithExpiry_working by (rewrite kv_faults_tick; exact H).
  reflexivity.
Qed.

Lemma kv_faults_saved this id c w : kv_faults (saved_world this id c w) = kv_faults w.
Proof. unfold saved_world. cbn. apply kv_faults_tick. Qed.

Lemma stored_saved this id c w :
  stored (saved_world this id c w) id = Some (stamped c (now_of w)).
Proof.
  unfold stored, saved_world. cbn [kv_data set_kv_data].
  rewrite lookup_insert_eq, stringify_state_truthy.
  rewrite JSONFacts.parse_stringify. cbn [mbind option_bind].
  apply state_of_to_json.
Qed.

Lemma addMessage_working this id m w :
  kv_faults w = [] →
  ∃ c w', addMessage this id m w = (Ok (Some c), w')
          ∧ kv_faults w' = []
          ∧ stored w' id = Some c
          ∧ messages c = prune this (prior_messages (stored w id) ++ [m])
          ∧ summary c = summarize this (messages c) (stored w id ≫= summary).
Proof.
  intros H. unfold addMessage, try_catch. unfold bind at 1.
  rewrite loadConversation_working by exact H.
  destruct (stored w id) as [ c | ] eqn:Hstored.
  - unfold bind at 1, ret at 1. unfold bind at 1.
    rewrite saveConversation_working by exact H. cbn [fst snd ret].
    eexists _, _. split; [ reflexivity | ].
    split; [ rewrite kv_faults_saved; exact H | ].
    split; [ apply stored_saved | ]. split; reflexivity.
  - unfold bind at 1. unfold bind at 1. rewrite Date_now_eq.
    unfold bind at 1. rewrite Date_now_eq. unfold ret at 1.
    unfold bind at 1.
    rewrite saveConversation_working by (rewrite !kv_faults_tick; exact H).
    cbn [fst snd ret].
    eexists _, _. split; [ reflexivity | ].
    split; [ rewrite kv_faults_saved, !kv_faults_tick; exact H | ].
    split; [ apply stored_saved | ]. split; reflexivity.
Qed.

(** ** C3: the bound on the history *)

Section LastN.
Context {A : Type}.
Implicit Types l : list A.

Lemma length_lastn k l : length (lastn k l) = (k `min` length l)%nat.
Proof. unfold lastn. rewrite length_drop. lia. Qed.

Lemma lastn_app_one k l x : lastn (S k) (l ++ [x]) = lastn k l ++ [x].
Proof.
  unfold lastn. rewrite length_app. cbn [length].
  replace (length l + 1 - S k)%nat with (length l - k)%nat by lia.
  rewrite drop_app.
  replace (length l - k - length l)%nat with 0%nat by lia. reflexivity.
Qed.

Lemma lastn_lastn k j l : (k ≤ j)%nat → lastn k (lastn j l) = lastn k l.
Proof.
  intros Hkj. unfold lastn. rewrite length_drop, drop_drop. f_equal. lia.
Qed.

Lemma lastn_all k l : (length l ≤ k)%nat → lastn k l = l.
Proof.
  intros H. unfold lastn. replace (length l - k)%nat with 0%nat by lia.
  reflexivity.
Qed.

Lemma lastn_cons k x l : (k ≤ length l)%nat → lastn k (x :: l) = lastn k l.
Proof.
  intros H. unfold lastn. cbn [length].
  replace (S (length l) - k)%nat with (S (length l - k)) by lia. reflexivity.
Qed.
End LastN.

Section Prune.
Variable this : MemoryManager.
Hypothesis Hmax : 2 ≤ MAX_MESSAGES_TO_KEEP this.

Let cap : nat := Z.to_nat (MAX_MESSAGES_TO_KEEP this).

Lemma prune_small l :
  (length l ≤ cap)%nat → prune this l = l.
Proof.
  intros H. unfold prune, len.
  destruct (Z.ltb_spec (MAX_MESSAGES_TO_KEEP this) (Z.of_nat (length l)));
    [ subst cap; lia | reflexivity ].
Qed.

Lemma prune_big m0 l :
  (cap < length (m0 :: l))%nat →
  prune this (m0 :: l)
  = if decide (role m0 = system) then m0 :: lastn (cap - 1) (m0 :: l)
    else lastn cap (m0 :: l).
Proof.
  intros H. unfold prune, len.
  destruct (Z.ltb_spec (MAX_MESSAGES_TO_KEEP this) (Z.of_nat (length (m0 :: l))));
    [ | subst cap; lia ].
  unfold slice_from, lastn.
  destruct (decide (role m0 = system)); cbn [app length] in *.
  - destruct (Z.ltb_spec (- MAX_MESSAGES_TO_KEEP this + Z.of_nat 1) 0); [ | lia ].
    f_equal. f_equal. subst cap. lia.
  - destruct (Z.ltb_spec (- MAX_MESSAGES_TO_KEEP this + Z.of_nat 0) 0); [ | lia ].
    f_equal. subst cap. lia.
Qed.

End Prune.

Lemma take_one_more {A} (l : list A) :
  ∀ k, take (S k) l = take k l ++ take 1 (drop k l).
Proof.
  induction l as [ | x l IH ]; intros [ | k ]; try reflexivity.
  cbn [take drop app]. f_equal. apply IH.
Qed.

Section Kept.
Variable this : MemoryManager.
Hypothesis Hmax : 2 ≤ MAX_MESSAGES_TO_KEEP this.

Let cap : nat := Z.to_nat (MAX_MESSAGES_TO_KEEP this).

Lemma kept_all all : (length all ≤ cap)%nat → kept cap all = all.
Proof.
  intros H. unfold kept.
  replace (length all - cap)%nat with 0%nat by lia. cbn. apply lastn_all. exact H.
Qed.

Lemma length_kept all : (cap ≤ length all)%nat → length (kept cap all) = cap.
Proof.
  intros H. assert (2 ≤ cap)%nat by (subst cap; lia). unfold kept.
  destruct (head _); cbn [length]; rewrite length_lastn; lia.
Qed.

Lemma prune_kept all m :
  prune this (kept cap all ++ [m]) = kept cap (all ++ [m]).
Proof.
  assert (Hcap : (2 ≤ cap)%nat) by (subst cap; lia).
  destruct (decide (length all < cap)%nat) as [ Hsmall | Hbig ].
  { rewrite kept_all by lia.
    rewrite (prune_small this Hmax) by (rewrite length_app; cbn; fold cap; lia).
    symmetry. apply kept_all. rewrite length_app. cbn. lia. }
  assert (Hlen : length (kept cap all) = cap) by (apply length_kept; lia).
  set (k := (length all - cap)%nat).
  assert (Htake : take (length (all ++ [m]) - cap) (all ++ [m])
                  = take k all ++ take 1 (drop k all)).
  { rewrite length_app. cbn [length].
    replace (length all + 1 - cap)%nat with (S k) by (subst k; lia).
    rewrite take_app_le by (subst k; lia).
    apply take_one_more. }
  unfold kept at 2. rewrite Htake, filter_app.
  unfold kept. fold k.
  destruct (head (filter (λ m0, role m0 = system) (take k all))) as [ p | ] eqn:Hfind.
  - assert (Hp : role p = system).
    { apply head_Some_elem_of in Hfind. apply list_elem_of_filter in Hfind. tauto. }
    destruct (filter (λ m0, role m0 = system) (take k all)) as [ | p' rest ];
      [ discriminate Hfind | ].
    cbn [app head] in *. injection Hfind as ->.
    change ((p :: lastn (cap - 1) all) ++ [m]) with (p :: (lastn (cap - 1) all ++ [m])).
    rewrite (prune_big this Hmax)
      by (cbn [length]; rewrite length_app, length_lastn; cbn; fold cap; lia).
    rewrite decide_True by exact Hp. fold cap. f_equal.
    change (p :: lastn (cap - 1) all ++ [m]) with ((p :: lastn (cap - 1) all) ++ [m]).
    replace (cap - 1)%nat with (S (cap - 2)) at 1 3 by lia.
    rewrite !lastn_app_one. f_equal.
    rewrite lastn_cons by (rewrite length_lastn; lia).
    apply lastn_lastn. lia.
  - assert (Hnone : filter (λ m0, role m0 = system) (take k all) = []).
    { destruct (filter _ (take k all)); [ reflexivity | discriminate Hfind ]. }
    rewrite Hnone. cbn [app].
    destruct (drop k all) as [ | h tl ] eqn:Hdrop.
    { apply (f_equal length) in Hdrop. rewrite length_drop in Hdrop.
      cbn in Hdrop. subst k. lia. }
    assert (Hlastn : lastn cap all = h :: tl).
    { unfold lastn. fold k. exact Hdrop. }
    rewrite Hlastn. change (take 1 (h :: tl)) with [h]. rewrite filter_cons, filter_nil.
    change ((h :: tl) ++ [m]) with (h :: (tl ++ [m])).
    assert (Htl : length tl = (cap - 1)%nat).
    { apply (f_equal length) in Hlastn. rewrite length_lastn in Hlastn.
      cbn in Hlastn. lia. }
    rewrite (prune_big this Hmax)
      by (cbn [length]; rewrite length_app; cbn; fold cap; lia).
    fold cap. change (h :: tl ++ [m]) with ((h :: tl) ++ [m]).
    rewrite <- Hlastn.
    destruct (decide (role h = system)) as [ Hh | Hh ]; cbn [head].
    + f_equal. replace (cap - 1)%nat with (S (cap - 2)) by lia.
      rewrite !lastn_app_one. f_equal. apply lastn_lastn. lia.
    + replace cap with (S (cap - 1)) at 1 3 by lia.
      rewrite !lastn_app_one. f_equal. apply lastn_lastn. lia.
Qed.

Lemma head_kept all h :
  (cap < length all)%nat → head all = Some h → role h = system →
  head (kept cap all) = Some h.
Proof.
  intros Hlen Hhead Hh. destruct all as [ | x all ]; [ discriminate | ].
  injection Hhead as ->. unfold kept. cbn [length] in *.
  replace (S (length all) - cap)%nat with (S (length all - cap)) by lia.
  cbn [take]. rewrite filter_cons, decide_True by exact Hh. reflexivity.
Qed.

Variable id : string.

Lemma addMessages_keeps_kept msgs :
  ∀ w all,
    kv_faults w = [] → prior_messages (stored w id) = kept cap all →
    ∃ w', addMessages this id msgs w = (Ok tt, w')
          ∧ kv_faults w' = []
          ∧ prior_messages (stored w' id) = kept cap (all ++ msgs)
          ∧ (msgs ≠ [] → is_Some (stored w' id)).
Proof.
  induction msgs as [ | m rest IH ]; intros w all Hw Hprior.
  - exists w. rewrite app_nil_r. repeat split; auto. congruence.
  - cbn [addMessages].
    destruct (addMessage_working this id m w Hw)
      as (c & w1 & Hadd & Hw1 & Hstored & Hmsgs & _).
    erewrite bind_ok by exact Hadd.
    rewrite Hprior, prune_kept in Hmsgs.
    destruct (IH w1 (all ++ [m]) Hw1) as (w' & Hrun & Hw' & Hkept & Hsome).
    { rewrite Hstored. exact Hmsgs. }
    rewrite <- app_assoc in Hkept. cbn [app] in Hkept.
    exists w'. split; [ exact Hrun | ]. split; [ exact Hw' | ].
    split; [ exact Hkept | ]. intros _.
    destruct rest as [ | m' rest ]; [ | apply Hsome; discriminate ].
    cbn in Hrun. injection Hrun as <-. rewrite Hstored. eexists. reflexivity.
Qed.

End Kept.

(** C3, as the code has it.  Over a store that answers and holds under
    the key nothing or a conversation of at most the maximum number of
    messages: after more appends than the maximum, [loadConversation]
    returns exactly the maximum number of messages.  With the history,
    the stored messages followed by the appended ones, longer than the
    maximum by [k] messages: if one of its [k] oldest messages is a
    system message, the first of these is the first message and the
    maximum less one most recent messages follow it; otherwise the
    messages are the most recent ones, as many as the maximum.  Every
    other message is evicted, whatever its role.  So a system message at
    position 0 of the history stays the first message. *)
Theorem history_bounded (this : MemoryManager) (id : string)
    (msgs : list LLMMessage) (w : World) :
  2 ≤ MAX_MESSAGES_TO_KEEP this →
  kv_faults w = [] → typed_store w id →
  len (prior_messages (stored w id)) ≤ MAX_MESSAGES_TO_KEEP this →
  MAX_MESSAGES_TO_KEEP this < len msgs →
  let all := prior_messages (stored w id) ++ msgs in
  let cap := Z.to_nat (MAX_MESSAGES_TO_KEEP this) in
  ∃ c w',
    (addMessages this id msgs ;; loadConversation this id) w = (Ok (Some c), w')
    ∧ len (messages c) = MAX_MESSAGES_TO_KEEP this
    ∧ messages c = kept cap all
    ∧ (∀ h, head all = Some h → role h = system → head (messages c) = Some h).
Proof.
  intros Hmax Hw _ Hprior Hmany all cap. unfold len in *.
  destruct (addMessages_keeps_kept this Hmax id msgs w (prior_messages (stored w id)) Hw)
    as (w' & Hrun & Hw' & Hkept & Hsome).
  { symmetry. apply (kept_all this Hmax). lia. }
  destruct Hsome as [c Hc]; [ intros ->; cbn in Hmany; lia | ].
  rewrite Hc in Hkept. cbn [prior_messages] in Hkept.
  assert (Hlen : (cap < length all)%nat).
  { subst all cap. rewrite length_app. lia. }
  exists c, w'. split.
  { erewrite bind_ok by exact Hrun.
    rewrite loadConversation_working by exact Hw'. rewrite Hc. reflexivity. }
  rewrite Hkept. fold all cap.
  split; [ rewrite (length_kept this Hmax) by (fold cap; lia); subst cap; lia | ].
  split; [ reflexivity | ].
  intros h Hhead Hh. apply (head_kept this Hmax); assumption.
Qed.

Lemma history_bounded_witness :
  let msgs := mkMessage system "You are terse." None :: numbered user 50 in
  ∃ c w',
    (addMessages memoryManager "test-conversation" msgs ;;
     loadConversation memoryManager "test-conversation")
      (mkWorld ∅ [] [] [] [] [] [] [])
    = (Ok (Some c), w')
    ∧ len (messages c) = 50
    ∧ messages c = kept 50 msgs
    ∧ head (messages c) = Some (mkMessage system "You are terse." None).
Proof.
  intros msgs.
  destruct (history_bounded memoryManager "test-conversation" msgs
              (mkWorld ∅ [] [] [] [] [] [] []))
    as (c & w' & Hrun & Hlen & Hshape & Hlead).
  - cbn. lia.
  - reflexivity.
  - left. reflexivity.
  - vm_compute. discriminate.
  - vm_compute. reflexivity.
  - exists c, w'. split; [ exact Hrun | ]. split; [ exact Hlen | ].
    split; [ exact Hshape | ]. apply Hlead; reflexivity.
Defined.

Example history_ex :
  let old := mkMessage user "old" None in
  let sys := mkMessage system "SYS" None in
  ((addMessages memoryManager "A" (old :: sys :: numbered user 50) ;;
    loadConversation memoryManager "A") (mkWorld ∅ [] [] [] [] [] [] [])).1
  = Ok (Some (mkState (sys :: lastn 49 (numbered user 50))
                      (Some (generateConversationSummary
                               (old :: sys :: numbered user 8)))
                      0 0)).
Proof. vm_compute. reflexivity. Qed.

Example kept_ex :
  let old := mkMessage user "old" None in
  let sys := mkMessage system "SYS" None in
  kept 50 (old :: sys :: numbered user 50) = sys :: lastn 49 (numbered user 50)
  ∧ kept 50 (sys :: old :: numbered user 50) = sys :: lastn 49 (numbered user 50)
  ∧ kept 50 (old :: numbered user 50) = numbered user 50.
Proof. vm_compute. repeat split; reflexivity. Qed.

(** A system message that is not at position 0 when the history outgrows
    the maximum is evicted by its position: here it is the first message
    to go, while every user message, all of them younger, is still
    there. *)
Lemma system_message_evicted_first :
  let sysA := mkMessage system "A" None in
  let sysB := mkMessage system "B" None in
  let msgs := sysA :: sysB :: numbered user 49 in
  match ((addMessages memoryManager "test-conversation" msgs ;;
          loadConversation memoryManager "test-conversation")
           (mkWorld ∅ [] [] [] [] [] [] [])).1 with
  | Ok (Some c) =>
      len (messages c) = 50
      ∧ (sysB ∉ messages c)
      ∧ Forall (λ u, (u ∈ messages c)) (numbered user 49)
  | _ => False
  end.
Proof.
  intros sysA sysB msgs.
  set (r := ((addMessages memoryManager "test-conversation" msgs ;;
              loadConversation memoryManager "test-conversation")
               (mkWorld ∅ [] [] [] [] [] [] [])).1).
  vm_compute in r. subst r. cbv beta iota.
  split; [ reflexivity | ].
  split.
  - match goal with
    | |- ?P => apply (bool_decide_unpack P); vm_compute; exact I
    end.
  - match goal with
    | |- ?P => apply (bool_decide_unpack P); vm_compute; exact I
    end.
Qed.

(** ** C4: the summary *)

Lemma summary_truthy msgs :
  truthy_string (generateConversationSummary msgs) = true.
Proof.
  unfold generateConversationSummary.
  destruct (content <$> filter (λ m, role m = user) msgs); reflexivity.
Qed.

Lemma summarize_keeps this msgs s :
  truthy_string s = true → summarize this msgs (Some s) = Some s.
Proof.
  intros H. unfold summarize. cbn [truthy_opt_string]. rewrite H.
  rewrite andb_false_r. reflexivity.
Qed.

Lemma prune_within this l :
  len l ≤ MAX_MESSAGES_TO_KEEP this → prune this l = l.
Proof.
  intros H. unfold prune.
  destruct (Z.ltb_spec (MAX_MESSAGES_TO_KEEP this) (len l)); [ lia | reflexivity ].
Qed.

Section Summary.
Variable this : MemoryManager.
Variable id : string.
Hypothesis Hone : 1 ≤ SUMMARY_MESSAGE_THRESHOLD this.
Hypothesis Hfits : SUMMARY_MESSAGE_THRESHOLD this ≤ MAX_MESSAGES_TO_KEEP this.

Let threshold : nat := Z.to_nat (SUMMARY_MESSAGE_THRESHOLD this).

Lemma summary_step w m done :
  kv_faults w = [] →
  (done = [] ∧ stored w id = None)
  ∨ (∃ c, stored w id = Some c ∧ summary_state threshold done c) →
  ∃ c w', addMessage this id m w = (Ok (Some c), w')
          ∧ kv_faults w' = []
          ∧ stored w' id = Some c
          ∧ summary_state threshold (done ++ [m]) c.
Proof.
  intros Hw Hprior.
  destruct (addMessage_working this id m w Hw)
    as (c1 & w1 & Hadd & Hw1 & Hstored & Hmsgs & Hsum).
  exists c1, w1. split; [ exact Hadd | ]. split; [ exact Hw1 | ].
  split; [ exact Hstored | ].
  assert (Hpushed : ∀ l : list LLMMessage,
             (length l < threshold)%nat → prune this (l ++ [m]) = l ++ [m]).
  { intros l Hl. apply prune_within. unfold len. rewrite length_app. simpl.
    unfold threshold in *. lia. }
  assert (Hfresh : ∀ l : list LLMMessage,
             (length l < threshold)%nat → messages c1 = l ++ [m] →
             summary c1 = summarize this (l ++ [m]) None →
             summary_state threshold (l ++ [m]) c1).
  { intros l Hl Hm Hs. unfold summarize, len in Hs. cbn [truthy_opt_string negb] in Hs.
    rewrite andb_true_r, length_app in Hs. cbn [length] in Hs.
    destruct (Z.leb_spec (SUMMARY_MESSAGE_THRESHOLD this)
                         (Z.of_nat (length l + 1))) as [Hreach | Hbelow].
    - right. split; [ rewrite length_app; cbn [length]; unfold threshold in *; lia | ].
      rewrite Hs. f_equal. f_equal. symmetry. apply take_ge.
      rewrite length_app. cbn [length]. unfold threshold in *. lia.
    - left. split; [ rewrite length_app; cbn [length]; unfold threshold in *; lia | ].
      split; [ exact Hm | exact Hs ]. }
  destruct Hprior as [[-> Hnone] | (c & Hc & [(Hlt & Hdone & Hno) | (Hge & Hyes)])].
  - rewrite Hnone in Hmsgs, Hsum. cbn [prior_messages] in Hmsgs.
    assert (Hlt : (@length LLMMessage [] < threshold)%nat)
      by (cbn; unfold threshold in *; lia).
    rewrite Hpushed in Hmsgs by exact Hlt. rewrite Hmsgs in Hsum.
    apply Hfresh; assumption.
  - rewrite Hc in Hmsgs, Hsum. cbn [prior_messages mbind option_bind] in Hmsgs, Hsum.
    rewrite Hdone, Hpushed in Hmsgs by exact Hlt.
    rewrite Hmsgs, Hno in Hsum. apply Hfresh; assumption.
  - right. split; [ rewrite length_app; lia | ].
    rewrite Hc in Hsum. cbn [mbind option_bind] in Hsum.
    rewrite Hyes, summarize_keeps in Hsum by apply summary_truthy.
    rewrite Hsum, take_app_le by exact Hge. reflexivity.
Qed.

Lemma summary_run rest :
  ∀ done w,
    kv_faults w = [] →
    (done = [] ∧ stored w id = None)
    ∨ (∃ c, stored w id = Some c ∧ summary_state threshold done c) →
    ∃ w', addMessages this id rest w = (Ok tt, w')
          ∧ kv_faults w' = []
          ∧ ((done ++ rest = [] ∧ stored w' id = None)
             ∨ (∃ c, stored w' id = Some c ∧ summary_state threshold (done ++ rest) c)).
Proof.
  induction rest as [ | m rest IH ]; intros done w Hw Hprior.
  - exists w. rewrite app_nil_r. auto.
  - destruct (summary_step w m done Hw Hprior)
      as (c & w1 & Hadd & Hw1 & Hstored & Hstate).
    destruct (IH (done ++ [m]) w1 Hw1) as (w' & Hrun & Hw' & Hend).
    { right. exists c. auto. }
    exists w'. cbn [addMessages]. erewrite bind_ok by exact Hadd.
    rewrite <- app_assoc in Hend. auto.
Qed.

Lemma summary_of_run msgs w :
  kv_faults w = [] → stored w id = None →
  ∃ o w',
    (addMessages this id msgs ;; loadConversation this id) w = (Ok o, w')
    ∧ o ≫= summary
      = if len msgs <? SUMMARY_MESSAGE_THRESHOLD this then None
        else Some (generateConversationSummary (take threshold msgs)).
Proof.
  intros Hw Hnone.
  destruct (summary_run msgs [] w Hw) as (w' & Hrun & Hw' & Hend); [ auto | ].
  cbn [app] in Hend. exists (stored w' id), w'. split.
  { erewrite bind_ok by exact Hrun. apply loadConversation_working, Hw'. }
  unfold len.
  destruct Hend as [[-> ->] | (c & -> & [(Hlt & _ & Hno) | (Hge & Hyes)])];
    cbn [mbind option_bind length].
  - destruct (Z.ltb_spec (Z.of_nat 0) (SUMMARY_MESSAGE_THRESHOLD this));
      [ reflexivity | lia ].
  - destruct (Z.ltb_spec (Z.of_nat (length msgs)) (SUMMARY_MESSAGE_THRESHOLD this));
      [ exact Hno | unfold threshold in *; lia ].
  - destruct (Z.ltb_spec (Z.of_nat (length msgs)) (SUMMARY_MESSAGE_THRESHOLD this));
      [ unfold threshold in *; lia | exact Hyes ].
Qed.
End Summary.

(** C4.  With a threshold between 1 and the maximum (10 and 50 by
    default), over a store that answers: on a new conversation, one whose
    key the store does not hold, the summary is absent as long as fewer
    messages than the threshold were appended, and from the append that
    reaches the threshold on it is the summary of the messages there were
    at that moment, however many more follow; and whenever a stored
    conversation has a summary, an append leaves it as it is. *)
Theorem summary_generated_once (this : MemoryManager) (id : string) :
  1 ≤ SUMMARY_MESSAGE_THRESHOLD this →
  SUMMARY_MESSAGE_THRESHOLD this ≤ MAX_MESSAGES_TO_KEEP this →
  (∀ msgs w,
     kv_faults w = [] → kv_data w !! getRedisKey id = None →
     ∃ o w',
       (addMessages this id msgs ;; loadConversation this id) w = (Ok o, w')
       ∧ o ≫= summary
         = if len msgs <? SUMMARY_MESSAGE_THRESHOLD this then None
           else Some (generateConversationSummary
                        (take (Z.to_nat (SUMMARY_MESSAGE_THRESHOLD this)) msgs)))
  ∧ (∀ m w c s,
       kv_faults w = [] → stored w id = Some c →
       summary c = Some s → truthy_string s = true →
       ∃ c' w', addMessage this id m w = (Ok (Some c'), w')
                ∧ stored w' id = Some c'
                ∧ summary c' = Some s).
Proof.
  intros Hone Hfits. split.
  - intros msgs w Hw Hnone. apply summary_of_run; try assumption.
    unfold stored. rewrite Hnone. reflexivity.
  - intros m w c s Hw Hc Hs Htruthy.
    destruct (addMessage_working this id m w Hw)
      as (c' & w' & Hadd & _ & Hstored & _ & Hsum).
    exists c', w'. split; [ exact Hadd | ]. split; [ exact Hstored | ].
    rewrite Hc in Hsum. cbn [mbind option_bind] in Hsum.
    rewrite Hs, summarize_keeps in Hsum by exact Htruthy. exact Hsum.
Qed.

Lemma summary_generated_once_witness :
  let msgs := numbered user 12 in
  ∃ o w',
    (addMessages memoryManager "test-conversation" msgs ;;
     loadConversation memoryManager "test-conversation")
      (mkWorld ∅ [] [] [] [] [] [] [])
    = (Ok o, w')
    ∧ o ≫= summary = Some (generateConversationSummary (take 10 msgs)).
Proof.
  intros msgs.
  destruct (summary_generated_once memoryManager "test-conversation") as [Hrun _].
  - cbn. lia.
  - cbn. lia.
  - apply (Hrun msgs (mkWorld ∅ [] [] [] [] [] [] [])); reflexivity.
Defined.

Example summary_ex :
  generateConversationSummary
    [mkMessage user "Plan a trip to Rome. Three days." None;
     mkMessage assistant "Sure. When?" None;
     mkMessage user "  ...  " None;
     mkMessage user "In May! Is it warm?" None]
  = "The conversation covers these topics: Plan a trip to Rome. In May.".
Proof. vm_compute. reflexivity. Qed.

Example trim_ex :
  let nbsp := String (ascii_of_nat 160) EmptyString in
  trim (nbsp +:+ " Rome " +:+ nbsp) = "Rome"
  ∧ first_sentence (nbsp +:+ "." +:+ nbsp +:+ "Rome. Three days.") = "Rome.".
Proof. vm_compute. split; reflexivity. Qed.

(** ** C9: save, then load *)

Lemma stringify_truthy v : truthy_string (JSON.stringify v) = true.
Proof.
  unfold JSON.stringify.
  destruct (JSONFacts.print_start v) as (c & l & -> & _). reflexivity.
Qed.

(** C9, as the code has it.  Over a store that answers, [saveConversation]
    followed by [loadConversation] under the same key returns the record
    that was saved with its messages (order and content), its summary and
    its [createdAt] as they were, and with [updatedAt] set to the time of
    the save, which is also what the caller's record holds after the call.
    Underneath, what [setWithExpiry] writes, [getAndParse] reads back as
    it was. *)
Theorem save_then_load (this : MemoryManager) (id : string)
    (state : ConversationState) (w : World) :
  kv_faults w = [] →
  (∃ saved w1,
     saveConversation this id state w = (Ok (true, saved), w1)
     ∧ loadConversation this id w1 = (Ok (Some saved), w1)
     ∧ messages saved = messages state
     ∧ summary saved = summary state
     ∧ createdAt saved = createdAt state
     ∧ updatedAt saved = now_of w)
  ∧ (∀ key value ttl,
       ∃ w1, setWithExpiry key value ttl w = (Ok true, w1)
             ∧ getAndParse key w1 = (Ok (Some value), w1)).
Proof.
  intros Hw. split.
  - exists (stamped state (now_of w)), (saved_world this id state w).
    split; [ apply saveConversation_working, Hw | ].
    split; [ | repeat split ].
    rewrite loadConversation_working by (rewrite kv_faults_saved; exact Hw).
    rewrite stored_saved. reflexivity.
  - intros key value ttl. eexists. split; [ apply setWithExpiry_working, Hw | ].
    rewrite getAndParse_working by exact Hw. cbn [kv_data set_kv_data].
    rewrite lookup_insert_eq, stringify_truthy, JSONFacts.parse_stringify.
    reflexivity.
Qed.

Lemma save_then_load_witness :
  let state := mkState [mkMessage system "Be brief." None;
                        mkMessage user "Hi" (Some "ann")]
                       (Some "The conversation covers these topics: Hi.") 5 7 in
  ∃ saved w1,
    saveConversation memoryManager "test-conversation" state
      (mkWorld ∅ [] [mkDate 9 EmptyString EmptyString] [] [] [] [] [])
    = (Ok (true, saved), w1)
    ∧ loadConversation memoryManager "test-conversation" w1 = (Ok (Some saved), w1)
    ∧ messages saved = messages state
    ∧ summary saved = summary state
    ∧ createdAt saved = 5
    ∧ updatedAt saved = 9.
Proof.
  intros state.
  destruct (save_then_load memoryManager "test-conversation" state
              (mkWorld ∅ [] [mkDate 9 EmptyString EmptyString] [] [] [] [] [])) as [H _].
  - reflexivity.
  - exact H.
Defined.

(** The record that comes back is not the record that went in: its
    [updatedAt] is the time of the save. *)
Lemma save_then_load_restamps :
  let state := mkState [mkMessage user "Hi" None] None 1 1 in
  let w := mkWorld ∅ [] [mkDate 2 EmptyString EmptyString] [] [] [] [] [] in
  ((saveConversation memoryManager "test-conversation" state ;;
    loadConversation memoryManager "test-conversation") w).1
  = Ok (Some (mkState [mkMessage user "Hi" None] None 1 2))
  ∧ mkState [mkMessage user "Hi" None] None 1 2 ≠ state.
Proof.
  intros state w. split; [ vm_compute; reflexivity | discriminate ].
Qed.

(* ------------------------------------------------------------------ *)
(** * Further properties of the code *)

(** ** The memory over a store that may refuse *)

Lemma kv_command_cases w :
  ∃ w', kv_command w
        = (if refusing w then Throw (mkError "kv: command failed") else Ok tt, w')
        ∧ kv_data w' = kv_data w ∧ kv_faults w' = tail (kv_faults w)
        ∧ clock w' = clock w.
Proof.
  unfold kv_command, refusing.
  destruct (kv_faults w) as [ | [] fs ] eqn:Hf; eexists;
    (split; [ reflexivity | ]); cbn; rewrite ?Hf; auto.
Qed.

Lemma getRedisKey_inj id id' : getRedisKey id = getRedisKey id' → id = id'.
Proof. unfold getRedisKey. intros H. injection H. auto. Qed.

Lemma stored_ext w w' id : kv_data w' = kv_data w → stored w' id = stored w id.
Proof. intros H. unfold stored. rewrite H. reflexivity. Qed.

Lemma loadConversation_reads this id w :
  ∃ w', loadConversation this id w
        = (Ok (if refusing w then None else stored w id), w')
        ∧ kv_data w' = kv_data w ∧ kv_faults w' = tail (kv_faults w)
        ∧ clock w' = clock w.
Proof.
  destruct (kv_command_cases w) as (w1 & Hc & Hdata & Hfaults & Hclock).
  exists w1. split; [ | auto ].
  unfold loadConversation, getAndParse, kv_get, try_catch, bind. rewrite Hc.
  unfold stored. rewrite <- Hdata.
  destruct (refusing w); [ reflexivity | ].
  destruct (kv_data w1 !! getRedisKey id) as [ [text ttl] | ]; cbn; [ | reflexivity ].
  destruct (truthy_string text); [ | reflexivity ].
  destruct (JSON.parse text); reflexivity.
Qed.

Lemma saveConversation_cases this id c w :
  saveConversation this id c w
  = if refusing w
    then (Ok (false, stamped c (now_of w)), set_kv_faults (tail (kv_faults w)) (tick w))
    else (Ok (true, stamped c (now_of w)),
          set_kv_faults (tail (kv_faults w)) (saved_world this id c w)).
Proof.
  unfold saveConversation, try_catch. unfold bind at 1. rewrite Date_now_eq.
  unfold bind, setWithExpiry, try_catch, kv_set, bind, kv_command, refusing.
  rewrite kv_faults_tick.
  destruct (kv_faults w) as [ | [] fs ] eqn:Hf; cbn.
  - unfold saved_world, stamped, set_kv_faults, set_kv_data. cbn.
    rewrite kv_faults_tick, Hf. destruct (tick w); reflexivity.
  - reflexivity.
  - reflexivity.
Qed.

Lemma deleteConversation_working this id w :
  kv_faults w = [] →
  deleteConversation this id w
  = (Ok true, set_kv_data (delete (getRedisKey id)) w).
Proof.
  intros H. unfold deleteConversation, try_catch, kv_del, bind.
  rewrite kv_command_working by exact H. reflexivity.
Qed.

(** X1.  [deleteConversation] never rejects.  Unless the store refuses the
    command it answers true, whether the conversation existed or not:
    afterwards a load of that conversation gives null, and every other
    conversation is as it was.  When the store refuses, the answer is
    false and nothing was removed. *)
Theorem deleteConversation_forgets (this : MemoryManager) (id : string) (w : World) :
  ∃ w', deleteConversation this id w = (Ok (negb (refusing w)), w')
        ∧ if refusing w then kv_data w' = kv_data w
          else stored w' id = None
               ∧ (∀ other, other ≠ id → stored w' other = stored w other)
               ∧ (loadConversation this id w').1 = Ok None.
Proof.
  destruct (kv_command_cases w) as (w1 & Hc & Hdata & Hfaults & Hclock).
  unfold deleteConversation, try_catch, kv_del, bind. rewrite Hc.
  destruct (refusing w).
  - exists w1. split; [ reflexivity | exact Hdata ].
  - eexists. split; [ reflexivity | ].
    assert (Hgone : stored (set_kv_data (delete (getRedisKey id)) w1) id = None).
    { unfold stored. cbn. rewrite lookup_delete_eq. reflexivity. }
    split; [ exact Hgone | ]. split.
    + intros other Hne. unfold stored. cbn.
      rewrite lookup_delete_ne, Hdata; [ reflexivity | ].
      intros H. apply Hne. symmetry. apply getRedisKey_inj. exact H.
    + destruct (loadConversation_reads this id
                  (set_kv_data (delete (getRedisKey id)) w1)) as (w2 & -> & _).
      rewrite Hgone. destruct (refusing _); reflexivity.
Qed.

Lemma refusing_tick w : refusing (tick w) = refusing w.
Proof. unfold refusing. rewrite kv_faults_tick. reflexivity. Qed.

Lemma refusing_ext w w' : kv_faults w' = kv_faults w → refusing w' = refusing w.
Proof. intros H. unfold refusing. rewrite H. reflexivity. Qed.

Lemma stored_set_kv_faults fs w id : stored (set_kv_faults fs w) id = stored w id.
Proof. reflexivity. Qed.

(** What an append does, by what the store does to its read and to its
    write. *)
Lemma addMessage_cases this id m w :
  ∃ w1 c,
    kv_data w1 = kv_data w ∧ kv_faults w1 = tail (kv_faults w)
    ∧ messages c
      = prune this (prior_messages (if refusing w then None else stored w id) ++ [m])
    ∧ summary c
      = summarize this (messages c)
          ((if refusing w then None else stored w id) ≫= summary)
    ∧ addMessage this id m w
      = if refusing w1
        then (Ok None, set_kv_faults (tail (kv_faults w1)) (tick w1))
        else (Ok (Some (stamped c (now_of w1))),
              set_kv_faults (tail (kv_faults w1)) (saved_world this id c w1)).
Proof.
  destruct (loadConversation_reads this id w) as (w0 & Hload & Hdata & Hfaults & _).
  unfold addMessage, try_catch. unfold bind at 1. rewrite Hload.
  destruct (if refusing w then None else stored w id) as [ c0 | ].
  - unfold bind at 1, ret at 1. unfold bind at 1.
    rewrite saveConversation_cases.
    exists w0.
    exists (mkState (prune this (messages c0 ++ [m]))
                    (summarize this (prune this (messages c0 ++ [m])) (summary c0))
                    (createdAt c0) (updatedAt c0)).
    split; [ exact Hdata | ]. split; [ exact Hfaults | ].
    split; [ reflexivity | ]. split; [ reflexivity | ].
    destruct (refusing w0); reflexivity.
  - unfold bind at 1. unfold bind at 1. rewrite Date_now_eq.
    unfold bind at 1. rewrite Date_now_eq. unfold ret at 1. unfold bind at 1.
    rewrite saveConversation_cases.
    exists (tick (tick w0)).
    exists (mkState (prune this ([] ++ [m]))
                    (summarize this (prune this ([] ++ [m])) None)
                    (now_of w0) (now_of (tick w0))).
    split; [ rewrite !kv_data_tick; exact Hdata | ].
    split; [ rewrite !kv_faults_tick; exact Hfaults | ].
    split; [ reflexivity | ]. split; [ reflexivity | ].
    destruct (refusing (tick (tick w0))); reflexivity.
Qed.

(** X2.  One refused read costs the history.  When the store refuses the
    read of an append and then takes the write, [addMessage] starts a new
    conversation: what is stored afterwards under the key is the one new
    message, whatever was stored before. *)
Theorem refused_read_restarts_history (this : MemoryManager) (id : string)
    (m : LLMMessage) (w : World) (fs : list bool) :
  1 ≤ MAX_MESSAGES_TO_KEEP this →
  kv_faults w = true :: fs → head fs ≠ Some true →
  ∃ c w', addMessage this id m w = (Ok (Some c), w')
          ∧ stored w' id = Some c
          ∧ messages c = [m].
Proof.
  intros Hmax Hf Hnext.
  destruct (addMessage_cases this id m w) as (w1 & c & _ & Hfaults & Hm & _ & ->).
  assert (Hr : refusing w = true) by (unfold refusing; rewrite Hf; reflexivity).
  assert (Hr1 : refusing w1 = false).
  { unfold refusing. rewrite Hfaults, Hf. cbn.
    destruct fs as [ | [] fs' ]; [ reflexivity | | reflexivity ].
    exfalso. apply Hnext. reflexivity. }
  rewrite Hr in Hm. rewrite Hr1.
  eexists _, _. split; [ reflexivity | ].
  split; [ rewrite stored_set_kv_faults; apply stored_saved | ].
  cbn [stamped messages]. rewrite Hm. cbn [prior_messages app].
  apply prune_within. unfold len. cbn. lia.
Qed.

Lemma refused_read_restarts_history_witness :
  ∃ c w',
    addMessage memoryManager "A" (mkMessage user "again" None)
      (mkWorld {[ getRedisKey "A" :=
                    (JSON.stringify
                       (state_to_json
                          (mkState [mkMessage user "one" None;
                                    mkMessage assistant "two" None] None 1 2)),
                     86400) ]}
               [true] [] [] [] [] [] [])
    = (Ok (Some c), w')
    ∧ stored w' "A" = Some c
    ∧ messages c = [mkMessage user "again" None].
Proof.
  apply (refused_read_restarts_history memoryManager "A" _ _ []).
  - cbn. lia.
  - reflexivity.
  - discriminate.
Defined.

(** X3.  When the store refuses the write of an append, [addMessage]
    resolves with null and the store holds what it held: the message is
    not recorded, whether the read before it was answered or not. *)
Theorem refused_write_reports_null (this : MemoryManager) (id : string)
    (m : LLMMessage) (w : World) (a : bool) (fs : list bool) :
  kv_faults w = a :: true :: fs →
  ∃ w', addMessage this id m w = (Ok None, w')
        ∧ kv_data w' = kv_data w ∧ kv_faults w' = fs.
Proof.
  intros Hf.
  destruct (addMessage_cases this id m w) as (w1 & c & Hdata & Hfaults & _ & _ & ->).
  assert (Hr1 : refusing w1 = true).
  { unfold refusing. rewrite Hfaults, Hf. reflexivity. }
  rewrite Hr1. eexists. split; [ reflexivity | ].
  cbn [kv_data kv_faults set_kv_faults]. rewrite kv_data_tick, Hfaults, Hf.
  split; [ exact Hdata | reflexivity ].
Qed.

Lemma refused_write_reports_null_witness :
  ∃ w', addMessage memoryManager "A" (mkMessage user "lost" None)
          (mkWorld ∅ [false; true] [] [] [] [] [] [])
        = (Ok None, w')
        ∧ kv_data w' = ∅ ∧ kv_faults w' = [].
Proof.
  exact (refused_write_reports_null memoryManager "A" (mkMessage user "lost" None)
           (mkWorld ∅ [false; true] [] [] [] [] [] []) false [] eq_refl).
Defined.

(** ** What pruning keeps *)
Section PruneKeeps.
Variable this : MemoryManager.
Hypothesis Hmax : 2 ≤ MAX_MESSAGES_TO_KEEP this.

Lemma last_lastn {A} k (l : list A) : (0 < k)%nat → last (lastn k l) = last l.
Proof.
  intros Hk. destruct k as [ | k ]; [ lia | ].
  destruct l as [ | x l' _ ] using rev_ind; [ reflexivity | ].
  rewrite lastn_app_one, !last_snoc. reflexivity.
Qed.

Lemma prune_last l m : last (prune this (l ++ [m])) = Some m.
Proof.
  destruct (decide (length (l ++ [m]) ≤ Z.to_nat (MAX_MESSAGES_TO_KEEP this))%nat)
    as [ Hle | Hgt ].
  - rewrite (prune_small this Hmax) by exact Hle. apply last_snoc.
  - destruct l as [ | m0 l ]; [ cbn in Hgt; lia | ].
    change ((m0 :: l) ++ [m]) with (m0 :: (l ++ [m])) in *.
    rewrite (prune_big this Hmax) by lia.
    destruct (decide (role m0 = system)).
    + change (m0 :: ?x) with ([m0] ++ x). rewrite last_app.
      rewrite last_lastn by lia.
      change (m0 :: l ++ [m]) with ((m0 :: l) ++ [m]). rewrite last_snoc.
      reflexivity.
    + rewrite last_lastn by lia.
      change (m0 :: l ++ [m]) with ((m0 :: l) ++ [m]). apply last_snoc.
Qed.

Lemma prune_length l :
  (length (prune this l) ≤ Z.to_nat (MAX_MESSAGES_TO_KEEP this))%nat.
Proof.
  destruct (decide (length l ≤ Z.to_nat (MAX_MESSAGES_TO_KEEP this))%nat)
    as [ Hle | Hgt ].
  - rewrite (prune_small this Hmax) by exact Hle. exact Hle.
  - destruct l as [ | m0 l ]; [ cbn in Hgt; lia | ].
    rewrite (prune_big this Hmax) by lia.
    destruct (decide (role m0 = system)); cbn [length];
      rewrite length_lastn; cbn [length]; lia.
Qed.

Lemma prune_sublist l : prune this l `sublist_of` l.
Proof.
  destruct (decide (length l ≤ Z.to_nat (MAX_MESSAGES_TO_KEEP this))%nat)
    as [ Hle | Hgt ].
  - rewrite (prune_small this Hmax) by exact Hle. reflexivity.
  - destruct l as [ | m0 l ]; [ cbn in Hgt; lia | ].
    rewrite (prune_big this Hmax) by lia. unfold lastn.
    destruct (decide (role m0 = system)).
    + cbn [length] in *.
      replace (S (length l) - (Z.to_nat (MAX_MESSAGES_TO_KEEP this) - 1))%nat
        with (S (length l - Z.to_nat (MAX_MESSAGES_TO_KEEP this) + 1))%nat by lia.
      cbn [drop]. apply sublist_skip, sublist_drop.
    + apply sublist_drop.
Qed.

End PruneKeeps.

(** X4.  Over a store that answers and holds under the key nothing or a
    conversation, with a maximum of at least 2: an append is stored, and a
    load right after it gives the record the append returned.  Its last
    message is the appended one, it has at most the maximum number of
    messages however many were stored before, and they are messages of
    the history before the append followed by the new one, in their
    order. *)
Theorem append_then_load (this : MemoryManager) (id : string) (m : LLMMessage)
    (w : World) :
  2 ≤ MAX_MESSAGES_TO_KEEP this → kv_faults w = [] → typed_store w id →
  ∃ c w', addMessage this id m w = (Ok (Some c), w')
          ∧ loadConversation this id w' = (Ok (Some c), w')
          ∧ last (messages c) = Some m
          ∧ len (messages c) ≤ MAX_MESSAGES_TO_KEEP this
          ∧ messages c `sublist_of` prior_messages (stored w id) ++ [m].
Proof.
  intros Hmax Hw _.
  destruct (addMessage_working this id m w Hw) as (c & w' & Hadd & Hw' & Hst & Hm & _).
  exists c, w'. split; [ exact Hadd | ].
  split; [ rewrite loadConversation_working by exact Hw'; rewrite Hst; reflexivity | ].
  rewrite Hm. split; [ apply prune_last; exact Hmax | ].
  split; [ | apply prune_sublist; exact Hmax ].
  pose proof (prune_length this Hmax (prior_messages (stored w id) ++ [m])).
  unfold len. lia.
Qed.

Lemma append_then_load_witness :
  let before := mkState [mkMessage user "hello" None] None 1 1 in
  let w := mkWorld {[ getRedisKey "A" := (JSON.stringify (state_to_json before), 5) ]}
                   [] [] [] [] [] [] [] in
  ∃ c w',
    addMessage memoryManager "A" (mkMessage assistant "Hello!" None) w
    = (Ok (Some c), w')
    ∧ loadConversation memoryManager "A" w' = (Ok (Some c), w')
    ∧ last (messages c) = Some (mkMessage assistant "Hello!" None)
    ∧ len (messages c) ≤ MAX_MESSAGES_TO_KEEP memoryManager
    ∧ messages c `sublist_of` [mkMessage user "hello" None;
                               mkMessage assistant "Hello!" None].
Proof.
  intros before w.
  apply (append_then_load memoryManager "A" (mkMessage assistant "Hello!" None) w).
  - cbn. lia.
  - reflexivity.
  - right. exists before. vm_compute. reflexivity.
Defined.

Lemma addMessages_exact this id msgs :
  ∀ w, kv_faults w = [] →
       len (prior_messages (stored w id) ++ msgs) ≤ MAX_MESSAGES_TO_KEEP this →
       ∃ w', addMessages this id msgs w = (Ok tt, w')
             ∧ kv_faults w' = []
             ∧ (msgs ≠ [] → is_Some (stored w' id))
             ∧ prior_messages (stored w' id) = prior_messages (stored w id) ++ msgs.
Proof.
  induction msgs as [ | m rest IH ]; intros w Hw Hfits.
  - exists w. rewrite app_nil_r. split; [ reflexivity | ].
    split; [ exact Hw | ]. split; [ congruence | reflexivity ].
  - cbn [addMessages].
    destruct (addMessage_working this id m w Hw)
      as (c & w1 & Hadd & Hw1 & Hstored & Hmsgs & _).
    erewrite bind_ok by exact Hadd.
    rewrite prune_within in Hmsgs
      by (unfold len in *; rewrite !length_app in *; cbn [length] in *; lia).
    assert (Hprior : prior_messages (stored w1 id)
                     = prior_messages (stored w id) ++ [m])
      by (rewrite Hstored; exact Hmsgs).
    destruct (IH w1 Hw1) as (w' & Hrun & Hw' & Hsome & Hall).
    { rewrite Hprior, <- app_assoc. exact Hfits. }
    exists w'. split; [ exact Hrun | ]. split; [ exact Hw' | ].
    rewrite Hprior, <- app_assoc in Hall. split; [ | exact Hall ].
    intros _. destruct rest as [ | m' rest ]; [ | apply Hsome; discriminate ].
    cbn in Hrun. injection Hrun as <-. rewrite Hstored. eexists. reflexivity.
Qed.

(** X5.  A conversation built from scratch is read back as it was
    written.  Over a store that answers: after the conversation is
    deleted and one or more messages are appended, no more of them than
    the maximum, a load gives a conversation whose messages are exactly
    the appended ones, in order. *)
Theorem conversation_from_scratch (this : MemoryManager) (id : string)
    (msgs : list LLMMessage) (w : World) :
  kv_faults w = [] → msgs ≠ [] → len msgs ≤ MAX_MESSAGES_TO_KEEP this →
  ∃ c w',
    (deleteConversation this id ;; addMessages this id msgs ;;
     loadConversation this id) w
    = (Ok (Some c), w')
    ∧ messages c = msgs.
Proof.
  intros Hw Hsome Hfits.
  pose proof (deleteConversation_working this id w Hw) as Hdel.
  set (w1 := set_kv_data (delete (getRedisKey id)) w) in *.
  assert (Hw1 : kv_faults w1 = []) by exact Hw.
  assert (Hgone : stored w1 id = None).
  { unfold stored, w1. cbn. rewrite lookup_delete_eq. reflexivity. }
  destruct (addMessages_exact this id msgs w1 Hw1) as (w2 & Hrun & Hw2 & Hst & Hall).
  { rewrite Hgone. exact Hfits. }
  erewrite bind_ok by exact Hdel. erewrite bind_ok by exact Hrun.
  rewrite loadConversation_working by exact Hw2.
  destruct (Hst Hsome) as [c Hc]. exists c, w2. rewrite Hc.
  split; [ reflexivity | ]. rewrite Hc, Hgone in Hall. exact Hall.
Qed.

Lemma conversation_from_scratch_witness :
  ∃ c w',
    (deleteConversation memoryManager "test-conversation" ;;
     addMessages memoryManager "test-conversation"
       [mkMessage user "Test message 1" None;
        mkMessage assistant "Test response 1" None] ;;
     loadConversation memoryManager "test-conversation")
      (mkWorld ∅ [] [] [] [] [] [] [])
    = (Ok (Some c), w')
    ∧ messages c = [mkMessage user "Test message 1" None;
                    mkMessage assistant "Test response 1" None].
Proof.
  apply (conversation_from_scratch memoryManager "test-conversation").
  - reflexivity.
  - discriminate.
  - unfold len. cbn. lia.
Defined.

(** X7.  Every append renews the expiry.  Over a store that answers and
    holds under the key nothing or a conversation, after [addMessage] the
    conversation's key holds its text with a time to live of
    [MEMORY_EXPIRY_SECONDS] (24 hours), whatever time to live the entry
    had before. *)
Theorem append_renews_expiry (this : MemoryManager) (id : string)
    (m : LLMMessage) (w : World) :
  kv_faults w = [] → typed_store w id →
  ∃ text, kv_data (addMessage this id m w).2 !! getRedisKey id
          = Some (text, MEMORY_EXPIRY_SECONDS this).
Proof.
  intros Hw _.
  destruct (addMessage_cases this id m w) as (w1 & c & _ & Hfaults & _ & _ & ->).
  assert (Hr1 : refusing w1 = false).
  { unfold refusing. rewrite Hfaults, Hw. reflexivity. }
  rewrite Hr1. cbn [snd kv_data set_kv_faults saved_world set_kv_data].
  eexists. apply lookup_insert_eq.
Qed.

Lemma append_renews_expiry_witness :
  let before := mkState [mkMessage user "hello" None] None 1 1 in
  let w := mkWorld {[ getRedisKey "A" := (JSON.stringify (state_to_json before), 5) ]}
                   [] [] [] [] [] [] [] in
  ∃ text,
    kv_data (addMessage memoryManager "A" (mkMessage user "hi" None) w).2
      !! getRedisKey "A"
    = Some (text, 86400).
Proof.
  intros before w.
  apply (append_renews_expiry memoryManager "A" (mkMessage user "hi" None) w).
  - reflexivity.
  - right. exists before. vm_compute. reflexivity.
Defined.

(** ** The summary *)

Lemma topics_filter (msgs : list LLMMessage) :
  filter (λ s, truthy_string s = true)
         (first_sentence <$> (content <$> filter (λ m, role m = user) msgs))
  = (λ m, first_sentence (content m)) <$> filter has_topic msgs.
Proof.
  induction msgs as [ | m msgs IH ]; [ reflexivity | ].
  rewrite (filter_cons (λ m, role m = user)), (filter_cons has_topic).
  destruct (decide (role m = user)) as [ Hu | Hu ].
  - cbn [fmap list_fmap]. rewrite filter_cons.
    destruct (decide (truthy_string (first_sentence (content m)) = true)) as [ Ht | Ht ];
      fold (fmap (M := list) content) (fmap (M := list) first_sentence).
    + rewrite decide_True by (split; assumption).
      cbn [fmap list_fmap]. f_equal. exact IH.
    + rewrite decide_False by (intros [_ H]; contradiction). exact IH.
  - rewrite decide_False by (intros [H _]; contradiction). exact IH.
Qed.

Lemma slice_from_last_five {A} (a b : list A) :
  length b = 5%nat → slice_from (-5) (a ++ b) = b.
Proof.
  intros Hb. unfold slice_from. cbn [Z.ltb Z.compare].
  rewrite length_app, Hb.
  replace (Z.to_nat (Z.max (Z.of_nat (length a + 5) + -5) 0)) with (length a) by lia.
  apply drop_app_length.
Qed.

Lemma slice_from_five {A} (b : list A) :
  length b = 5%nat → slice_from (-5) b = b.
Proof. apply (slice_from_last_five []). Qed.

(** X8.  The summary is made of the user's messages only, and of the
    last five of them that give it a sentence: a history whose messages
    of that kind end with the five [recent] has the summary of these five
    alone. *)
Theorem summary_covers_last_five (msgs older recent : list LLMMessage) :
  filter has_topic msgs = older ++ recent → length recent = 5%nat →
  generateConversationSummary msgs = generateConversationSummary recent.
Proof.
  intros Hsplit Hfive.
  assert (Hall : Forall has_topic recent).
  { apply Forall_forall. intros m Hm.
    assert (m ∈ filter has_topic msgs) as Hin by (rewrite Hsplit; set_solver).
    apply list_elem_of_filter in Hin. tauto. }
  assert (Hsame : filter has_topic recent = recent).
  { clear -Hall. induction Hall as [ | m l Hm _ IH ]; [ reflexivity | ].
    rewrite filter_cons, decide_True by exact Hm. f_equal. exact IH. }
  unfold generateConversationSummary. rewrite !topics_filter, Hsplit, Hsame.
  rewrite fmap_app, slice_from_last_five by (rewrite length_fmap; exact Hfive).
  rewrite slice_from_five by (rewrite length_fmap; exact Hfive).
  destruct recent as [ | r recent' ]; [ discriminate Hfive | ].
  assert (Hr : r ∈ filter (λ m, role m = user) msgs).
  { apply list_elem_of_filter. split.
    - apply Forall_cons in Hall. apply Hall.
    - assert (r ∈ filter has_topic msgs) as Hin by (rewrite Hsplit; set_solver).
      apply list_elem_of_filter in Hin. tauto. }
  destruct (filter (λ m, role m = user) msgs) as [ | u us ];
    [ apply elem_of_nil in Hr; contradiction | ].
  rewrite filter_cons, decide_True by (apply Forall_cons in Hall; apply Hall).
  reflexivity.
Qed.

Lemma summary_covers_last_five_witness :
  generateConversationSummary
    (mkMessage user "Zero. And more." None
     :: mkMessage assistant "Noted." None :: numbered user 5)
  = generateConversationSummary (numbered user 5).
Proof.
  apply (summary_covers_last_five _ [mkMessage user "Zero. And more." None]).
  - vm_compute. reflexivity.
  - reflexivity.
Defined.

(** ** Search *)

Lemma summarizeSearchResults_head r rest :
  ∃ s, summarizeSearchResults (r :: rest) = String "["%char s.
Proof.
  unfold summarizeSearchResults. cbn [search_entries].
  destruct (truthy_string (sr_date r)); destruct (search_entries _ rest);
    cbn; eexists; reflexivity.
Qed.

(** X9.  [summarizeSearchResults] gives its literal for no results only
    for the empty list: the summary of one or more results starts with
    the bracket of its first entry. *)
Theorem summarizeSearchResults_sentinel (results : list SearchResult) :
  summarizeSearchResults results = "No search results found." ↔ results = [].
Proof.
  split; [ | intros ->; reflexivity ].
  destruct results as [ | r rest ]; [ reflexivity | ].
  destruct (summarizeSearchResults_head r rest) as [s ->]. discriminate.
Qed.

(** X10.  [searchInternet] of a provider never rejects, and its answer is
    the summary of the first five results of the search, or of no result
    when the search request failed: [searchSearXNG] catches its own
    errors, so the apology of [searchInternet]'s handler is never the
    answer. *)
Theorem searchInternet_never_apologises (query : string) (w : World) :
  ∃ w', provider_searchInternet query w
        = (Ok (summarizeSearchResults
                 match search_net w with
                 | Some results :: _ => take 5 results
                 | _ => []
                 end), w')
        ∧ summarizeSearchResults
            match search_net w with
            | Some results :: _ => take 5 results
            | _ => []
            end
          ≠ "Unable to search the internet at the moment.".
Proof.
  assert (Hne : ∀ results, summarizeSearchResults results
                          ≠ "Unable to search the internet at the moment.").
  { intros [ | r rs ]; [ discriminate | ].
    destruct (summarizeSearchResults_head r rs) as [s ->]. discriminate. }
  unfold provider_searchInternet, searchSearXNG, try_catch, bind, new_Date.
  destruct (clock w) as [ | d ds ]; cbn [search_net set_clock];
    destruct (search_net w) as [ | [rs | ] rest ];
    eexists; (split; [ reflexivity | apply Hne ]).
Qed.

(** ** What a provider's request touches *)

#[global] Instance kv_data_unreached : Unreached kv_data.
Proof. split; reflexivity. Qed.
#[global] Instance kv_faults_unreached : Unreached kv_faults.
Proof. split; reflexivity. Qed.
#[global] Instance calls_unreached : Unreached calls.
Proof. split; reflexivity. Qed.
#[global] Instance chunks_unreached : Unreached chunks.
Proof. split; reflexivity. Qed.

Section RequestKeeps.
Context {X} (f : World → X) `{!Unreached f}.

Lemma request_keeps_new_Date : keeps f new_Date.
Proof.
  intros w. unfold new_Date. destruct (clock w); [ reflexivity | ].
  apply unreached_by_clock.
Qed.

Lemma request_keeps_sleep delay : keeps f (sleep delay).
Proof. intros w. apply unreached_by_slept. Qed.

Lemma request_keeps_searchSearXNG query n : keeps f (searchSearXNG query n).
Proof.
  unfold searchSearXNG.
  apply keeps_try_catch; [ | intros; apply keeps_ret ].
  apply keeps_bind; [ apply request_keeps_new_Date | intros _ ].
  apply keeps_bind; [ | intros; apply keeps_ret ].
  intros w. destruct (search_net w) as [ | [rs | ] rest ];
    [ reflexivity | apply unreached_by_search | apply unreached_by_search ].
Qed.

Lemma request_keeps_searchInternet query : keeps f (provider_searchInternet query).
Proof.
  unfold provider_searchInternet.
  apply keeps_try_catch; [ | intros; apply keeps_ret ].
  apply keeps_bind; [ apply request_keeps_searchSearXNG | intros; apply keeps_ret ].
Qed.

Lemma request_keeps_search_step options : keeps f (search_step options).
Proof.
  unfold search_step. destruct (last _); [ | apply keeps_ret ].
  destruct (_ && _); [ | apply keeps_ret ].
  apply keeps_bind; [ apply request_keeps_new_Date | intros _ ].
  apply keeps_try_catch; [ | intros; apply keeps_ret ].
  apply keeps_bind; [ apply request_keeps_searchInternet | intros; apply keeps_ret ].
Qed.

Lemma request_keeps_makeRequest url options : keeps f (makeRequest url options).
Proof.
  unfold makeRequest.
  apply keeps_bind; [ | intros _ ].
  { unfold enhanced_prompt. destruct (truthy_opt_string _); [ apply keeps_ret | ].
    apply keeps_bind; [ apply request_keeps_new_Date | intros; apply keeps_ret ]. }
  apply keeps_bind; [ apply request_keeps_search_step | intros _ ].
  intros w. unfold axios_post. destruct (net w) as [ | [e | data] rest ];
    [ reflexivity | apply unreached_by_net | apply unreached_by_net ].
Qed.

Lemma request_keeps_withRetry_loop {T} (fn : M T) base n :
  keeps f fn → ∀ attempt lastError, keeps f (withRetry_loop fn base n attempt lastError).
Proof.
  intros Hfn. induction n as [ | n IH ]; intros attempt lastError.
  - apply keeps_throw.
  - cbn [withRetry_loop]. apply keeps_try_catch; [ exact Hfn | intros e ].
    apply keeps_bind; [ apply request_keeps_sleep | intros _; apply IH ].
Qed.

Lemma request_keeps_withRetry url options :
  keeps f (withRetry_default (makeRequest url options)).
Proof. apply request_keeps_withRetry_loop, request_keeps_makeRequest. Qed.

Lemma request_keeps_cohere options : keeps f (CohereProvider.generateResponse options).
Proof.
  unfold CohereProvider.generateResponse.
  apply keeps_try_catch; [ | intros; apply keeps_ret ].
  apply keeps_bind; [ apply request_keeps_withRetry | intros [data | frames broken] ];
    [ | apply keeps_throw ].
  destruct (member data "text"); [ | apply keeps_throw ].
  destruct (_ || _); [ apply keeps_throw | apply keeps_ret ].
Qed.

Lemma request_keeps_openai url vendor options :
  keeps f (OpenAIStyle.generateResponse url vendor options).
Proof.
  unfold OpenAIStyle.generateResponse.
  apply keeps_try_catch; [ | intros; apply keeps_ret ].
  apply keeps_bind; [ apply request_keeps_withRetry | intros [data | frames broken] ];
    [ | apply keeps_throw ].
  destruct (negb (truthy data)); [ apply keeps_throw | ].
  destruct (member data "choices") as [ [choices | ] | ]; try apply keeps_throw.
  destruct (_ || _); [ apply keeps_throw | ].
  destruct (member (js_index0 choices) "message") as [ message | ]; [ | apply keeps_throw ].
  destruct (member message "content"); [ apply keeps_ret | apply keeps_throw ].
Qed.

Lemma request_keeps_generateResponse p options :
  p ∈ implementations → keeps f (generateResponse p options).
Proof.
  unfold implementations. rewrite !elem_of_cons, elem_of_nil.
  intros [-> | [-> | [-> | []]]];
    [ apply request_keeps_cohere | apply request_keeps_openai .. ].
Qed.

End RequestKeeps.

Lemma resolves_implementation p options :
  p ∈ implementations → resolves (generateResponse p options).
Proof.
  unfold implementations. rewrite !elem_of_cons, elem_of_nil.
  intros [-> | [-> | [-> | []]]];
    apply resolves_try_catch; intros _; apply resolves_ret.
Qed.

(** ** The requests of a provider *)

Lemma makeRequest_slept url options w :
  slept (makeRequest url options w).2 = slept w.
Proof.
  unfold makeRequest. unfold bind at 1.
  pose proof (keeps_enhanced_prompt slept options w) as Hp.
  destruct (enhanced_prompt options w) as [[prompt | e] w0]; cbn [snd] in *;
    [ | exact Hp ].
  rewrite <- Hp. unfold bind.
  pose proof (keeps_search_step slept options w0) as Hs.
  destruct (search_step options w0) as [[[] | e] w1]; cbn [snd] in *; [ | exact Hs ].
  rewrite <- Hs. unfold axios_post.
  destruct (net w1) as [ | [e | data] rest ]; reflexivity.
Qed.

Lemma retry_first_answer url options w data rest :
  net w = NetOk data :: rest →
  ∃ w', withRetry_default (makeRequest url options) w = (Ok data, w')
        ∧ net w' = rest ∧ slept w' = slept w.
Proof.
  intros Hnet. destruct (makeRequest_reply url options w) as (w1 & Htail & Hreq).
  pose proof (makeRequest_slept url options w) as Hslept.
  rewrite Hnet in Hreq, Htail. rewrite Hreq in Hslept. exists w1.
  unfold withRetry_default, withRetry. change (Z.to_nat 3) with 3%nat.
  cbn [withRetry_loop]. erewrite try_catch_ok by exact Hreq.
  split; [ reflexivity | ]. split; [ exact Htail | exact Hslept ].
Qed.

Lemma retry_all_fail url options base n :
  ∀ attempt lastError w,
    all_fail n (net w) = true →
    ∃ e w', withRetry_loop (makeRequest url options) base n (Z.of_nat attempt)
              lastError w
            = (Throw e, w')
            ∧ net w' = drop n (net w)
            ∧ slept w'
              = slept w ++ map (λ j, base * 2 ^ Z.of_nat (attempt + j)) (seq 0 n).
Proof.
  induction n as [ | n IH ]; intros attempt lastError w Hfail.
  - eexists _, _. split; [ reflexivity | ].
    split; [ reflexivity | cbn; rewrite app_nil_r; reflexivity ].
  - cbn [withRetry_loop].
    destruct (makeRequest_reply url options w) as (w1 & Hnet & Hreq).
    pose proof (makeRequest_slept url options w) as Hslept.
    rewrite Hreq in Hslept. cbn [snd] in Hslept.
    assert (∃ e, makeRequest url options w = (Throw e, w1)
                 ∧ all_fail n (net w1) = true) as (e & Hthrow & Hrest).
    { rewrite Hreq, Hnet. simpl in Hfail.
      destruct (net w) as [ | [e | data] rest ]; [ | | discriminate Hfail ].
      - eexists. split; [ reflexivity | destruct n; reflexivity ].
      - eexists. split; [ reflexivity | exact Hfail ]. }
    erewrite try_catch_throw by exact Hthrow.
    unfold bind at 1, sleep at 1.
    replace (Z.of_nat attempt + 1) with (Z.of_nat (S attempt)) by lia.
    destruct (IH (S attempt) (Some e) (set_slept (slept w1 ++ [base * 2 ^ Z.of_nat attempt]) w1))
      as (e' & w' & -> & Hnet' & Hslept'); [ exact Hrest | ].
    exists e', w'. split; [ reflexivity | ]. split.
    + rewrite Hnet'. cbn [net set_slept]. rewrite Hnet.
      destruct (net w); [ cbn [tail]; rewrite !drop_nil; reflexivity | reflexivity ].
    + rewrite Hslept'. cbn [slept set_slept]. rewrite Hslept, backoff_cons.
      rewrite <- app_assoc. reflexivity.
Qed.

Lemma implementation_apologises p options w :
  p ∈ implementations → all_fail 3 (net w) = true →
  ∃ w', generateResponse p options w = (Ok APOLOGY, w').
Proof.
  intros Hp Hfail.
  assert (Hretry : ∀ url, ∃ e w',
             withRetry_default (makeRequest url options) w = (Throw e, w'))
    by (intros url; apply withRetry_all_fail; exact Hfail).
  unfold implementations in Hp. rewrite !elem_of_cons, elem_of_nil in Hp.
  destruct Hp as [-> | [-> | [-> | []]]];
    cbn [generateResponse CohereProvider.new OpenRouterProvider.new GLHFProvider.new];
    unfold CohereProvider.generateResponse, OpenRouterProvider.generateResponse,
      GLHFProvider.generateResponse, OpenAIStyle.generateResponse;
    match goal with
    | |- context [withRetry_default (makeRequest ?url options)] =>
        destruct (Hretry url) as (e & w' & Hthrow)
    end;
    exists w'; unfold try_catch, bind; rewrite Hthrow; reflexivity.
Qed.

(** X11.  A provider asks three times before it gives up.  For the
    Cohere, OpenRouter and GLHF providers: when the next three requests
    are refused, [generateResponse] resolves with the apology after
    exactly these three requests, having waited 1000, 2000 and 4000
    milliseconds, the last of them after the last refusal. *)
Theorem provider_gives_up_after_three (p : LLMProvider)
    (options : LLMRequestOptions) (w : World) :
  p ∈ implementations → all_fail 3 (net w) = true →
  ∃ w', generateResponse p options w = (Ok APOLOGY, w')
        ∧ net w' = drop 3 (net w)
        ∧ slept w' = slept w ++ [1000; 2000; 4000].
Proof.
  intros Hp Hfail.
  assert (Hretry : ∀ url, ∃ e w',
             withRetry_default (makeRequest url options) w = (Throw e, w')
             ∧ net w' = drop 3 (net w)
             ∧ slept w' = slept w ++ [1000; 2000; 4000]).
  { intros url. apply (retry_all_fail url options 1000 3 0 None w Hfail). }
  unfold implementations in Hp. rewrite !elem_of_cons, elem_of_nil in Hp.
  destruct Hp as [-> | [-> | [-> | []]]];
    cbn [generateResponse CohereProvider.new OpenRouterProvider.new GLHFProvider.new];
    unfold CohereProvider.generateResponse, OpenRouterProvider.generateResponse,
      GLHFProvider.generateResponse, OpenAIStyle.generateResponse;
    match goal with
    | |- context [withRetry_default (makeRequest ?url options)] =>
        destruct (Hretry url) as (e & w' & Hthrow & Hnet & Hslept)
    end;
    exists w'; (split; [ | split; assumption ]);
    unfold try_catch, bind; rewrite Hthrow; reflexivity.
Qed.

Lemma provider_gives_up_after_three_witness :
  ∃ w',
    generateResponse GLHFProvider.new
      (mkRequest None [mkMessage user "hi" None] None None false false)
      (mkWorld ∅ [] []
         [NetFail (mkError "503"); NetFail (mkError "503"); NetFail (mkError "503");
          NetOk (DataJson None)]
         [] [] [] [])
    = (Ok APOLOGY, w')
    ∧ net w' = [NetOk (DataJson None)]
    ∧ slept w' = [1000; 2000; 4000].
Proof.
  apply (provider_gives_up_after_three GLHFProvider.new).
  - unfold implementations. rewrite !elem_of_cons. right. right. left. reflexivity.
  - reflexivity.
Defined.

(** X12.  Cohere's reply is read once.  When the endpoint answers the
    first request, [generateResponse] makes no other request and does not
    wait, whatever the answer is: a JSON object with a text that is not
    empty gives that text, and any other body gives the apology, without
    a retry. *)
Theorem cohere_answered_once (options : LLMRequestOptions) (w : World)
    (data : ResponseData) (rest : list NetReply) :
  net w = NetOk data :: rest →
  ∃ w', CohereProvider.generateResponse options w
        = (Ok match data with
              | DataJson (Some (JObj members)) =>
                  if truthy (get_field "text" members)
                  then as_string (get_field "text" members)
                  else APOLOGY
              | _ => APOLOGY
              end, w')
        ∧ net w' = rest ∧ slept w' = slept w.
Proof.
  intros Hnet.
  destruct (retry_first_answer (CohereProvider.baseUrl +:+ "/chat") options w data rest
              Hnet) as (w' & Hretry & Hrest & Hslept).
  exists w'. split; [ | split; assumption ].
  unfold CohereProvider.generateResponse, try_catch, bind. rewrite Hretry.
  destruct data as [ [ [ | b | n | s | l | members ] | ] | frames broken ];
    cbn [member js_get]; rewrite ?orb_true_r; try reflexivity.
  cbn [truthy negb orb].
  destruct (truthy (get_field "text" members)); reflexivity.
Qed.

Lemma cohere_answered_once_witness :
  ∃ w',
    CohereProvider.generateResponse
      (mkRequest None [mkMessage user "hi" None] None None false false)
      (mkWorld ∅ [] [] [NetOk (DataJson (Some (JObj [("text", JStr "Hello!")])))]
               [] [] [] [])
    = (Ok "Hello!", w')
    ∧ net w' = [] ∧ slept w' = [].
Proof.
  exact (cohere_answered_once
           (mkRequest None [mkMessage user "hi" None] None None false false)
           (mkWorld ∅ [] [] [NetOk (DataJson (Some (JObj [("text", JStr "Hello!")])))]
                    [] [] [] [])
           _ [] eq_refl).
Defined.

(** X13.  The reply of OpenRouter and GLHF is read once.  When the
    endpoint answers the first request, [generateResponse] makes no other
    request and does not wait.  A JSON object whose [choices] is an array
    that starts with an object holding a [message] with a [content] string
    gives that string; an object without [choices], or with an empty
    array of them, gives the apology. *)
Theorem openai_style_answered_once (url vendor : string)
    (options : LLMRequestOptions) (w : World) (data : ResponseData)
    (rest : list NetReply) :
  net w = NetOk data :: rest →
  ∃ r w', OpenAIStyle.generateResponse url vendor options w = (Ok r, w')
          ∧ net w' = rest ∧ slept w' = slept w
          ∧ (∀ members choice others message text,
               data = DataJson (Some (JObj members)) →
               get_field "choices" members = Some (JArr (JObj choice :: others)) →
               get_field "message" choice = Some (JObj message) →
               get_field "content" message = Some (JStr text) →
               r = text)
          ∧ (∀ members,
               data = DataJson (Some (JObj members)) →
               get_field "choices" members = None
               ∨ get_field "choices" members = Some (JArr []) →
               r = APOLOGY).
Proof.
  intros Hnet.
  destruct (retry_first_answer url options w data rest Hnet)
    as (w' & Hretry & Hrest & Hslept).
  destruct (resolves_try_catch
              (let* response := withRetry_default (makeRequest url options) in
               match response with
               | DataJson data =>
                   if negb (truthy data)
                   then throw (mkError ("Invalid response format from " +:+ vendor +:+ " API"))
                   else
                     match member data "choices" with
                     | Ok (Some choices) =>
                         if negb (truthy (Some choices)) || is_zero (js_length choices)
                         then throw (mkError ("Invalid response format from " +:+ vendor +:+ " API"))
                         else
                           match member (js_index0 choices) "message" with
                           | Ok message =>
                               match member message "content" with
                               | Ok text => ret (as_string text)
                               | Throw e => throw e
                               end
                           | Throw e => throw e
                           end
                     | Ok None => throw (mkError ("Invalid response format from " +:+ vendor +:+ " API"))
                     | Throw e => throw e
                     end
               | DataStream _ _ => throw (mkError ("Invalid response format from " +:+ vendor +:+ " API"))
               end)
              (λ _, ret APOLOGY) (λ _, resolves_ret APOLOGY) w) as (r & w2 & Hrun).
  change (OpenAIStyle.generateResponse url vendor options w = (Ok r, w2)) in Hrun.
  assert (Hw2 : w2 = w').
  { revert Hrun. unfold OpenAIStyle.generateResponse, try_catch, bind.
    rewrite Hretry. clear. unfold ret, throw.
    destruct data as [ data | ]; [ | congruence ].
    destruct (negb (truthy data)); [ congruence | ].
    destruct (member data "choices") as [ [choices | ] | ]; try congruence.
    destruct (_ || _); [ congruence | ].
    destruct (member (js_index0 choices) "message") as [ message | ];
      [ | congruence ].
    destruct (member message "content"); congruence. }
  subst w2. exists r, w'. split; [ exact Hrun | ].
  split; [ exact Hrest | ]. split; [ exact Hslept | ].
  revert Hrun. unfold OpenAIStyle.generateResponse, try_catch, bind.
  rewrite Hretry. unfold ret, throw. intros Hrun. split.
  - intros members choice others message text -> Hchoices Hmessage Hcontent.
    cbn [truthy negb member js_get] in Hrun. rewrite Hchoices in Hrun.
    assert (is_zero (js_length (JArr (JObj choice :: others))) = false) as Hlen.
    { cbn [js_length is_zero]. unfold len. cbn [length]. apply Z.eqb_neq. lia. }
    rewrite Hlen in Hrun. cbn [truthy negb orb js_index0 member js_get] in Hrun.
    rewrite Hmessage in Hrun. cbn [member js_get] in Hrun.
    rewrite Hcontent in Hrun. cbn in Hrun. congruence.
  - intros members -> [Hnone | Hempty]; cbn [truthy negb member js_get] in Hrun.
    + rewrite Hnone in Hrun. cbn in Hrun. injection Hrun as <-. reflexivity.
    + rewrite Hempty in Hrun. cbn in Hrun. injection Hrun as <-. reflexivity.
Qed.

Lemma openai_style_answered_once_witness :
  ∃ r w',
    OpenRouterProvider.generateResponse
      (mkRequest None [mkMessage user "hi" None] None None false false)
      (mkWorld ∅ [] []
         [NetOk (DataJson (Some (JObj [("choices",
            JArr [JObj [("message", JObj [("content", JStr "Hello!")])]])])))]
         [] [] [] [])
    = (Ok r, w')
    ∧ r = "Hello!".
Proof.
  destruct (openai_style_answered_once OpenRouterProvider.url "OpenRouter"
              (mkRequest None [mkMessage user "hi" None] None None false false)
              (mkWorld ∅ [] []
                 [NetOk (DataJson (Some (JObj [("choices",
                    JArr [JObj [("message", JObj [("content", JStr "Hello!")])]])])))]
                 [] [] [] [])
              _ [] eq_refl) as (r & w' & Hrun & _ & _ & Htext & _).
  exists r, w'. split; [ exact Hrun | ].
  eapply Htext; reflexivity.
Defined.

(** ** Cohere's stream, frame by frame *)

Lemma parsed_truthy text event :
  JSON.parse text = Some event → truthy_string text = true.
Proof. destruct text; [ discriminate | reflexivity ]. Qed.

Lemma member_event event key v :
  js_get event key = Some v → member (Some event) key = Ok (Some v).
Proof.
  destruct event; try discriminate. intros H. cbn in H |- *. rewrite H. reflexivity.
Qed.

Lemma cohere_frame_text frame text w :
  text_generation frame text →
  CohereProvider.frame frame w = (([mkChunk text false], Ok Continue), w).
Proof.
  intros (event & Hparse & Htype & Htext).
  unfold CohereProvider.frame, g_try_catch.
  rewrite (parsed_truthy _ _ Hparse), Hparse. cbn [negb].
  unfold g_bind at 1, g_ret at 1. unfold g_bind at 1, g_result at 1.
  rewrite (member_event _ _ _ Htype). cbn [String.eqb Ascii.eqb Bool.eqb].
  rewrite Htext. destruct text; reflexivity.
Qed.

Lemma cohere_frame_end frame w :
  stream_end frame →
  CohereProvider.frame frame w = (([done_marker], Ok Return), w).
Proof.
  intros (event & Hparse & Htype).
  unfold CohereProvider.frame, g_try_catch.
  rewrite (parsed_truthy _ _ Hparse), Hparse. cbn [negb].
  unfold g_bind at 1, g_ret at 1. unfold g_bind at 1, g_result at 1.
  rewrite (member_event _ _ _ Htype). reflexivity.
Qed.

Lemma cohere_frames frames texts final later w :
  Forall2 text_generation frames texts → stream_end final →
  frames_loop CohereProvider.frame (frames ++ final :: later) w
  = (((λ text, mkChunk text false) <$> texts) ++ [done_marker], Ok Return, w).
Proof.
  intros Hframes Hfinal. induction Hframes as [ | frame text frames texts H _ IH ].
  - cbn [app frames_loop fmap list_fmap]. unfold g_bind.
    rewrite (cohere_frame_end final w Hfinal). reflexivity.
  - cbn [app frames_loop]. unfold g_bind at 1.
    rewrite (cohere_frame_text frame text w H), IH. reflexivity.
Qed.

(** X14.  Cohere's stream is decoded event by event.  When the endpoint
    answers with a stream whose frames are text-generation events with
    the texts [texts], followed by a stream-end event, the generator
    yields one chunk for each text, in order and not flagged done, then
    the done marker, and ends: what follows the stream-end event in the
    stream is not read, not even a failure of the stream. *)
Theorem cohere_stream_decodes (options : LLMRequestOptions) (w : World)
    (frames texts : list string) (final : string) (later : list string)
    (broken : option Error) (rest : list NetReply) :
  net w = NetOk (DataStream (frames ++ final :: later) broken) :: rest →
  Forall2 text_generation frames texts → stream_end final →
  ∃ w', CohereProvider.generateStreamingResponse options w
        = ((((λ text, mkChunk text false) <$> texts) ++ [done_marker], None), w').
Proof.
  intros Hnet Hframes Hfinal.
  destruct (retry_first_answer (CohereProvider.baseUrl +:+ "/chat") (streaming options)
              w _ rest Hnet) as (w' & Hretry & _ & _).
  exists w'.
  unfold CohereProvider.generateStreamingResponse, stream_response, run_generator,
    g_try_catch.
  unfold g_bind at 1, g_lift at 1. rewrite Hretry.
  unfold g_bind at 1, for_await_frames. unfold g_bind at 1.
  rewrite (cohere_frames frames texts final later w' Hframes Hfinal).
  cbn. rewrite !app_nil_r. reflexivity.
Qed.

Lemma cohere_stream_decodes_witness :
  ∃ w',
    CohereProvider.generateStreamingResponse
      (mkRequest None [mkMessage user "hi" None] None None false false)
      (mkWorld ∅ [] []
         [NetOk (DataStream
                   [JSON.stringify (JObj [("event_type", JStr "text-generation");
                                          ("text", JStr "Hel")]);
                    JSON.stringify (JObj [("event_type", JStr "text-generation");
                                          ("text", JStr "lo")]);
                    JSON.stringify (JObj [("event_type", JStr "stream-end")]);
                    "never read"]
                   (Some (mkError "connection reset")))]
         [] [] [] [])
    = (([mkChunk "Hel" false; mkChunk "lo" false; done_marker], None), w').
Proof.
  apply (cohere_stream_decodes _ _
           [JSON.stringify (JObj [("event_type", JStr "text-generation");
                                  ("text", JStr "Hel")]);
            JSON.stringify (JObj [("event_type", JStr "text-generation");
                                  ("text", JStr "lo")])]
           ["Hel"; "lo"]
           (JSON.stringify (JObj [("event_type", JStr "stream-end")]))
           ["never read"] (Some (mkError "connection reset")) []).
  - reflexivity.
  - repeat constructor; eexists; (split; [ vm_compute; reflexivity | ]);
      split; reflexivity.
  - eexists. split; [ vm_compute; reflexivity | reflexivity ].
Defined.

(** ** The registry and the constructor *)

Module LLMFactoryMore.
Import LLMFactory LLMFactoryFacts.

Lemma getProvider_grows name model s :
  providers s ⊆ providers (getProvider name model s).2.
Proof.
  unfold getProvider.
  destruct (providers s !! providerKey name model) eqn:Hc; [ reflexivity | ].
  destruct (class_of (toLowerCase name)); [ | reflexivity ].
  cbn. apply insert_subseteq. exact Hc.
Qed.

Lemma getProvider_well_formed name model s :
  well_formed s → well_formed (getProvider name model s).2.
Proof.
  intros Hs. destruct (class_of (toLowerCase name)) as [ k | ] eqn:Hk.
  - destruct (getProvider_resolves name model s k Hs Hk) as (i & s1 & -> & _ & H & _).
    exact H.
  - unfold getProvider. rewrite Hk.
    destruct (providers s !! providerKey name model); exact Hs.
Qed.

Lemma after_calls_app requests more s :
  after_calls (requests ++ more) s = after_calls more (after_calls requests s).
Proof.
  revert s. induction requests as [ | [n m] rest IH ]; intros s; [ reflexivity | ].
  cbn. apply IH.
Qed.

Lemma after_calls_grows requests s :
  providers s ⊆ providers (after_calls requests s).
Proof.
  revert s. induction requests as [ | [n m] rest IH ]; intros s; [ reflexivity | ].
  cbn. etransitivity; [ apply (getProvider_grows n m) | apply IH ].
Qed.

Lemma after_calls_well_formed requests s :
  well_formed s → well_formed (after_calls requests s).
Proof.
  revert s. induction requests as [ | [n m] rest IH ]; intros s Hs; [ exact Hs | ].
  cbn. apply IH, getProvider_well_formed, Hs.
Qed.

(** X15.  The registry only grows.  After any run of [getProvider] calls
    from the empty registry, every cached object is an object of its own
    (no two keys share one), and whatever further calls are made, with
    whatever names, every key keeps the object it has: nothing is evicted
    or replaced. *)
Theorem registry_only_grows (requests more : list (string * option string)) :
  well_formed (after_calls requests initial)
  ∧ providers (after_calls requests initial)
    ⊆ providers (after_calls (requests ++ more) initial).
Proof.
  split.
  - apply after_calls_well_formed, initial_well_formed.
  - rewrite after_calls_app. apply after_calls_grows.
Qed.

Lemma toLowerCase_app a b : toLowerCase (a +:+ b) = toLowerCase a +:+ toLowerCase b.
Proof.
  induction a as [ | c a IH ]; [ reflexivity | ].
  change (String (lower_char c) (toLowerCase (a +:+ b))
          = String (lower_char c) (toLowerCase a +:+ toLowerCase b)).
  f_equal. exact IH.
Qed.

Lemma class_of_names lowered k :
  class_of lowered = Some k →
  lowered = "groq" ∨ lowered = "glhf" ∨ lowered = "openrouter" ∨ lowered = "cohere".
Proof.
  unfold class_of. intros H.
  destruct (String.eqb_spec lowered "groq"); [ auto | ].
  destruct (String.eqb_spec lowered "glhf"); [ auto | ].
  destruct (String.eqb_spec lowered "openrouter"); [ auto | ].
  destruct (String.eqb_spec lowered "cohere"); [ auto | discriminate H ].
Qed.

Lemma append_empty s : s +:+ EmptyString = s.
Proof.
  induction s as [ | c s IH ]; [ reflexivity | ].
  change (String c (s +:+ EmptyString) = String c s). f_equal. exact IH.
Qed.

Lemma providerKey_None name : providerKey name None = name.
Proof. apply append_empty. Qed.

Lemma providerKey_model name model :
  truthy_string model = true →
  providerKey name (Some model) = name +:+ "-" +:+ model.
Proof. intros H. unfold providerKey. cbn. rewrite H. reflexivity. Qed.

Lemma lowered_key_unknown name model k :
  class_of (toLowerCase name) = Some k →
  class_of (toLowerCase (name +:+ "-" +:+ model)) = None.
Proof.
  intros Hk. rewrite toLowerCase_app.
  destruct (class_of_names _ _ Hk) as [ -> | [ -> | [ -> | -> ]]]; reflexivity.
Qed.

(** X16.  A lookup in the cache comes before the [switch] on the name, and
    the key of (name, model) is the text [name-model].  So for a
    recognised name and a model, the text [name-model] taken as a provider
    name is refused as unknown by a registry that does not hold that key,
    and accepted once [getProvider(name, model)] was called: it then
    returns that call's object. *)
Theorem cache_hit_skips_the_switch (name model : string) (k : ProviderClass)
    (s : State) :
  class_of (toLowerCase name) = Some k → truthy_string model = true →
  providers s !! (name +:+ "-" +:+ model) = None →
  getProvider (name +:+ "-" +:+ model) None s
  = (Throw (mkError ("Unknown provider: " +:+ name +:+ "-" +:+ model)), s)
  ∧ ∃ i s1, getProvider name (Some model) s = (Ok i, s1)
            ∧ getProvider (name +:+ "-" +:+ model) None s1 = (Ok i, s1).
Proof.
  intros Hk Hm Hmiss. split.
  - unfold getProvider. rewrite providerKey_None, Hmiss.
    rewrite (lowered_key_unknown name model k Hk). reflexivity.
  - unfold getProvider at 1. rewrite (providerKey_model name model Hm), Hmiss, Hk.
    eexists _, _. split; [ reflexivity | ].
    apply getProvider_cached. rewrite providerKey_None. cbn.
    apply lookup_insert_eq.
Qed.

Lemma cache_hit_skips_the_switch_witness :
  getProvider "cohere-command-r" None initial
  = (Throw (mkError "Unknown provider: cohere-command-r"), initial)
  ∧ ∃ i s1, getProvider "cohere" (Some "command-r") initial = (Ok i, s1)
            ∧ getProvider "cohere-command-r" None s1 = (Ok i, s1).
Proof.
  exact (cache_hit_skips_the_switch "cohere" "command-r" CohereProvider initial
           eq_refl eq_refl eq_refl).
Defined.


Lemma available_recognised e :
  Forall (λ name, is_Some (class_of (toLowerCase name))) (getAvailableProviders e).
Proof.
  unfold getAvailableProviders, env.getAvailableProviders.
  destruct (truthy_string (env.GROQ_API_KEY e)),
           (truthy_string (env.GLHF_API_KEY e)),
           (truthy_string (env.OPENROUTER_API_KEY e)),
           (truthy_string (env.COHERE_API_KEY e));
    cbn; repeat constructor; eexists; reflexivity.
Qed.

Lemma available_NoDup e : NoDup (getAvailableProviders e).
Proof.
  unfold getAvailableProviders, env.getAvailableProviders.
  destruct (truthy_string (env.GROQ_API_KEY e)),
           (truthy_string (env.GLHF_API_KEY e)),
           (truthy_string (env.OPENROUTER_API_KEY e)),
           (truthy_string (env.COHERE_API_KEY e));
    cbn; match goal with |- ?P => apply (bool_decide_unpack P) end;
    vm_compute; exact I.
Qed.

Lemma cached_as_grows s s' keys objects :
  providers s ⊆ providers s' → cached_as s keys objects → cached_as s' keys objects.
Proof.
  intros Hsub H. unfold cached_as in *.
  eapply Forall2_impl; [ exact H | ]. cbn. intros key object Hk.
  eapply lookup_weaken; eassumption.
Qed.

Lemma map_getProvider_recognised names s :
  well_formed s →
  Forall (λ name, is_Some (class_of (toLowerCase name))) names →
  ∃ chain s', map_getProvider names s = (Ok chain, s')
              ∧ well_formed s' ∧ providers s ⊆ providers s'
              ∧ cached_as s' names chain.
Proof.
  intros Hs Hnames. revert s Hs.
  induction Hnames as [ | name rest [k Hk] _ IH ]; intros s Hs.
  - exists [], s. split; [ reflexivity | ]. split; [ exact Hs | ].
    split; [ reflexivity | constructor ].
  - cbn [map_getProvider].
    destruct (getProvider_resolves name None s k Hs Hk) as (i & s1 & Hget & Hi & Hs1 & _).
    pose proof (getProvider_grows name None s) as Hsub. rewrite Hget in Hsub.
    rewrite Hget. destruct (IH s1 Hs1) as (chain & s2 & -> & Hs2 & Hsub2 & Hchain).
    exists (i :: chain), s2. split; [ reflexivity | ]. split; [ exact Hs2 | ].
    split; [ etransitivity; eassumption | ].
    constructor; [ | exact Hchain ].
    rewrite providerKey_None in Hi. eapply lookup_weaken; eassumption.
Qed.

Lemma cached_as_NoDup s keys objects :
  well_formed s → NoDup keys → cached_as s keys objects →
  NoDup (object_id <$> objects).
Proof.
  intros [_ Hinj] Hkeys H. induction H as [ | key object keys objects Hk H IH ].
  - constructor.
  - apply NoDup_cons in Hkeys as [Hnew Hkeys]. cbn. apply NoDup_cons_2; [ | auto ].
    intros Hin. apply list_elem_of_fmap in Hin as (other & Hid & Hin).
    apply list_elem_of_lookup in Hin as [n Hn].
    destruct (Forall2_lookup_r _ _ _ _ _ H Hn) as (key' & Hkey' & Hother).
    assert (key = key') as -> by (eapply Hinj; eassumption).
    apply Hnew. eapply list_elem_of_lookup_2. exact Hkey'.
Qed.

Lemma createFallbackChain_resolves e s :
  well_formed s →
  ∃ chain s', createFallbackChain None e s = (Ok chain, s')
              ∧ well_formed s' ∧ providers s ⊆ providers s'
              ∧ cached_as s' (getAvailableProviders e) chain.
Proof.
  intros Hs. apply (map_getProvider_recognised _ s Hs (available_recognised e)).
Qed.

(** X17.  [createFallbackChain()] over the configured keys never throws:
    it gives one object for each available provider name, in the order
    groq, glhf, openrouter, cohere, each the one the registry holds under
    that name afterwards, all of them different objects; the registry
    keeps what it held.  [getDefaultProvider()] gives the first of them,
    and null when no key is configured. *)
Theorem fallback_chain_of_available (e : env.t) (s : State) :
  well_formed s →
  ∃ chain s', createFallbackChain None e s = (Ok chain, s')
              ∧ well_formed s' ∧ providers s ⊆ providers s'
              ∧ cached_as s' (getAvailableProviders e) chain
              ∧ NoDup (object_id <$> chain)
              ∧ (getDefaultProvider e s).1 = Ok (head chain).
Proof.
  intros Hs. unfold createFallbackChain.
  destruct (map_getProvider_recognised _ s Hs (available_recognised e))
    as (chain & s' & Hmap & Hs' & Hsub & Hchain).
  exists chain, s'. split; [ exact Hmap | ]. split; [ exact Hs' | ].
  split; [ exact Hsub | ]. split; [ exact Hchain | ].
  split; [ eapply cached_as_NoDup; eauto using available_NoDup | ].
  unfold getDefaultProvider.
  destruct (getAvailableProviders e) as [ | first others ].
  - injection Hmap as <- _. reflexivity.
  - cbn [map_getProvider] in Hmap.
    destruct (getProvider first None s) as [[i | err] s1]; [ | discriminate Hmap ].
    destruct (map_getProvider others s1) as [[rest | err] s2]; [ | discriminate Hmap ].
    injection Hmap as <- _. reflexivity.
Qed.

Lemma fallback_chain_of_available_witness :
  ∃ chain s',
    createFallbackChain None (env.mkEnv EmptyString "key1" EmptyString "key2") initial
    = (Ok chain, s')
    ∧ well_formed s' ∧ providers initial ⊆ providers s'
    ∧ cached_as s' ["glhf"; "cohere"] chain
    ∧ NoDup (object_id <$> chain)
    ∧ (getDefaultProvider (env.mkEnv EmptyString "key1" EmptyString "key2") initial).1
      = Ok (head chain).
Proof.
  exact (fallback_chain_of_available
           (env.mkEnv EmptyString "key1" EmptyString "key2") initial
           initial_well_formed).
Defined.


Lemma filter_other_objects (i : Instance) (chain : list Instance) :
  object_id i ∉ object_id <$> chain →
  filter (λ p, object_id p ≠ object_id i) chain = chain.
Proof.
  induction chain as [ | p chain IH ]; intros Hnot; [ reflexivity | ].
  cbn in Hnot. apply not_elem_of_cons in Hnot as [Hp Hrest].
  rewrite filter_cons, decide_True by congruence. f_equal. auto.
Qed.

(** X18.  [new LLMClient()] without a provider name, on a registry that
    [getProvider] alone has filled: with no key configured the
    constructor throws; otherwise the provider is the object the registry
    holds for the first available name, and the fallback providers are
    the objects it holds for the other available names, in their order
    (none when [useFallbacks] is false).  The conversation id is the one
    given unless it is missing or empty. *)
Theorem constructor_default (options : LLMClient.Config) (e : env.t)
    (randomId : string) (s : State) :
  well_formed s → truthy_opt_string (LLMClient.cfg_provider options) = false →
  match getAvailableProviders e with
  | [] =>
      LLMClient.constructor options e randomId s
      = (Throw (mkError "No LLM providers available. Check API keys configuration."),
         s)
  | first :: others =>
      ∃ this s',
        LLMClient.constructor options e randomId s = (Ok this, s')
        ∧ providers s' !! first = Some (LLMClient.this_provider this)
        ∧ cached_as s'
            (if default true (LLMClient.cfg_useFallbacks options) then others else [])
            (LLMClient.this_fallbackProviders this)
        ∧ LLMClient.this_conversationId this
          = if truthy_opt_string (LLMClient.cfg_conversationId options)
            then default EmptyString (LLMClient.cfg_conversationId options)
            else randomId
  end.
Proof.
  intros Hs Hnone. unfold LLMClient.constructor. rewrite Hnone.
  unfold getDefaultProvider.
  pose proof (available_recognised e) as Hrec.
  pose proof (available_NoDup e) as Hnodup.
  pose proof (λ s1 Hs1, map_getProvider_recognised _ s1 Hs1 Hrec) as Hchain.
  unfold createFallbackChain.
  destruct (getAvailableProviders e) as [ | first others ]; [ reflexivity | ].
  apply Forall_cons in Hrec as [[k Hk] _].
  destruct (getProvider_resolves first None s k Hs Hk) as (i & s1 & -> & Hi & Hs1 & _).
  rewrite providerKey_None in Hi.
  destruct (default true (LLMClient.cfg_useFallbacks options)).
  - destruct (Hchain s1 Hs1) as (chain & s2 & -> & Hs2 & Hsub & Hcached).
    pose proof (cached_as_NoDup s2 _ _ Hs2 Hnodup Hcached) as Hids.
    inversion Hcached as [ | ? i0 ? rest Hfirst Hrest ]; subst.
    assert (i0 = i) as ->.
    { pose proof (lookup_weaken _ _ _ _ Hi Hsub). congruence. }
    cbn in Hids. apply NoDup_cons in Hids as [Hnew _].
    eexists _, _. split; [ reflexivity | ].
    cbn [LLMClient.this_provider LLMClient.this_fallbackProviders
         LLMClient.this_conversationId].
    rewrite filter_cons, decide_False by (intros H; apply H; reflexivity).
    rewrite filter_other_objects by exact Hnew.
    split; [ exact Hfirst | ]. split; [ exact Hrest | reflexivity ].
  - eexists _, _. split; [ reflexivity | ]. cbn.
    split; [ exact Hi | ]. split; [ constructor | reflexivity ].
Qed.

Lemma constructor_default_witness :
  ∃ this s',
    LLMClient.constructor (LLMClient.mkConfig None None (Some "A") None)
      (env.mkEnv EmptyString "key1" EmptyString "key2") "r4nd0m" initial
    = (Ok this, s')
    ∧ providers s' !! "glhf" = Some (LLMClient.this_provider this)
    ∧ cached_as s' ["cohere"] (LLMClient.this_fallbackProviders this)
    ∧ LLMClient.this_conversationId this = "A".
Proof.
  exact (constructor_default (LLMClient.mkConfig None None (Some "A") None)
           (env.mkEnv EmptyString "key1" EmptyString "key2") "r4nd0m" initial
           initial_well_formed eq_refl).
Defined.

Lemma key_with_model_not_available e name model k :
  class_of (toLowerCase name) = Some k →
  name +:+ "-" +:+ model ∉ getAvailableProviders e.
Proof.
  intros Hk Hin.
  pose proof (available_recognised e) as Hrec.
  rewrite Forall_forall in Hrec. destruct (Hrec _ Hin) as [k' Hk'].
  rewrite (lowered_key_unknown name model k Hk) in Hk'. discriminate Hk'.
Qed.

(** X19.  The current provider is left out of the fallbacks by identity
    of the object, not by vendor.  With a recognised provider name and a
    model, the provider is the object cached under [name-model], which is
    none of the objects of the fallback chain: the fallback providers are
    then the objects of all available names, the provider's own vendor
    among them when its key is configured. *)
Theorem constructor_with_model_excludes_nobody (options : LLMClient.Config)
    (e : env.t) (randomId : string) (s : State) (name model : string)
    (k : ProviderClass) :
  well_formed s →
  LLMClient.cfg_provider options = Some name →
  class_of (toLowerCase name) = Some k →
  LLMClient.cfg_model options = Some model → truthy_string model = true →
  default true (LLMClient.cfg_useFallbacks options) = true →
  ∃ this s',
    LLMClient.constructor options e randomId s = (Ok this, s')
    ∧ providers s' !! (name +:+ "-" +:+ model) = Some (LLMClient.this_provider this)
    ∧ cached_as s' (getAvailableProviders e) (LLMClient.this_fallbackProviders this).
Proof.
  intros Hs Hname Hk Hmodel Hm Huse. unfold LLMClient.constructor.
  rewrite Hname, Hmodel, Huse. cbn [truthy_opt_string from_option id].
  assert (truthy_string name = true) as ->.
  { destruct name; [ discriminate Hk | reflexivity ]. }
  destruct (getProvider_resolves name (Some model) s k Hs Hk)
    as (i & s1 & -> & Hi & Hs1 & _).
  rewrite (providerKey_model name model Hm) in Hi.
  destruct (createFallbackChain_resolves e s1 Hs1)
    as (chain & s2 & -> & Hs2 & Hsub & Hcached).
  pose proof (lookup_weaken _ _ _ _ Hi Hsub) as Hi2.
  eexists _, _. split; [ reflexivity | ].
  cbn [LLMClient.this_provider LLMClient.this_fallbackProviders].
  split; [ exact Hi2 | ].
  rewrite filter_other_objects; [ exact Hcached | ].
  intros Hin. apply list_elem_of_fmap in Hin as (other & Hid & Hin).
  apply list_elem_of_lookup in Hin as [n Hn].
  destruct (Forall2_lookup_r _ _ _ _ _ Hcached Hn) as (key' & Hkey' & Hother).
  destruct Hs2 as [_ Hinj].
  assert (name +:+ "-" +:+ model = key') as <- by (eapply Hinj; eassumption).
  eapply (key_with_model_not_available e name model k Hk).
  eapply list_elem_of_lookup_2. exact Hkey'.
Qed.

Lemma constructor_with_model_excludes_nobody_witness :
  ∃ this s',
    LLMClient.constructor
      (LLMClient.mkConfig (Some "cohere") (Some "command-r") None None)
      (env.mkEnv EmptyString "key1" EmptyString "key2") "r4nd0m" initial
    = (Ok this, s')
    ∧ providers s' !! "cohere-command-r" = Some (LLMClient.this_provider this)
    ∧ cached_as s' ["glhf"; "cohere"] (LLMClient.this_fallbackProviders this).
Proof.
  exact (constructor_with_model_excludes_nobody
           (LLMClient.mkConfig (Some "cohere") (Some "command-r") None None)
           (env.mkEnv EmptyString "key1" EmptyString "key2") "r4nd0m" initial
           "cohere" "command-r" CohereProvider
           initial_well_formed eq_refl eq_refl eq_refl eq_refl eq_refl).
Defined.

End LLMFactoryMore.

(** ** The client over the providers at hand *)

Lemma try_catch_resolved {A} (body : M A) h h' w :
  (∃ a w', body w = (Ok a, w')) → try_catch body h w = try_catch body h' w.
Proof. intros (a & w' & H). unfold try_catch. rewrite H. reflexivity. Qed.

Lemma try_catch_bind_ext {A B} (m : M A) (k k' : A → M B) h w :
  (∀ a w1, k a w1 = k' a w1) →
  try_catch (let* a := m in k a) h w = try_catch (let* a := m in k' a) h w.
Proof.
  intros H. unfold try_catch, bind.
  destruct (m w) as [[a | e] w1]; [ rewrite H | ]; reflexivity.
Qed.

Lemma primary_answers p use id request w :
  resolves (generateResponse p request) →
  ∃ response w',
    (let* response := generateResponse p request in
     LLMClient.remember use id (mkMessage assistant response None) ;;
     ret response) w
    = (Ok response, w').
Proof.
  intros Hp. destruct (Hp w) as (response & w1 & Hgen).
  destruct (resolves_remember use id (mkMessage assistant response None) w1)
    as ([] & w2 & Hrem).
  exists response, w2. unfold bind. rewrite Hgen, Hrem. reflexivity.
Qed.

(** A provider that never rejects leaves the fallback providers
    unasked. *)
Lemma resolving_primary_never_falls_back p id fallbacks prompt options w :
  (∀ request, resolves (generateResponse p request)) →
  LLMClient.generateResponse (LLMClient.mkClient p id fallbacks) prompt options w
  = LLMClient.generateResponse (LLMClient.mkClient p id []) prompt options w.
Proof.
  intros Hp. unfold LLMClient.generateResponse.
  cbn [LLMClient.provider LLMClient.conversationId LLMClient.fallbackProviders].
  change (LLMClient.prepare (LLMClient.mkClient p id fallbacks))
    with (LLMClient.prepare (LLMClient.mkClient p id [])).
  apply try_catch_bind_ext. intros request w1.
  apply try_catch_resolved. apply primary_answers. apply Hp.
Qed.

(** X20.  With a provider of the Cohere, OpenRouter or GLHF class as the
    current provider, the fallback providers are never asked: these
    providers answer with their apology instead of rejecting, so
    [generateResponse] of the client does what it does with no fallback
    provider at all. *)
Theorem real_primary_never_falls_back (p : LLMProvider) (id : string)
    (fallbacks : list LLMProvider) (prompt : string) (options : LLMClient.Options)
    (w : World) :
  p ∈ implementations →
  LLMClient.generateResponse (LLMClient.mkClient p id fallbacks) prompt options w
  = LLMClient.generateResponse (LLMClient.mkClient p id []) prompt options w.
Proof.
  intros Hp. apply resolving_primary_never_falls_back.
  intros request. apply resolves_implementation. exact Hp.
Qed.

Lemma real_primary_never_falls_back_witness :
  LLMClient.generateResponse
    (LLMClient.mkClient CohereProvider.new "A" [down 1; GLHFProvider.new])
    "hi" LLMClient.no_options (mkWorld ∅ [] [] [] [] [] [] [])
  = LLMClient.generateResponse (LLMClient.mkClient CohereProvider.new "A" [])
      "hi" LLMClient.no_options (mkWorld ∅ [] [] [] [] [] [] []).
Proof.
  apply real_primary_never_falls_back.
  unfold implementations. rewrite !elem_of_cons. left. reflexivity.
Defined.

Section ClientKeeps.
Context {X} (f : World → X) `{!Unreached f}.

Lemma request_keeps_generateSystemPrompt memory : keeps f (generateSystemPrompt memory).
Proof.
  apply keeps_bind; [ apply (request_keeps_new_Date f) | intros; apply keeps_ret ].
Qed.

Lemma memory_off_keeps p id prompt options :
  p ∈ implementations → LLMClient.useMemory options = Some false →
  keeps f (LLMClient.generateResponse (LLMClient.mkClient p id []) prompt options).
Proof.
  intros Hp Hoff. unfold LLMClient.generateResponse, LLMClient.prepare.
  rewrite Hoff. cbn [from_option Datatypes.id LLMClient.remember LLMClient.provider
                     LLMClient.conversationId LLMClient.fallbackProviders
                     LLMClient.try_fallbacks].
  apply keeps_try_catch; [ | intros; apply keeps_ret ].
  apply keeps_bind.
  - apply keeps_bind; [ apply keeps_ret | intros loaded ].
    apply keeps_bind; [ apply keeps_ret | intros _ ].
    apply keeps_bind; [ | intros; apply keeps_ret ].
    destruct (truthy_opt_string _);
      [ apply keeps_ret | apply (request_keeps_generateSystemPrompt) ].
  - intros request. apply keeps_try_catch.
    + apply keeps_bind; [ apply (request_keeps_generateResponse f); exact Hp | intros r ].
      apply keeps_bind; intros; apply keeps_ret.
    + intros e. apply keeps_bind; [ apply keeps_ret | intros [r | ] ];
        [ apply keeps_ret | apply keeps_throw ].
Qed.

End ClientKeeps.

(** X21.  With [useMemory: false] and a provider of the Cohere, OpenRouter
    or GLHF class, [generateResponse] of the client sends no command to
    the store: what the store holds and what it will refuse are as
    before, whatever fallback providers the client has. *)
Theorem memory_off_leaves_store (p : LLMProvider) (id : string)
    (fallbacks : list LLMProvider) (prompt : string) (options : LLMClient.Options)
    (w : World) :
  p ∈ implementations → LLMClient.useMemory options = Some false →
  let w' := (LLMClient.generateResponse (LLMClient.mkClient p id fallbacks)
               prompt options w).2 in
  kv_data w' = kv_data w ∧ kv_faults w' = kv_faults w.
Proof.
  intros Hp Hoff w'. subst w'.
  rewrite resolving_primary_never_falls_back
    by (intros request; apply resolves_implementation; exact Hp).
  split; apply memory_off_keeps; assumption || apply _.
Qed.

Lemma memory_off_leaves_store_witness :
  let w := mkWorld ∅ [true] [] [NetOk (DataJson None)] [] [] [] [] in
  let w' := (LLMClient.generateResponse
               (LLMClient.mkClient CohereProvider.new "A" [down 1]) "hi"
               (LLMClient.mkOptions None None None (Some false) None) w).2 in
  kv_data w' = kv_data w ∧ kv_faults w' = kv_faults w.
Proof.
  intros w. apply memory_off_leaves_store; [ | reflexivity ].
  unfold implementations. rewrite !elem_of_cons. left. reflexivity.
Defined.

(** ** An exchange, as the memory records it *)

Lemma prune_last_two this l u a :
  3 ≤ MAX_MESSAGES_TO_KEEP this →
  ∃ init, prune this (l ++ [u; a]) = init ++ [u; a].
Proof.
  intros Hmax.
  assert (Hmax2 : 2 ≤ MAX_MESSAGES_TO_KEEP this) by lia.
  destruct (decide (length (l ++ [u; a]) ≤ Z.to_nat (MAX_MESSAGES_TO_KEEP this))%nat)
    as [ Hle | Hgt ].
  - exists l. apply (prune_small this Hmax2). exact Hle.
  - assert (Hlast : ∀ k x, lastn (S (S k)) (x ++ [u; a]) = lastn k x ++ [u; a]).
    { intros k x. change [u; a] with ([u] ++ [a]).
      rewrite !app_assoc, !lastn_app_one, <- !app_assoc. reflexivity. }
    destruct l as [ | m0 l ].
    + exists []. apply (prune_small this Hmax2). cbn. lia.
    + change ((m0 :: l) ++ [u; a]) with (m0 :: (l ++ [u; a])) in *.
      rewrite (prune_big this Hmax2) by lia.
      change (m0 :: (l ++ [u; a])) with ((m0 :: l) ++ [u; a]).
      destruct (Z.to_nat (MAX_MESSAGES_TO_KEEP this)) as [ | [ | [ | k ]]] eqn:Hcap;
        try lia.
      destruct (decide (role m0 = system)).
      * cbn [Nat.sub]. rewrite ?Nat.sub_0_r, Hlast.
        exists (m0 :: lastn k (m0 :: l)). reflexivity.
      * rewrite Hlast. eexists. reflexivity.
Qed.

Lemma prepare_working this prompt options w :
  kv_faults w = [] → default true (LLMClient.useMemory options) = true →
  ∃ request w1 c1,
    LLMClient.prepare this prompt options w = (Ok request, w1)
    ∧ kv_faults w1 = [] ∧ net w1 = net w
    ∧ stored w1 (LLMClient.conversationId this) = Some c1
    ∧ messages c1
      = prune memoryManager
          (prior_messages (stored w (LLMClient.conversationId this))
           ++ [mkMessage user prompt None])
    ∧ req_messages request
      = prior_messages (stored w (LLMClient.conversationId this))
        ++ [mkMessage user prompt None].
Proof.
  intros Hw Huse.
  pose proof (keeps_prepare net this prompt options w) as Hnet.
  destruct (resolves_prepare this prompt options w) as (request & w1 & Hrun).
  rewrite Hrun in Hnet. cbn [snd] in Hnet. exists request, w1.
  enough (∃ c1, kv_faults w1 = []
                ∧ stored w1 (LLMClient.conversationId this) = Some c1
                ∧ messages c1
                  = prune memoryManager
                      (prior_messages (stored w (LLMClient.conversationId this))
                       ++ [mkMessage user prompt None])
                ∧ req_messages request
                  = prior_messages (stored w (LLMClient.conversationId this))
                    ++ [mkMessage user prompt None])
    as (c1 & H1 & H2 & H3 & H4).
  { exists c1. split; [ exact Hrun | ]. split; [ exact H1 | ].
    split; [ exact Hnet | ]. split; [ exact H2 | ]. split; [ exact H3 | exact H4 ]. }
  clear Hnet. revert Hrun. unfold LLMClient.prepare. rewrite Huse.
  unfold bind at 1. rewrite (loadConversation_working _ _ _ Hw).
  unfold bind at 1. unfold LLMClient.remember, bind at 1.
  destruct (addMessage_working memoryManager (LLMClient.conversationId this)
              (mkMessage user prompt None) w Hw)
    as (c1 & w0 & -> & Hw0 & Hstored & Hmsgs & _).
  unfold ret at 1. unfold bind at 1.
  set (prompted := if truthy_opt_string (LLMClient.systemPrompt options)
                   then _ else _).
  assert (Hkeep : kv_data (prompted w0).2 = kv_data w0
                  ∧ kv_faults (prompted w0).2 = kv_faults w0).
  { subst prompted. destruct (truthy_opt_string _); [ split; reflexivity | ].
    split; apply (request_keeps_generateSystemPrompt _). }
  destruct (prompted w0) as [[enhanced | e] w2]; [ | discriminate ].
  cbn [snd] in Hkeep. destruct Hkeep as [Hdata Hfaults].
  unfold ret. intros H. injection H as <- <-.
  exists c1. split; [ rewrite Hfaults; exact Hw0 | ].
  split; [ rewrite (stored_ext _ _ _ Hdata); exact Hstored | ].
  split; [ exact Hmsgs | ].
  cbn [req_messages]. unfold prior_messages.
  destruct (stored w (LLMClient.conversationId this)); reflexivity.
Qed.

(** X22.  A call that fails is recorded as two turns.  Over a store that
    answers and holds under the conversation's key nothing or a
    conversation, with memory on and a provider of the Cohere, OpenRouter
    or GLHF class: when the next three requests to the endpoint are
    refused, [generateResponse] of the client resolves with the apology,
    and the stored conversation then ends with the user's prompt followed
    by the apology as the assistant's turn, stored like any answer. *)
Theorem exchange_recorded (p : LLMProvider) (id : string)
    (fallbacks : list LLMProvider) (prompt : string) (options : LLMClient.Options)
    (w : World) :
  p ∈ implementations →
  default true (LLMClient.useMemory options) = true →
  kv_faults w = [] → typed_store w id →
  all_fail 3 (net w) = true →
  ∃ w' c init,
    LLMClient.generateResponse (LLMClient.mkClient p id fallbacks) prompt options w
    = (Ok APOLOGY, w')
    ∧ stored w' id = Some c
    ∧ messages c
      = init ++ [mkMessage user prompt None; mkMessage assistant APOLOGY None].
Proof.
  intros Hp Huse Hw _ Hfail.
  rewrite resolving_primary_never_falls_back
    by (intros request; apply resolves_implementation; exact Hp).
  destruct (prepare_working (LLMClient.mkClient p id []) prompt options w Hw Huse)
    as (request & w1 & c1 & Hprep & Hw1 & Hnet1 & Hst1 & Hm1 & _).
  cbn [LLMClient.conversationId] in Hst1, Hm1.
  rewrite <- Hnet1 in Hfail.
  destruct (implementation_apologises p request w1 Hp Hfail) as (w2 & Hgen).
  pose proof (request_keeps_generateResponse kv_data p request Hp w1) as Hdata.
  pose proof (request_keeps_generateResponse kv_faults p request Hp w1) as Hfaults.
  rewrite Hgen in Hdata, Hfaults. cbn [snd] in Hdata, Hfaults.
  assert (Hw2 : kv_faults w2 = []) by congruence.
  destruct (addMessage_working memoryManager id (mkMessage assistant APOLOGY None)
              w2 Hw2)
    as (c2 & w3 & Hadd & _ & Hst3 & Hm3 & _).
  rewrite (stored_ext _ _ _ Hdata), Hst1 in Hm3. cbn [prior_messages] in Hm3.
  rewrite Hm1 in Hm3.
  destruct (last_Some (prune memoryManager
                         (prior_messages (stored w id) ++ [mkMessage user prompt None]))
              (mkMessage user prompt None)) as [Hlast _].
  destruct Hlast as [init1 Hinit1].
  { apply prune_last. cbn. lia. }
  rewrite Hinit1, <- app_assoc in Hm3. cbn [app] in Hm3.
  destruct (prune_last_two memoryManager init1 (mkMessage user prompt None)
              (mkMessage assistant APOLOGY None)) as [init Hinit]; [ cbn; lia | ].
  rewrite Hinit in Hm3.
  exists w3, c2, init.
  split.
  { unfold LLMClient.generateResponse.
    cbn [LLMClient.provider LLMClient.conversationId LLMClient.fallbackProviders].
    rewrite Huse. unfold try_catch at 1. unfold bind at 1. rewrite Hprep.
    unfold try_catch at 1. unfold bind at 1. rewrite Hgen.
    unfold bind at 1. unfold LLMClient.remember, bind at 1. rewrite Hadd.
    reflexivity. }
  split; [ exact Hst3 | exact Hm3 ].
Qed.

Lemma exchange_recorded_witness :
  let w := mkWorld ∅ [] []
             [NetFail (mkError "503"); NetFail (mkError "503");
              NetFail (mkError "timeout")] [] [] [] [] in
  ∃ w' c init,
    LLMClient.generateResponse (LLMClient.mkClient CohereProvider.new "A" [])
      "hi" LLMClient.no_options w
    = (Ok APOLOGY, w')
    ∧ stored w' "A" = Some c
    ∧ messages c
      = init ++ [mkMessage user "hi" None; mkMessage assistant APOLOGY None].
Proof.
  intros w.
  apply (exchange_recorded CohereProvider.new "A" [] "hi" LLMClient.no_options w).
  - unfold implementations. rewrite !elem_of_cons. left. reflexivity.
  - reflexivity.
  - reflexivity.
  - left. reflexivity.
  - reflexivity.
Defined.

(** ** Streaming through the client *)

Lemma consume_record cs :
  ∀ full w,
    ∃ full' w', LLMClient.consume record_chunk cs full w = (Ok full', w')
                ∧ chunks w' = chunks w ++ delivered cs.
Proof.
  induction cs as [ | c cs IH ]; intros full w.
  - exists full, w. split; [ reflexivity | ]. cbn. rewrite app_nil_r. reflexivity.
  - cbn [LLMClient.consume]. unfold bind at 1, record_chunk at 1.
    destruct (IH (full +:+ chunk_content c)
                 (set_chunks (chunks w ++ [(chunk_content c, chunk_done c)]) w))
      as (full' & w' & -> & Hchunks).
    exists full', w'. split; [ reflexivity | ].
    rewrite Hchunks. unfold delivered. cbn [chunks set_chunks fmap list_fmap].
    rewrite <- app_assoc. reflexivity.
Qed.

(** X23.  A stream that fails is reported in the stream.  For a client
    without fallback providers whose provider's stream yields some chunks
    and then throws, with the memory off or over a store that holds under
    the conversation's key nothing or a conversation:
    [generateStreamingResponse] resolves with the streaming apology, and
    [onChunk] has received every chunk that was yielded, in order,
    followed by the apology flagged done; what was delivered before the
    failure is not taken back. *)
Theorem streaming_failure_reported (this : LLMClient.t) (prompt : string)
    (options : LLMClient.Options) (w : World) (cs : list LLMResponseChunk) :
  LLMClient.fallbackProviders this = [] →
  LLMClient.useMemory options = Some false
  ∨ typed_store w (LLMClient.conversationId this) →
  (∀ request w0, ∃ e w1,
      generateStreamingResponse (LLMClient.provider this) request w0
      = ((cs, Some e), w1)
      ∧ chunks w1 = chunks w0) →
  ∃ w', LLMClient.generateStreamingResponse this prompt options record_chunk w
        = (Ok STREAM_APOLOGY, w')
        ∧ chunks w'
          = chunks w ++ delivered cs
            ++ [(STREAM_APOLOGY, true)].
Proof.
  intros Hnone _ Hstream.
  destruct (resolves_prepare this prompt options w) as (request & w1 & Hprep).
  pose proof (keeps_prepare chunks this prompt options w) as Hkept.
  rewrite Hprep in Hkept. cbn [snd] in Hkept.
  destruct (Hstream request w1) as (e & w2 & Hgen & Hchunks2).
  destruct (consume_record cs EmptyString w2) as (full & w3 & Hcons & Hchunks3).
  unfold LLMClient.generateStreamingResponse. rewrite Hnone.
  unfold try_catch at 1. unfold bind at 1. rewrite Hprep.
  unfold try_catch at 1. unfold bind at 1, LLMClient.for_await at 1.
  rewrite Hgen. unfold bind at 1. rewrite Hcons.
  cbn [LLMClient.try_streaming_fallbacks]. unfold throw at 1.
  unfold bind at 1, ret at 1, throw at 1.
  unfold bind, record_chunk, ret.
  eexists. split; [ reflexivity | ].
  cbn [chunks set_chunks]. rewrite Hchunks3, Hchunks2, Hkept, <- app_assoc.
  reflexivity.
Qed.

Lemma streaming_failure_reported_witness :
  ∃ w',
    LLMClient.generateStreamingResponse
      (LLMClient.mkClient
         (mock_provider (λ _, ret EmptyString)
            (λ _ w0, (([mkChunk "par" false; mkChunk "tial" false],
                       Some (mkError "socket hang up")), w0)))
         "A" [])
      "hi" LLMClient.no_options record_chunk (mkWorld ∅ [] [] [] [] [] [] [])
    = (Ok STREAM_APOLOGY, w')
    ∧ chunks w' = [("par", false); ("tial", false); (STREAM_APOLOGY, true)].
Proof.
  apply (streaming_failure_reported _ "hi" LLMClient.no_options
           (mkWorld ∅ [] [] [] [] [] [] [])
           [mkChunk "par" false; mkChunk "tial" false]).
  - reflexivity.
  - right. left. reflexivity.
  - intros request w0. eexists _, _. split; reflexivity.
Defined.

Lemma real_stream_yields p request w :
  p ∈ implementations →
  ∃ c cs w', generateStreamingResponse p request w = ((c :: cs, None), w').
Proof.
  intros Hp. destruct (implementations_flagged p Hp) as (url & frame & -> & Hframe).
  destruct (stream_response_shape url frame request w Hframe)
    as (init & final & w' & -> & _).
  destruct init as [ | c init ]; eexists _, _, _; reflexivity.
Qed.

Lemma for_await_thrown p request error w :
  p ∈ implementations →
  ∃ w', LLMClient.for_await (generateStreamingResponse p request)
          (λ _ _, throw error) w
        = (Throw error, w').
Proof.
  intros Hp. destruct (real_stream_yields p request w Hp) as (c & cs & w' & Hgen).
  exists w'. unfold LLMClient.for_await. rewrite Hgen. reflexivity.
Qed.

Lemma streaming_fallbacks_thrown use id request error ps :
  Forall (λ p, p ∈ implementations) ps →
  ∀ w, ∃ w', LLMClient.try_streaming_fallbacks use id request (λ _ _, throw error) ps w
             = (Ok None, w').
Proof.
  induction 1 as [ | p ps Hp _ IH ]; intros w.
  - exists w. reflexivity.
  - cbn [LLMClient.try_streaming_fallbacks].
    destruct (for_await_thrown p request error w Hp) as (w1 & Hthrown).
    unfold bind at 1, try_catch at 1. unfold bind at 1. rewrite Hthrown.
    unfold ret at 1. apply IH.
Qed.

(** X24.  An [onChunk] that throws makes [generateStreamingResponse]
    reject.  With providers of the Cohere, OpenRouter or GLHF class, whose
    streams always yield at least one chunk: the error of a callback that
    throws is caught in the provider's loop and in each fallback
    provider's loop, but the handler that reports the failure calls the
    callback again, and there nothing catches it: the promise rejects
    with the callback's error and no apology is returned. *)
Theorem throwing_callback_escapes (p : LLMProvider) (id : string)
    (fallbacks : list LLMProvider) (prompt : string) (options : LLMClient.Options)
    (error : Error) (w : World) :
  p ∈ implementations → Forall (λ q, q ∈ implementations) fallbacks →
  ∃ w', LLMClient.generateStreamingResponse (LLMClient.mkClient p id fallbacks)
          prompt options (λ _ _, throw error) w
        = (Throw error, w').
Proof.
  intros Hp Hfallbacks.
  destruct (resolves_prepare (LLMClient.mkClient p id fallbacks) prompt options w)
    as (request & w1 & Hprep).
  destruct (for_await_thrown p request error w1 Hp) as (w2 & Hthrown).
  destruct (streaming_fallbacks_thrown (default true (LLMClient.useMemory options))
              id request error fallbacks Hfallbacks w2) as (w3 & Hnone).
  exists w3. unfold LLMClient.generateStreamingResponse.
  cbn [LLMClient.provider LLMClient.conversationId LLMClient.fallbackProviders].
  unfold try_catch at 1. unfold bind at 1. rewrite Hprep.
  unfold try_catch at 1. unfold bind at 1. rewrite Hthrown.
  unfold bind at 1. rewrite Hnone. reflexivity.
Qed.

Lemma throwing_callback_escapes_witness :
  ∃ w',
    LLMClient.generateStreamingResponse
      (LLMClient.mkClient CohereProvider.new "A" [GLHFProvider.new])
      "hi" LLMClient.no_options (λ _ _, throw (mkError "render failed"))
      (mkWorld ∅ [] [] [] [] [] [] [])
    = (Throw (mkError "render failed"), w').
Proof.
  apply throwing_callback_escapes.
  - unfold implementations. rewrite !elem_of_cons. left. reflexivity.
  - apply Forall_cons_2; [ | apply Forall_nil_2 ].
    unfold implementations. rewrite !elem_of_cons. right. right. left. reflexivity.
Defined.

(** ** The conversation in Cohere's request *)

Lemma convert_messages_history messages :
  ∀ preamble history,
    (CohereProvider.convert_messages messages preamble history).2
    = history ++ turns messages.
Proof.
  unfold turns. induction messages as [ | msg rest IH ]; intros preamble history.
  - cbn. rewrite app_nil_r. reflexivity.
  - cbn [CohereProvider.convert_messages]. rewrite filter_cons.
    destruct (decide (role msg = system)) as [ Hs | Hs ].
    + rewrite decide_False by (intros H; apply H; exact Hs). apply IH.
    + rewrite decide_True by exact Hs. rewrite IH, <- app_assoc. reflexivity.
Qed.

Lemma turns_snoc messages m :
  role m ≠ system → turns (messages ++ [m]) = turns messages ++ [(role m, content m)].
Proof.
  intros Hm. unfold turns. rewrite filter_app, fmap_app. f_equal.
  rewrite filter_cons, decide_True by exact Hm. reflexivity.
Qed.

Lemma body_chat_history_snoc history turn :
  CohereProvider.body_chat_history (history ++ [turn]) = history.
Proof.
  unfold CohereProvider.body_chat_history, len. rewrite length_app. cbn [length].
  destruct history as [ | t history ]; [ reflexivity | ].
  destruct (Z.ltb_spec 1 (Z.of_nat (length (t :: history) + 1))); [ | cbn in *; lia ].
  replace (length (t :: history) + 1 - 1)%nat with (length (t :: history)) by lia.
  apply take_app_length.
Qed.

(** X25.  What Cohere is sent of the conversation.  For a conversation
    whose last message is not a system message: the chat history of the
    request holds every turn (message that is not a system message) but
    the last, in order; the last turn is sent as the request's [message]
    when it is the user's, and when it is the assistant's the [message] is
    empty and that turn is not sent at all. *)
Theorem cohere_body_conserves_turns (messages : list LLMMessage)
    (preamble : string) (m : LLMMessage) :
  last messages = Some m → role m ≠ system →
  turns messages
  = CohereProvider.body_chat_history
      (CohereProvider.convert_messages messages preamble []).2
    ++ [(role m, content m)]
  ∧ CohereProvider.body_message messages
    = if decide (role m = user) then content m else EmptyString.
Proof.
  intros Hlast Hm. apply last_Some in Hlast as [earlier ->].
  rewrite convert_messages_history. cbn [app].
  rewrite turns_snoc by exact Hm. rewrite body_chat_history_snoc.
  split; [ reflexivity | ].
  unfold CohereProvider.body_message. rewrite last_snoc. reflexivity.
Qed.

Lemma cohere_body_conserves_turns_witness :
  turns [mkMessage system "Be brief." None; mkMessage user "hi" None;
         mkMessage assistant "hello" None]
  = CohereProvider.body_chat_history
      (CohereProvider.convert_messages
         [mkMessage system "Be brief." None; mkMessage user "hi" None;
          mkMessage assistant "hello" None] "preamble" []).2
    ++ [(assistant, "hello")]
  ∧ CohereProvider.body_message
      [mkMessage system "Be brief." None; mkMessage user "hi" None;
       mkMessage assistant "hello" None]
    = EmptyString.
Proof.
  apply (cohere_body_conserves_turns _ "preamble" (mkMessage assistant "hello" None)).
  - reflexivity.
  - discriminate.
Defined.

(** ** A stream, end to end *)

Lemma still_ret {A} (a : A) : still (g_ret a).
Proof. intros w. reflexivity. Qed.

Lemma still_throw {A} e : still (@g_throw A e).
Proof. intros w. reflexivity. Qed.

Lemma still_yield c : still (g_yield c).
Proof. intros w. reflexivity. Qed.

Lemma still_result {A} (r : Result A) : still (g_result r).
Proof. intros w. reflexivity. Qed.

Lemma still_bind {A B} (g : G A) (k : A → G B) :
  still g → (∀ a, still (k a)) → still (g_bind g k).
Proof.
  intros Hg Hk w. unfold g_bind. specialize (Hg w).
  destruct (g w) as [[cs [a | e]] w1]; cbn [snd] in *; subst w1; [ | reflexivity ].
  specialize (Hk a w). destruct (k a w) as [[cs' r] w2]. exact Hk.
Qed.

Lemma still_try_catch {A} (g : G A) h :
  still g → (∀ e, still (h e)) → still (g_try_catch g h).
Proof.
  intros Hg Hh w. unfold g_try_catch. specialize (Hg w).
  destruct (g w) as [[cs [a | e]] w1]; cbn [snd] in *; subst w1; [ reflexivity | ].
  specialize (Hh e w). destruct (h e w) as [[cs' r] w2]. exact Hh.
Qed.

Lemma still_cohere_frame chunk : still (CohereProvider.frame chunk).
Proof.
  unfold CohereProvider.frame.
  apply still_try_catch; [ | intros; apply still_ret ].
  destruct (negb _); [ apply still_ret | ].
  apply still_try_catch.
  - apply still_bind; [ destruct (JSON.parse _); [ apply still_ret | apply still_throw ] | ].
    intros json. apply still_bind; [ apply still_result | intros [ [] | ] ];
      try apply still_ret.
    destruct (String.eqb _ _);
      [ apply still_bind; [ apply still_yield | intros; apply still_ret ] | ].
    destruct (String.eqb _ _); [ | apply still_ret ].
    apply still_bind; [ apply still_yield | intros; apply still_ret ].
  - intros e. destruct (CohereProvider.match_text _); [ | apply still_ret ].
    apply still_bind; [ apply still_yield | intros; apply still_ret ].
Qed.

Lemma still_yield_delta json : still (OpenAIStyle.yield_delta json).
Proof.
  unfold OpenAIStyle.yield_delta.
  apply still_bind; [ apply still_result | intros choices ].
  destruct (truthy choices); [ | apply still_ret ].
  apply still_bind; [ apply still_result | intros delta ].
  destruct (truthy delta); [ | apply still_ret ].
  apply still_bind; [ apply still_result | intros text ].
  destruct (truthy text); [ apply still_yield | apply still_ret ].
Qed.

Lemma still_lines_loop lines : still (OpenAIStyle.lines_loop lines).
Proof.
  induction lines as [ | line rest IH ]; [ apply still_ret | ].
  cbn [OpenAIStyle.lines_loop]. destruct (String.eqb _ _).
  - apply still_bind; [ apply still_yield | intros; apply still_ret ].
  - apply still_bind; [ destruct (JSON.parse _); [ apply still_ret | apply still_throw ] | ].
    intros json. apply still_bind; [ apply still_yield_delta | intros _; exact IH ].
Qed.

Lemma still_openai_frame chunk : still (OpenAIStyle.frame chunk).
Proof.
  unfold OpenAIStyle.frame.
  apply still_try_catch; [ | intros; apply still_ret ].
  destruct (_ || _); [ apply still_ret | apply still_lines_loop ].
Qed.

Lemma still_frames_loop frame frames :
  (∀ c, still (frame c)) → still (frames_loop frame frames).
Proof.
  intros Hframe. induction frames as [ | f rest IH ]; [ apply still_ret | ].
  cbn [frames_loop]. apply still_bind; [ apply Hframe | intros [] ];
    [ exact IH | apply still_ret ].
Qed.

Lemma still_for_await_frames data frame :
  (∀ c, still (frame c)) → still (for_await_frames data frame).
Proof.
  intros Hframe. destruct data as [ [ [] | ] | frames broken ];
    try apply still_ret; try apply still_throw.
  cbn [for_await_frames].
  apply still_bind; [ apply still_frames_loop, Hframe | intros [] ];
    destruct broken; try apply still_ret; apply still_throw.
Qed.

Lemma stream_response_world {X} (f : World → X) `{!Unreached f} url frame options w :
  (∀ c, still (frame c)) → f (stream_response url frame options w).2 = f w.
Proof.
  intros Hframe.
  pose proof (request_keeps_withRetry f url (streaming options) w) as Hretry.
  unfold stream_response, run_generator, g_try_catch.
  unfold g_bind at 1, g_lift at 1.
  destruct (withRetry_default (makeRequest url (streaming options)) w)
    as [[data | e] w1]; cbn [snd] in Hretry.
  - pose proof (still_bind (for_await_frames data frame)
                  (λ flow, match flow with
                           | Return => g_ret tt
                           | Continue => g_yield done_marker
                           end)
                  (still_for_await_frames data frame Hframe)
                  (λ flow, match flow with
                           | Return => still_ret tt
                           | Continue => still_yield done_marker
                           end) w1) as Hstill.
    destruct (g_bind (for_await_frames data frame) _ w1) as [[cs [[] | e]] w2];
      cbn [snd] in *; subst w2; exact Hretry.
  - exact Hretry.
Qed.

Lemma append_assoc (a b c : string) : (a +:+ b) +:+ c = a +:+ (b +:+ c).
Proof.
  induction a as [ | x a IH ]; [ reflexivity | ].
  change (String x ((a +:+ b) +:+ c) = String x (a +:+ (b +:+ c))).
  f_equal. exact IH.
Qed.

Lemma append_empty_r (a : string) : a +:+ EmptyString = a.
Proof.
  induction a as [ | x a IH ]; [ reflexivity | ].
  change (String x (a +:+ EmptyString) = String x a). f_equal. exact IH.
Qed.

Lemma consume_record_text cs :
  ∀ full w,
    ∃ w', LLMClient.consume record_chunk cs full w = (Ok (full +:+ text_of cs), w')
          ∧ w' = set_chunks (chunks w ++ delivered cs) w.
Proof.
  induction cs as [ | c cs IH ]; intros full w.
  - exists w. cbn. rewrite append_empty_r, app_nil_r. split; [ reflexivity | ].
    destruct w; reflexivity.
  - cbn [LLMClient.consume]. unfold bind at 1, record_chunk at 1.
    destruct (IH (full +:+ chunk_content c)
                 (set_chunks (chunks w ++ [(chunk_content c, chunk_done c)]) w))
      as (w' & -> & ->).
    eexists. split; [ rewrite append_assoc; reflexivity | ].
    cbn. rewrite <- app_assoc. reflexivity.
Qed.

Lemma implementations_stream p :
  p ∈ implementations →
  ∃ url frame, generateStreamingResponse p = stream_response url frame
               ∧ (∀ c, flagged false (frame c)) ∧ (∀ c, still (frame c)).
Proof.
  unfold implementations. rewrite !elem_of_cons, elem_of_nil.
  intros [-> | [-> | [-> | []]]]; eexists _, _;
    (split; [ reflexivity | ]);
    (split; [ auto using cohere_frame_flagged, openai_frame_flagged
            | auto using still_cohere_frame, still_openai_frame ]).
Qed.

(** X26.  What a stream delivers is what is returned.  With a provider of
    the Cohere, OpenRouter or GLHF class and a callback that records its
    arguments: [generateStreamingResponse] of the client resolves, the
    callback has received one or more chunks of which the last, and only
    the last, is flagged done, and the returned text is the contents of
    the delivered chunks put together in order, the provider's error
    chunk included when the stream ended with it; no mock is called. *)
Theorem streamed_text_is_what_was_delivered (p : LLMProvider) (id : string)
    (fallbacks : list LLMProvider) (prompt : string) (options : LLMClient.Options)
    (w : World) :
  p ∈ implementations →
  ∃ w' cs final,
    LLMClient.generateStreamingResponse (LLMClient.mkClient p id fallbacks)
      prompt options record_chunk w
    = (Ok (text_of (cs ++ [final])), w')
    ∧ chunks w' = chunks w ++ delivered (cs ++ [final])
    ∧ Forall not_done cs
    ∧ (final = done_marker ∨ final = error_chunk)
    ∧ calls w' = calls w.
Proof.
  intros Hp.
  destruct (implementations_stream p Hp) as (url & frame & Hgen & Hflagged & Hstill).
  destruct (resolves_prepare (LLMClient.mkClient p id fallbacks) prompt options w)
    as (request & w1 & Hprep).
  pose proof (keeps_prepare chunks (LLMClient.mkClient p id fallbacks) prompt options w)
    as Hchunks1.
  pose proof (keeps_prepare calls (LLMClient.mkClient p id fallbacks) prompt options w)
    as Hcalls1.
  rewrite Hprep in Hchunks1, Hcalls1. cbn [snd] in Hchunks1, Hcalls1.
  destruct (stream_response_shape url frame request w1 Hflagged)
    as (cs & final & w2 & Hstream & Hcs & Hfinal & _).
  pose proof (stream_response_world chunks url frame request w1 Hstill) as Hchunks2.
  pose proof (stream_response_world calls url frame request w1 Hstill) as Hcalls2.
  rewrite Hstream in Hchunks2, Hcalls2. cbn [snd] in Hchunks2, Hcalls2.
  destruct (consume_record_text (cs ++ [final]) EmptyString w2) as (w3 & Hcons & Hw3).
  set (use := default true (LLMClient.useMemory options)).
  destruct (resolves_remember use id
              (mkMessage assistant (text_of (cs ++ [final])) None) w3)
    as ([] & w4 & Hrem).
  pose proof (keeps_remember chunks use id
                (mkMessage assistant (text_of (cs ++ [final])) None) w3) as Hchunks4.
  pose proof (keeps_remember calls use id
                (mkMessage assistant (text_of (cs ++ [final])) None) w3) as Hcalls4.
  rewrite Hrem in Hchunks4, Hcalls4. cbn [snd] in Hchunks4, Hcalls4.
  exists w4, cs, final. split.
  { unfold LLMClient.generateStreamingResponse.
    cbn [LLMClient.provider LLMClient.conversationId LLMClient.fallbackProviders].
    unfold try_catch at 1. unfold bind at 1. rewrite Hprep.
    unfold try_catch at 1. unfold bind at 1, LLMClient.for_await at 1.
    rewrite Hgen, Hstream. unfold bind at 1. rewrite Hcons.
    change (EmptyString +:+ text_of (cs ++ [final])) with (text_of (cs ++ [final])).
    unfold ret at 1. fold use. unfold bind at 1. rewrite Hrem. reflexivity. }
  split; [ rewrite Hchunks4, Hw3; cbn [chunks set_chunks]; congruence | ].
  split; [ exact Hcs | ]. split; [ exact Hfinal | ].
  rewrite Hcalls4, Hw3. cbn [calls set_chunks]. congruence.
Qed.

Lemma streamed_text_is_what_was_delivered_witness :
  ∃ w' cs final,
    LLMClient.generateStreamingResponse
      (LLMClient.mkClient CohereProvider.new "A" [down 1])
      "hi" LLMClient.no_options record_chunk (mkWorld ∅ [] [] [] [] [] [] [])
    = (Ok (text_of (cs ++ [final])), w')
    ∧ chunks w' = [] ++ delivered (cs ++ [final])
    ∧ Forall not_done cs
    ∧ (final = done_marker ∨ final = error_chunk)
    ∧ calls w' = [].
Proof.
  apply (streamed_text_is_what_was_delivered CohereProvider.new "A" [down 1] "hi"
           LLMClient.no_options (mkWorld ∅ [] [] [] [] [] [] [])).
  unfold implementations. rewrite !elem_of_cons. left. reflexivity.
Defined.
